(** * von-x: the Indy service and its configuration catalogue

    A shallow embedding of [vonx/indy/config.py] and [vonx/indy/service.py].

    Python objects become records, [None] becomes [JNull] or an [option],
    coroutines become computations in a state-and-exception monad in which
    the state survives a raised exception (Python mutates its objects in
    place, so whatever was assigned before a [raise] stays assigned).  The
    ledger agent, the wallets, the connectors and the HTTP endpoints are
    outside the repository: they are reached through one handler, [handle],
    which answers every outgoing call with a JSON reply or an exception. *)

From stdpp Require Import base list strings option gmap.
From Stdlib Require Import OrdersEx.

Set Warnings "-register-all,-clear-no-such-hyp".
#[local] Open Scope string_scope.
#[local] Open Scope list_scope.

(** ** Python values *)

(** What [json.loads] produces.  A [JObj] lists the items of a dict, whose
    keys are distinct; [JNull] is [None]. *)
Inductive json :=
  | JNull
  | JBool (b : bool)
  | JNum (n : Z)
  | JStr (s : string)
  | JArr (l : list json)
  | JObj (items : list (string * json)).

(** The exceptions that the modelled code can meet.  [IndyConfigError] and
    [IndyConnectionError] are subclasses of [IndyError]; the built-in ones
    carry the offending name. *)
Inductive exn :=
  | IndyError (msg : string)
  | IndyConfigError (msg : string)
  | IndyConnectionError (msg : string)
  | ServiceSyncError (msg : string)
  | AbsentSchema
  | AbsentCredDef
  | KeyError (key : string)
  | IndexError
  | TypeError
  | AttributeError (attr : string)
  | UnboundLocalError (var : string)
  | ValueError
  | ExternalError (msg : string).

Inductive result (A : Type) :=
  | Ok (a : A)
  | Raise (e : exn).
Arguments Ok {A} a.
Arguments Raise {A} e.

#[export] Instance result_ret : MRet result := λ A a, Ok a.

#[export] Instance result_bind : MBind result := λ A B k r,
  match r with
  | Ok a => k a
  | Raise e => Raise e
  end.

Definition is_IndyConfigError (e : exn) : bool :=
  match e with IndyConfigError _ => true | _ => false end.

(** Truth value of a Python object ([if x:], [not x]). *)
Definition truthy (j : json) : bool :=
  match j with
  | JNull => false
  | JBool b => b
  | JNum n => negb (n =? 0)%Z
  | JStr s => negb (String.eqb s "")
  | JArr l => match l with [] => false | _ => true end
  | JObj items => match items with [] => false | _ => true end
  end.

Definition truthy_str (o : option string) : bool :=
  match o with
  | Some s => negb (String.eqb s "")
  | None => false
  end.

Fixpoint assoc {A} (k : string) (items : list (string * A)) : option A :=
  match items with
  | [] => None
  | (k', v) :: rest => if String.eqb k k' then Some v else assoc k rest
  end.

(** [d.get(k)]: only a dict has the method; a missing key gives [None]. *)
Definition jget (j : json) (k : string) : result json :=
  match j with
  | JObj items => Ok (default JNull (assoc k items))
  | _ => Raise (AttributeError "get")
  end.

(** [d[k]] with a string key. *)
Definition jindex (j : json) (k : string) : result json :=
  match j with
  | JObj items =>
      match assoc k items with
      | Some v => Ok v
      | None => Raise (KeyError k)
      end
  | _ => Raise TypeError
  end.

(** [x[0]]. *)
Definition jfirst (j : json) : result json :=
  match j with
  | JArr (x :: _) => Ok x
  | JArr [] => Raise IndexError
  | JStr s => match s with
              | "" => Raise IndexError
              | String c _ => Ok (JStr (String c ""))
              end
  | JObj _ => Raise (KeyError "0")
  | _ => Raise TypeError
  end.

(** [len(x)]. *)
Definition jlen (j : json) : result nat :=
  match j with
  | JArr l => Ok (length l)
  | JObj items => Ok (length items)
  | JStr s => Ok (String.length s)
  | _ => Raise TypeError
  end.

(** [d.items()]. *)
Definition jitems (j : json) : result (list (string * json)) :=
  match j with
  | JObj items => Ok items
  | _ => Raise (AttributeError "items")
  end.

Definition json_of_option (o : option string) : json :=
  match o with Some s => JStr s | None => JNull end.

(** ** [config.py]: schema definitions *)

Inductive AgentType := issuer | holder | verifier.

#[export] Instance AgentType_eq_dec : EqDecision AgentType.
Proof. solve_decision. Defined.

(** One schema attribute: a dict with a ['name'] entry and optional type
    information.  Dict equality does not depend on insertion order, hence a
    [gmap]. *)
Abbreviation attribute := (gmap string string).

Module SchemaCfg.

(** [class SchemaCfg]: [version] and [origin_did] default to [None];
    [_attributes] is always a list. *)
Record t := Build {
  name : string;
  version : option string;
  _attributes : list attribute;
  origin_did : option string;
}.

#[global] Instance t_eq_dec : EqDecision t.
Proof. solve_decision. Defined.

(** The [attributes] property returns a copy of the list. *)
Definition attributes (self : t) : list attribute := _attributes self.

Definition nonempty {A} (l : list A) : bool :=
  match l with [] => false | _ => true end.

(** [SchemaCfg.compare] *)
Definition compare (self schema : t) : bool :=
  if bool_decide (name self ≠ name schema) then false
  else if truthy_str (version self) && truthy_str (version schema)
          && bool_decide (version self ≠ version schema) then false
  else if truthy_str (origin_did self) && truthy_str (origin_did schema)
          && bool_decide (origin_did self ≠ origin_did schema) then false
  else if nonempty (attributes self) && nonempty (attributes schema)
          && bool_decide (attributes self ≠ attributes schema) then false
  else true.

(** [attr_names]: [attr['name']] for every attribute, a [KeyError] when
    one has no name. *)
Fixpoint attr_names_of (attrs : list attribute) : result (list string) :=
  match attrs with
  | [] => Ok []
  | a :: rest =>
      match a !! "name" with
      | None => Raise (KeyError "name")
      | Some n =>
          match attr_names_of rest with
          | Ok ns => Ok (n :: ns)
          | Raise e => Raise e
          end
      end
  end.

Definition attr_names (self : t) : result (list string) :=
  attr_names_of (_attributes self).

(** [copy] *)
Definition copy (self : t) : t :=
  Build (name self) (version self) (_attributes self) (origin_did self).

End SchemaCfg.

(** A field is absent when Python finds it false: [None] or the empty
    string for [version] and [origin_did], the empty list for the
    attributes. *)
Definition absent_str (o : option string) : Prop := o = None ∨ o = Some "".
Definition absent_attrs (l : list attribute) : Prop := l = [].

(** ** [distutils.version.LooseVersion] (Python 3), on ASCII strings

    [parse] splits the string with [(\d+ | [a-z]+ | \.)], drops the empty
    pieces and the dots, and turns the digit runs into integers.  The
    pieces are therefore the maximal runs of digits, of lower-case letters
    and of other characters. *)

Inductive component :=
  | CInt (n : N)
  | CStr (s : string).

#[export] Instance component_eq_dec : EqDecision component.
Proof. solve_decision. Defined.

Inductive char_class := Digit | Lower | Dot | Other.

#[export] Instance char_class_eq_dec : EqDecision char_class.
Proof. solve_decision. Defined.

Definition classify (c : Ascii.ascii) : char_class :=
  let n := Ascii.N_of_ascii c in
  if (48 <=? n)%N && (n <=? 57)%N then Digit
  else if (97 <=? n)%N && (n <=? 122)%N then Lower
  else if (n =? 46)%N then Dot
  else Other.

(** The pieces that [component_re.split] returns, without the empty ones:
    every dot on its own, every other maximal run of one class. *)
Fixpoint split_runs (s : string) : list (char_class * string) :=
  match s with
  | "" => []
  | String c s' =>
      let k := classify c in
      match split_runs s' with
      | (k', run) :: rest =>
          if bool_decide (k = k') && negb (bool_decide (k = Dot))
          then (k, String c run) :: rest
          else (k, String c "") :: (k', run) :: rest
      | [] => [(k, String c "")]
      end
  end.

(** [int(obj)] on a run of ASCII digits. *)
Definition int_of_digits (s : string) : N :=
  fold_left (λ acc c, (10 * acc + (Ascii.N_of_ascii c - 48))%N)
            (String.list_ascii_of_string s) 0%N.

Definition parse_version (vstring : string) : list component :=
  omap (λ '(k, run),
          match k with
          | Dot => None
          | Digit => Some (CInt (int_of_digits run))
          | Lower | Other => Some (CStr run)
          end) (split_runs vstring).

(** [x < y] on two components: integers by value, strings by code point,
    and a [TypeError] for an integer against a string. *)
Definition component_lt (x y : component) : result bool :=
  match x, y with
  | CInt m, CInt n => Ok (m <? n)%N
  | CStr s, CStr t => Ok (String.ltb s t)
  | _, _ => Raise TypeError
  end.

(** [a < b] on two lists: decided by the first position where they differ,
    a proper prefix being smaller. *)
Fixpoint list_lt (a b : list component) : result bool :=
  match a, b with
  | [], [] => Ok false
  | [], _ :: _ => Ok true
  | _ :: _, [] => Ok false
  | x :: a', y :: b' =>
      if bool_decide (x = y) then list_lt a' b' else component_lt x y
  end.

(** [LooseVersion(v) < LooseVersion(w)].  The constructor parses only a
    non-empty string; without it the object has no [version] attribute and
    the comparison raises [AttributeError]. *)
Definition LooseVersion_lt (v w : option string) : result bool :=
  if truthy_str v && truthy_str w then
    let a := parse_version (default "" v) in
    let b := parse_version (default "" w) in
    if bool_decide (a = b) then Ok false else list_lt a b
  else Raise (AttributeError "version").

(** ** [config.py]: the schema manager *)

(** What a caller may pass where attributes are expected. *)
Inductive attr_arg :=
  | AttrMapping (d : attribute)
  | AttrStr (s : string)
  | AttrNone
  | AttrOther.

Inductive attrs_arg :=
  | AttrsFalse                                       (* [None], or any false value *)
  | AttrsMapping (items : list (string * attr_arg))
  | AttrsSequence (l : list attr_arg)
  | AttrsOther.

(** [SchemaCfg.add_attribute], returning the attribute appended *)
Definition add_attribute (attr : attr_arg) (name : option string) : result attribute :=
  match attr with
  | AttrMapping d =>
      Ok (match name with Some n => <["name" := n]> d | None => d end)
  | AttrStr s => Ok {["name" := s]}
  | AttrNone =>
      if truthy_str name then Ok {["name" := default "" name]}
      else Raise (IndyConfigError "Unsupported type for attribute")
  | AttrOther => Raise (IndyConfigError "Unsupported type for attribute")
  end.

Fixpoint add_attributes (l : list (option string * attr_arg)) : result (list attribute) :=
  match l with
  | [] => Ok []
  | (name, attr) :: rest =>
      match add_attribute attr name with
      | Raise e => Raise e
      | Ok a =>
          match add_attributes rest with
          | Raise e => Raise e
          | Ok l' => Ok (a :: l')
          end
      end
  end.

(** The [attributes] setter, run by the constructor when [attributes] is
    true. *)
Definition set_attributes (value : attrs_arg) : result (list attribute) :=
  match value with
  | AttrsFalse => Ok []
  | AttrsMapping items => add_attributes (map (λ '(n, a), (Some n, a)) items)
  | AttrsSequence l => add_attributes (map (λ a, (None, a)) l)
  | AttrsOther => Raise (IndyConfigError "Unsupported type for attributes")
  end.

(** [SchemaCfg(name, version, attributes, origin_did)] *)
Definition new_SchemaCfg (name : string) (version : option string)
    (attributes : attrs_arg) (origin_did : option string) : result SchemaCfg.t :=
  match set_attributes attributes with
  | Raise e => Raise e
  | Ok attrs => Ok (SchemaCfg.Build name version attrs origin_did)
  end.

(** A schema given as a dict: what [get] returns for the three keys read. *)
Record schema_dict := {
  d_name : option string;
  d_version : option string;
  d_attributes : attrs_arg;
}.

Inductive schema_arg :=
  | ArgSchema (s : SchemaCfg.t)
  | ArgMapping (d : schema_dict)
  | ArgOther.

Module SchemaManager.

(** The manager's state is its list [_schemas]. *)
Abbreviation t := (list SchemaCfg.t).

(** The loop of [find], from the current [found] over the schemas left. *)
Fixpoint find_from (name : string) (version : option string)
    (found : option SchemaCfg.t) (schemas : list SchemaCfg.t)
    : result (option SchemaCfg.t) :=
  match schemas with
  | [] => Ok found
  | schema :: rest =>
      if bool_decide (SchemaCfg.name schema = name) then
        match version with
        | Some v =>
            if bool_decide (SchemaCfg.version schema = Some v)
            then Ok (Some schema)            (* found = schema; break *)
            else find_from name version found rest
        | None =>
            match found with
            | None => find_from name version (Some schema) rest
            | Some f =>
                match LooseVersion_lt (SchemaCfg.version f) (SchemaCfg.version schema) with
                | Raise e => Raise e
                | Ok true => find_from name version (Some schema) rest
                | Ok false => find_from name version found rest
                end
            end
        end
      else find_from name version found rest
  end.

(** [SchemaManager.find] *)
Definition find (self : t) (name : string) (version : option string)
    : result (option SchemaCfg.t) :=
  find_from name version None self.

(** [list.remove]: the first element equal to [x] goes; [ValueError] when
    there is none.  [SchemaCfg] defines no [__eq__], so Python compares
    objects, and [find] hands back the first stored object among those that
    look alike. *)
Fixpoint list_remove (x : SchemaCfg.t) (l : list SchemaCfg.t) : result (list SchemaCfg.t) :=
  match l with
  | [] => Raise ValueError
  | y :: rest =>
      if bool_decide (y = x) then Ok rest
      else match list_remove x rest with
           | Ok rest' => Ok (y :: rest')
           | Raise e => Raise e
           end
  end.

(** [SchemaManager.remove_schema], given a schema object *)
Definition remove_schema (self : t) (schema : SchemaCfg.t) : result unit * t :=
  match list_remove schema self with
  | Ok l => (Ok (), l)
  | Raise e => (Raise e, self)
  end.

(** The head of [add_schema]: a [SchemaCfg] is taken as it is, a dict is
    converted, anything else is refused. *)
Definition as_SchemaCfg (schema : schema_arg) : result SchemaCfg.t :=
  match schema with
  | ArgSchema s => Ok s
  | ArgOther => Raise (IndyConfigError "Unsupported type for schema")
  | ArgMapping d =>
      if truthy_str (d_name d)
      then new_SchemaCfg (default "" (d_name d)) (d_version d) (d_attributes d) None
      else Raise (IndyConfigError "Missing schema name")
  end.

(** [SchemaManager.add_schema] *)
Definition add_schema (self : t) (schema : schema_arg) (override : bool)
    : result unit * t :=
  match as_SchemaCfg schema with
  | Raise e => (Raise e, self)
  | Ok schema =>
      match find self (SchemaCfg.name schema) (SchemaCfg.version schema) with
      | Raise e => (Raise e, self)
      | Ok None => (Ok (), self ++ [schema])
      | Ok (Some found) =>
          if override then
            match remove_schema self found with
            | (Raise e, self') => (Raise e, self')
            | (Ok _, self') => (Ok (), self' ++ [schema])
            end
          else (Raise (IndyConfigError "Duplicate schema definition"), self)
      end
  end.

(** [SchemaManager.load] *)
Fixpoint load (self : t) (values : list schema_arg) (override : bool) : result unit * t :=
  match values with
  | [] => (Ok (), self)
  | spec :: rest =>
      match add_schema self spec override with
      | (Raise e, self') => (Raise e, self')
      | (Ok _, self') => load self' rest override
      end
  end.

End SchemaManager.

(** The stored schemas that carry a given name, in storage order. *)
Definition same_named (name : string) (self : SchemaManager.t) : list SchemaCfg.t :=
  filter (λ s, SchemaCfg.name s = name) self.

Definition is_ok {A} (r : result A) : bool :=
  match r with Ok _ => true | Raise _ => false end.

(** Every version can be compared, as a [LooseVersion], with every later
    one of the list. *)
Fixpoint comparable (vs : list (option string)) : bool :=
  match vs with
  | [] => true
  | v :: rest => forallb (λ w, is_ok (LooseVersion_lt v w)) rest && comparable rest
  end.

(** ** [config.py]: agents, wallets, connections, proof specifications *)

Module CredType.

(** The dict that [AgentCfg.add_credential_type] appends to [cred_types]:
    keys [definition], [ledger_schema], [cred_def] and [params], the two
    middle ones [None] at first. *)
Record t := Build {
  definition : SchemaCfg.t;
  ledger_schema : json;
  cred_def : json;
  params : list (string * json);
}.

Definition set_ledger_schema (v : json) (ct : t) : t :=
  Build (definition ct) v (cred_def ct) (params ct).

Definition set_cred_def (v : json) (ct : t) : t :=
  Build (definition ct) (ledger_schema ct) v (params ct).

End CredType.

(** What the service reads from an agent object of [von_agent]. *)
Record AgentInstance := {
  inst_did : string;
  inst_verkey : string;
}.

Module AgentCfg.

Record t := Build {
  agent_id : string;
  agent_type : AgentType;
  cred_types : list CredType.t;
  _instance : option AgentInstance;
  opened : bool;
  registered : bool;
  synced : bool;
  wallet_id : string;
  abbreviation : option string;
  email : option string;
  endpoint : option string;
  name : option string;
  url : option string;
}.

Definition created (self : t) : bool := bool_decide (is_Some (_instance self)).

(** [self._instance and self._instance.did] *)
Definition did (self : t) : option string := inst_did <$> _instance self.
Definition verkey (self : t) : option string := inst_verkey <$> _instance self.

Definition role (self : t) : string :=
  if bool_decide (agent_type self = issuer) then "TRUST_ANCHOR" else "".

Definition set_cred_types (v : list CredType.t) (a : t) : t :=
  Build (agent_id a) (agent_type a) v (_instance a) (opened a) (registered a)
        (synced a) (wallet_id a) (abbreviation a) (email a) (endpoint a) (name a) (url a).

Definition set_instance (v : option AgentInstance) (a : t) : t :=
  Build (agent_id a) (agent_type a) (cred_types a) v (opened a) (registered a)
        (synced a) (wallet_id a) (abbreviation a) (email a) (endpoint a) (name a) (url a).

Definition set_opened (v : bool) (a : t) : t :=
  Build (agent_id a) (agent_type a) (cred_types a) (_instance a) v (registered a)
        (synced a) (wallet_id a) (abbreviation a) (email a) (endpoint a) (name a) (url a).

Definition set_registered (v : bool) (a : t) : t :=
  Build (agent_id a) (agent_type a) (cred_types a) (_instance a) (opened a) v
        (synced a) (wallet_id a) (abbreviation a) (email a) (endpoint a) (name a) (url a).

Definition set_synced (v : bool) (a : t) : t :=
  Build (agent_id a) (agent_type a) (cred_types a) (_instance a) (opened a)
        (registered a) v (wallet_id a) (abbreviation a) (email a) (endpoint a)
        (name a) (url a).

(** [AgentCfg.add_credential_type] *)
Definition add_credential_type (self : t) (schema : SchemaCfg.t)
    (params : list (string * json)) : result t :=
  if bool_decide (agent_type self ≠ issuer)
  then Raise (IndyConfigError "Only agent of type 'issuer' may publish schemas")
  else Ok (set_cred_types
             (cred_types self ++ [CredType.Build schema JNull JNull params]) self).

(** [AgentCfg.find_credential_type]: the first credential type whose
    definition [compare]s with [SchemaCfg(name, version, None, origin_did)] *)
Fixpoint find_matching (match_ : SchemaCfg.t) (cred_types : list CredType.t)
    : option CredType.t :=
  match cred_types with
  | [] => None
  | cred_type :: rest =>
      if SchemaCfg.compare (CredType.definition cred_type) match_
      then Some cred_type
      else find_matching match_ rest
  end.

Definition find_credential_type (self : t) (name : string)
    (version origin_did : option string) : option CredType.t :=
  find_matching (SchemaCfg.Build name version [] origin_did) (cred_types self).

End AgentCfg.

Module WalletCfg.

(** [_instance] holds, once the [Wallet] object exists, its [created]
    attribute. *)
Record t := Build {
  wallet_id : string;
  name : string;
  seed : string;
  _instance : option bool;
}.

(** [self._instance and self._instance.created] *)
Definition created (self : t) : bool := default false (_instance self).

Definition set_instance (v : option bool) (w : t) : t :=
  Build (wallet_id w) (name w) (seed w) v.

End WalletCfg.

Inductive ConnectionType := TheOrgBook | holder_connection.

#[export] Instance ConnectionType_eq_dec : EqDecision ConnectionType.
Proof. solve_decision. Defined.

Module ConnectionCfg.

Record t := Build {
  connection_id : string;
  agent_id : string;
  agent_type : AgentType;
  connection_type : ConnectionType;
  _instance : bool;                       (* [self._instance is not None] *)
  connection_params : list (string * json);
  opened : bool;
  synced : bool;
}.

Definition created (self : t) : bool := _instance self.

Definition set_instance (v : bool) (c : t) : t :=
  Build (connection_id c) (agent_id c) (agent_type c) (connection_type c) v
        (connection_params c) (opened c) (synced c).

Definition set_opened (v : bool) (c : t) : t :=
  Build (connection_id c) (agent_id c) (agent_type c) (connection_type c)
        (_instance c) (connection_params c) v (synced c).

Definition set_synced (v : bool) (c : t) : t :=
  Build (connection_id c) (agent_id c) (agent_type c) (connection_type c)
        (_instance c) (connection_params c) (opened c) v.

End ConnectionCfg.

Module ProofSpecCfg.

(** The [key] of a schema requirement: [name], [version] and the optional
    [did]. *)
Record schema_key := BuildKey {
  key_name : string;
  key_version : option string;
  key_did : option string;
}.

#[global] Instance schema_key_eq_dec : EqDecision schema_key.
Proof. solve_decision. Defined.

(** One entry of [self.schemas]; [definition] and [attributes] are absent
    until the entry is resolved. *)
Record requirement := BuildReq {
  key : schema_key;
  definition : option SchemaCfg.t;
  attributes : option (list string);
}.

Record t := Build {
  spec_id : string;
  version : string;
  schemas : list requirement;
  synced : bool;
}.

Definition set_schemas (v : list requirement) (p : t) : t :=
  Build (spec_id p) (version p) v (synced p).

Definition set_synced (v : bool) (p : t) : t :=
  Build (spec_id p) (version p) (schemas p) v.

(** [get_incomplete_schemas]: the keys of the entries without a definition.
    Python builds a set, whose iteration order is not specified; the model
    keeps the order of first appearance. *)
Definition get_incomplete_schemas (self : t) : list schema_key :=
  remove_dups
    (omap (λ r, match definition r with None => Some (key r) | Some _ => None end)
          (schemas self)).

(** The loop of [populate_schema].  An attribute of [found_schema] without
    a name stops it with [KeyError], after the definition of the current
    entry was assigned. *)
Fixpoint populate (found_schema : SchemaCfg.t) (schemas : list requirement)
    : result unit * list requirement :=
  match schemas with
  | [] => (Ok (), [])
  | schema :: rest =>
      let continue := λ schema',
        let '(r, rest') := populate found_schema rest in (r, schema' :: rest') in
      match definition schema with
      | Some _ => continue schema
      | None =>
          let s_key := key schema in
          let cfg := SchemaCfg.Build (key_name s_key) (key_version s_key) []
                                     (key_did s_key) in
          if SchemaCfg.compare cfg found_schema then
            let schema1 := BuildReq s_key (Some (SchemaCfg.copy found_schema))
                                    (attributes schema) in
            match attributes schema with
            | Some (_ :: _) => continue schema1
            | _ =>
                match SchemaCfg.attr_names found_schema with
                | Raise e => (Raise e, schema1 :: rest)
                | Ok names =>
                    continue (BuildReq s_key (Some (SchemaCfg.copy found_schema))
                                       (Some names))
                end
            end
          else continue schema
      end
  end.

Definition populate_schema (self : t) (found_schema : SchemaCfg.t) : result unit * t :=
  let '(r, schemas') := populate found_schema (schemas self) in
  (r, set_schemas schemas' self).

End ProofSpecCfg.

(** ** [messages.py]

    Modelled from the spec: the message classes live in [messages.py], which
    is not among the sources.  The fields are those the service reads, in
    the order in which it passes them to the constructors: an offer carries
    the schema name and version, the offer payload and the credential
    definition; a request carries the offer, the request payload and its
    metadata; a credential carries the schema name, the issuer DID, the
    credential payload, the credential definition, the request metadata and
    the revocation id; a stored credential carries the storage id, the
    credential and the flattened view. *)

Record CredentialOffer := {
  offer_schema_name : string;
  offer_schema_version : option string;
  offer : json;
  offer_cred_def : json;
}.

Record CredentialRequest := {
  cred_offer : CredentialOffer;
  request_data : json;
  request_metadata : json;
}.

Record Credential := {
  cred_schema_name : string;
  issuer_did : option string;
  cred_data : json;
  cred_cred_def : json;
  cred_req_metadata : json;
  cred_revoc_id : json;
}.

Record StoredCredential := {
  cred_id : json;
  stored_cred : Credential;
  stored_result : json;
}.

Record ResolvedSchema := {
  rs_agent_id : string;
  rs_schema_id : string;
  rs_schema_name : string;
  rs_schema_version : option string;
  rs_origin_did : option string;
  rs_attr_names : list string;
}.

Record ProofRequest := { request : json }.
Record ConstructedProof := { proof : json }.

(** ** The outside world *)

(** Every call that leaves the service, with what it is given.  A tuple
    coming back is a two-element [JArr]. *)
Inductive call :=
  | PathExists (path : string)
  | PathIsDir (path : string)
  | ParentExists (path : string)
  | ParentMkdir (path : string)
  | WriteNew (path : string) (data : string)
  | HttpGetText (url : string)
  | HttpPostJson (url : string) (body : json)
  | PoolOpen (name : string) (genesis_path : option string)
  | WalletCreate (wallet_id : string)
  | AgentOpen (agent_id : string)
  | CreateLinkSecret (agent_id : string)
  | GetNym (agent_id : string) (did : option string)
  | GetSchema (agent_id : string) (origin_did : option string) (name : string)
              (version : option string)
  | SendSchema (agent_id : string) (schema : json)
  | GetCredDef (agent_id : string) (did : option string) (seq_no : json)
  | SendCredDef (agent_id : string) (schema_json : json)
  | CreateCredOffer (agent_id : string) (seq_no : json)
  | CreateCredReq (agent_id : string) (offer cred_def : json)
  | CreateCred (agent_id : string) (offer request cred_data : json)
  | StoreCred (agent_id : string) (cred metadata : json)
  | GetCreds (agent_id : string) (request : json)
  | GetCredsById (agent_id : string) (request : json) (cred_ids : list string)
  | CreateProof (agent_id : string) (request found_creds params : json)
  | ConnectorNew (connection_id : string) (agent_params : json)
  | ConnectorOpen (connection_id : string)
  | ConnectorSync (connection_id : string).

(** The environment: a state of its own, the answer to every call, the DID
    and verification key that the wallet with a given id holds, and
    [json.loads]. *)
Record Env (W : Type) := {
  handle : call → W → result json * W;
  wallet_did : string → string;
  wallet_verkey : string → string;
  json_loads : string → result json;
}.
Arguments handle {W} _ _ _.
Arguments wallet_did {W} _ _.
Arguments wallet_verkey {W} _ _.
Arguments json_loads {W} _ _.

(** ** [service.py]: the state of the service *)

Module IndyService.

(** The attributes of [IndyService].  The four catalogues are dicts keyed by
    the id that each entry carries; Python keeps them in insertion order. *)
Record t := Build {
  _config : list (string * json);
  _genesis_path : option string;
  _agents : list AgentCfg.t;
  _connections : list ConnectionCfg.t;
  _ledger_url : option string;
  _name : string;
  _opened : bool;
  _pool : bool;
  _proof_specs : list ProofSpecCfg.t;
  _wallets : list WalletCfg.t;
}.

Definition set_genesis_path (v : option string) (s : t) : t :=
  Build (_config s) v (_agents s) (_connections s) (_ledger_url s) (_name s)
        (_opened s) (_pool s) (_proof_specs s) (_wallets s).

Definition set_agents (v : list AgentCfg.t) (s : t) : t :=
  Build (_config s) (_genesis_path s) v (_connections s) (_ledger_url s) (_name s)
        (_opened s) (_pool s) (_proof_specs s) (_wallets s).

Definition set_connections (v : list ConnectionCfg.t) (s : t) : t :=
  Build (_config s) (_genesis_path s) (_agents s) v (_ledger_url s) (_name s)
        (_opened s) (_pool s) (_proof_specs s) (_wallets s).

Definition set_opened (v : bool) (s : t) : t :=
  Build (_config s) (_genesis_path s) (_agents s) (_connections s) (_ledger_url s)
        (_name s) v (_pool s) (_proof_specs s) (_wallets s).

Definition set_pool (v : bool) (s : t) : t :=
  Build (_config s) (_genesis_path s) (_agents s) (_connections s) (_ledger_url s)
        (_name s) (_opened s) v (_proof_specs s) (_wallets s).

Definition set_proof_specs (v : list ProofSpecCfg.t) (s : t) : t :=
  Build (_config s) (_genesis_path s) (_agents s) (_connections s) (_ledger_url s)
        (_name s) (_opened s) (_pool s) v (_wallets s).

Definition set_wallets (v : list WalletCfg.t) (s : t) : t :=
  Build (_config s) (_genesis_path s) (_agents s) (_connections s) (_ledger_url s)
        (_name s) (_opened s) (_pool s) (_proof_specs s) v.

End IndyService.

(** [von_agent.util.schema_id] *)
Definition py_str (o : option string) : string := default "None" o.

Definition schema_id (origin_did : option string) (name : string)
    (version : option string) : string :=
  (py_str origin_did +:+ ":2:" +:+ name +:+ ":" +:+ py_str version)%string.

(** [str.splitlines()[0]] on ASCII text; nothing for the empty string. *)
Definition is_line_break (c : Ascii.ascii) : bool :=
  let n := Ascii.N_of_ascii c in
  ((10 <=? n) && (n <=? 13) || (28 <=? n) && (n <=? 30))%N.

Fixpoint until_line_break (s : string) : string :=
  match s with
  | "" => ""
  | String c s' => if is_line_break c then "" else String c (until_line_break s')
  end.

Definition first_line (data : string) : option string :=
  match data with
  | "" => None
  | _ => Some (until_line_break data)
  end.

(** Unpacking a pair, [a, b = x]. *)
Definition unpack2 (j : json) : result (json * json) :=
  match j with
  | JArr [a; b] => Ok (a, b)
  | JArr _ => Raise ValueError
  | JObj [(a, _); (b, _)] => Ok (JStr a, JStr b)
  | JObj _ => Raise ValueError
  | JStr s => match s with
              | String a (String b "") => Ok (JStr (String a ""), JStr (String b ""))
              | _ => Raise ValueError
              end
  | _ => Raise TypeError
  end.

(** The first entry of a catalogue with a given id: [d.get(id)]. *)
Fixpoint lookup_by {A} (id_of : A → string) (id : string) (l : list A) : option A :=
  match l with
  | [] => None
  | x :: rest => if String.eqb (id_of x) id then Some x else lookup_by id_of id rest
  end.

Section Service.

Context {W : Type} (E : Env W).

(** The service, the environment, and the calls made so far. *)
Record State := BuildState {
  svc : IndyService.t;
  world : W;
  trace : list call;
}.

(** A coroutine of the service: it ends with a value or an exception, and in
    both cases leaves the state it reached. *)
Definition M (A : Type) : Type := State → result A * State.

#[export] Instance M_ret : MRet M := λ A a st, (Ok a, st).

#[export] Instance M_bind : MBind M := λ A B k m st,
  match m st with
  | (Ok a, st') => k a st'
  | (Raise e, st') => (Raise e, st')
  end.

Definition raise {A} (e : exn) : M A := λ st, (Raise e, st).

Definition lift {A} (r : result A) : M A := λ st, (r, st).

(** [try: m except ...: h], where [h] picks the exceptions it handles. *)
Definition catch {A} (m : M A) (h : exn → option (M A)) : M A := λ st,
  match m st with
  | (Ok a, st') => (Ok a, st')
  | (Raise e, st') =>
      match h e with
      | Some k => k st'
      | None => (Raise e, st')
      end
  end.

Definition gets {A} (f : IndyService.t → A) : M A := λ st, (Ok (f (svc st)), st).

Definition modify (f : IndyService.t → IndyService.t) : M unit := λ st,
  (Ok (), BuildState (f (svc st)) (world st) (trace st)).

(** An outgoing call: the environment answers and moves on, the call is
    logged. *)
Definition ext (c : call) : M json := λ st,
  let '(r, w) := handle E c (world st) in
  (r, BuildState (svc st) w (trace st ++ [c])).

Definition nth_entry {A} (what : string) (f : IndyService.t → list A) (i : nat) : M A :=
  l ← gets f;
  match l !! i with
  | Some x => mret x
  | None => raise (KeyError what)
  end.

Definition nth_agent := nth_entry "agent" IndyService._agents.
Definition nth_wallet := nth_entry "wallet" IndyService._wallets.
Definition nth_connection := nth_entry "connection" IndyService._connections.
Definition nth_proof_spec := nth_entry "proof spec" IndyService._proof_specs.

Definition update_agent (i : nat) (f : AgentCfg.t → AgentCfg.t) : M unit :=
  modify (λ s, IndyService.set_agents (alter f i (IndyService._agents s)) s).

Definition update_wallet (i : nat) (f : WalletCfg.t → WalletCfg.t) : M unit :=
  modify (λ s, IndyService.set_wallets (alter f i (IndyService._wallets s)) s).

Definition update_connection (i : nat) (f : ConnectionCfg.t → ConnectionCfg.t) : M unit :=
  modify (λ s, IndyService.set_connections (alter f i (IndyService._connections s)) s).

Definition update_proof_spec (i : nat) (f : ProofSpecCfg.t → ProofSpecCfg.t) : M unit :=
  modify (λ s, IndyService.set_proof_specs (alter f i (IndyService._proof_specs s)) s).

Definition update_cred_type (i k : nat) (f : CredType.t → CredType.t) : M unit :=
  update_agent i (λ a, AgentCfg.set_cred_types (alter f k (AgentCfg.cred_types a)) a).

(** [for x in xs: body(x)] *)
Fixpoint for_each {A} (body : A → M unit) (xs : list A) : M unit :=
  match xs with
  | [] => mret ()
  | x :: rest => body x;; for_each body rest
  end.

(** [for x in xs: if not await body(x): synced = False] *)
Fixpoint sync_each (body : nat → M bool) (xs : list nat) (synced : bool) : M bool :=
  match xs with
  | [] => mret synced
  | x :: rest =>
      ok ← body x;
      sync_each body rest (if (ok : bool) then synced else false)
  end.

(** ** [service.py]: synchronisation *)

(** [IndyService._fetch_genesis_txn] *)
Definition _fetch_genesis_txn (ledger_url target_path : string) : M bool :=
  text ← catch (ext (HttpGetText (ledger_url +:+ "/genesis")))
               (λ e, match e with
                     | IndyConnectionError msg => Some (raise (ServiceSyncError msg))
                     | _ => None
                     end);
  match text with
  | JStr data =>
      match first_line data with
      | None => raise (ServiceSyncError "Genesis transaction file is not valid JSON")
      | Some line =>
          parsed ← lift (json_loads E line);
          if negb (truthy parsed)
          then raise (ServiceSyncError "Genesis transaction file is not valid JSON")
          else ext (WriteNew target_path data);; mret true
      end
  | _ => raise TypeError
  end.

(** [IndyService._check_genesis_path] *)
Definition _check_genesis_path : M unit :=
  genesis_path ← gets IndyService._genesis_path;
  if truthy_str genesis_path then mret ()
  else
    config ← gets IndyService._config;
    let path := default JNull (assoc "genesis_path" config) in
    if negb (truthy path) then raise (IndyConfigError "Missing genesis_path")
    else
      match path with
      | JStr path =>
          (exists_ ← ext (PathExists path);
           if negb (truthy exists_) then
             ledger_url ← gets IndyService._ledger_url;
             if negb (truthy_str ledger_url)
             then raise (IndyConfigError
                           "Cannot retrieve genesis transaction without ledger_url")
             else
               (parent ← ext (ParentExists path);
                if negb (truthy parent) then ext (ParentMkdir path);; mret ()
                else mret ());;
               _fetch_genesis_txn (default "" ledger_url) path;; mret ()
           else
             is_dir ← ext (PathIsDir path);
             if truthy is_dir
             then raise (IndyConfigError "genesis_path must not point to a directory")
             else mret ());;
          modify (IndyService.set_genesis_path (Some path))
      | _ => raise TypeError
      end.

(** [IndyService._setup_pool] *)
Definition _setup_pool : M unit :=
  opened ← gets IndyService._opened;
  if (opened : bool) then mret ()
  else
    _check_genesis_path;;
    name ← gets IndyService._name;
    genesis_path ← gets IndyService._genesis_path;
    modify (IndyService.set_pool true);;
    ext (PoolOpen name genesis_path);;
    modify (IndyService.set_opened true).

(** [WalletCfg.create]: the [Wallet] object is made, then its [create]
    awaited; the reply tells whether the object now reports [created]. *)
Definition WalletCfg_create (i : nat) : M unit :=
  wallet ← nth_wallet i;
  update_wallet i (WalletCfg.set_instance (Some false));;
  r ← ext (WalletCreate (WalletCfg.wallet_id wallet));
  update_wallet i (WalletCfg.set_instance (Some (truthy r))).

(** [AgentCfg.open]: [opened] keeps what the agent's [open] returned. *)
Definition AgentCfg_open (i : nat) : M unit :=
  agent ← nth_agent i;
  if AgentCfg.opened agent then mret ()
  else
    match AgentCfg._instance agent with
    | None => raise (AttributeError "open")
    | Some _ =>
        r ← ext (AgentOpen (AgentCfg.agent_id agent));
        update_agent i (AgentCfg.set_opened (truthy r));;
        if bool_decide (AgentCfg.agent_type agent = holder)
        then ext (CreateLinkSecret (AgentCfg.agent_id agent));; mret ()
        else mret ()
    end.

(** [AgentCfg.create] *)
Definition AgentCfg_create (i : nat) (wallet : WalletCfg.t) : M unit :=
  agent ← nth_agent i;
  (match AgentCfg._instance agent with
   | Some _ => mret ()
   | None =>
       update_agent i
         (AgentCfg.set_instance
            (Some {| inst_did := wallet_did E (WalletCfg.wallet_id wallet);
                     inst_verkey := wallet_verkey E (WalletCfg.wallet_id wallet) |}))
   end);;
  AgentCfg_open i.

(** [IndyService._check_registration] *)
Definition _check_registration (i : nat) (auto_register : json) (role : string)
    : M unit :=
  agent ← nth_agent i;
  let did := AgentCfg.did agent in
  nym_info ← ext (GetNym (AgentCfg.agent_id agent) did);
  if truthy nym_info then mret ()
  else if negb (truthy auto_register)
  then raise (ServiceSyncError
                "DID is not registered on the ledger and auto-registration disabled")
  else
    ledger_url ← gets IndyService._ledger_url;
    if negb (truthy_str ledger_url)
    then raise (IndyConfigError "Cannot register DID without ledger_url")
    else
      nym_info ←
        catch (ext (HttpPostJson (default "" ledger_url +:+ "/register")
                      (JObj [("did", json_of_option did);
                             ("verkey", json_of_option (AgentCfg.verkey agent));
                             ("role", JStr role)])))
              (λ e, match e with
                    | IndyConnectionError msg => Some (raise (ServiceSyncError msg))
                    | _ => None
                    end);
      if negb (truthy nym_info) then raise (ServiceSyncError "DID registration failed")
      else
        registered_did ← lift (jindex nym_info "did");
        if negb (truthy registered_did)
        then raise (ServiceSyncError "DID registration failed")
        else mret ().

Definition nth_cred_type (i k : nat) : M CredType.t :=
  agent ← nth_agent i;
  match AgentCfg.cred_types agent !! k with
  | Some cred_type => mret cred_type
  | None => raise IndexError
  end.

(** [IndyService._publish_schema], for the credential type [k] of the agent
    [i].  The opening guard of the source cannot fire on the dicts that
    [add_credential_type] builds.  The local variable [schema_json] is bound
    only inside the first [if]: it is [None] here when that block was
    skipped, and reading it then raises [UnboundLocalError]. *)
Definition _publish_schema (i k : nat) : M unit :=
  issuer ← nth_agent i;
  cred_type ← nth_cred_type i k;
  let definition := CredType.definition cred_type in
  let id := AgentCfg.agent_id issuer in
  let did := AgentCfg.did issuer in
  schema_json ←
    (if truthy (CredType.ledger_schema cred_type) then mret None
     else
       ledger_schema ←
         catch (ext (GetSchema id did (SchemaCfg.name definition)
                               (SchemaCfg.version definition)))
               (λ e, match e with
                     | AbsentSchema => Some (
                         attr_names ← lift (SchemaCfg.attr_names definition);
                         ledger_schema ←
                           ext (SendSchema id
                                  (JObj [("name", JStr (SchemaCfg.name definition));
                                         ("version",
                                          json_of_option (SchemaCfg.version definition));
                                         ("attr_names", JArr (JStr <$> attr_names))]));
                         if negb (truthy ledger_schema)
                         then raise (ServiceSyncError "Schema was not published to ledger")
                         else
                           seq_no ← lift (jget ledger_schema "seqNo");
                           if negb (truthy seq_no)
                           then raise (ServiceSyncError
                                         "Schema was not published to ledger")
                           else mret ledger_schema)
                     | _ => None
                     end);
       update_cred_type i k (CredType.set_ledger_schema ledger_schema);;
       mret (Some ledger_schema));
  cred_type ← nth_cred_type i k;
  if truthy (CredType.cred_def cred_type) then mret ()
  else
    cred_def ←
      catch (seq_no ← lift (jindex (CredType.ledger_schema cred_type) "seqNo");
             ext (GetCredDef id did seq_no))
            (λ e, match e with
                  | AbsentCredDef => Some (
                      match schema_json with
                      | None => raise (UnboundLocalError "schema_json")
                      | Some schema_json => ext (SendCredDef id schema_json)
                      end)
                  | _ => None
                  end);
    update_cred_type i k (CredType.set_cred_def cred_def).

(** [IndyService._sync_agent], for the agent at position [i] *)
Definition _sync_agent (i : nat) : M bool :=
  agent ← nth_agent i;
  if AgentCfg.synced agent then mret (AgentCfg.synced agent)
  else
    ready ←
      (if AgentCfg.created agent then mret true
       else
         wallets ← gets IndyService._wallets;
         match lookup_by WalletCfg.wallet_id (AgentCfg.wallet_id agent) wallets with
         | None => raise (KeyError (AgentCfg.wallet_id agent))
         | Some wallet =>
             if negb (WalletCfg.created wallet) then mret false
             else AgentCfg_create i wallet;; mret true
         end);
    if negb ready then mret false
    else
      AgentCfg_open i;;
      agent ← nth_agent i;
      (if AgentCfg.registered agent then mret ()
       else
         config ← gets IndyService._config;
         let auto_register := default (JBool true) (assoc "auto_register" config) in
         _check_registration i auto_register (AgentCfg.role agent);;
         update_agent i (AgentCfg.set_registered true));;
      agent ← nth_agent i;
      for_each (_publish_schema i) (seq 0 (length (AgentCfg.cred_types agent)));;
      update_agent i (AgentCfg.set_synced true);;
      agent ← nth_agent i;
      mret (AgentCfg.synced agent).

(** [AgentCfg.get_connection_params]; the schema object of a credential
    type is shown by its name and version. *)
Definition optional_entry (key : string) (params : list (string * json))
    : list (string * json) :=
  match assoc key params with
  | Some v => [(key, v)]
  | None => []
  end.

Definition type_spec (cred_type : CredType.t) : json :=
  let params := CredType.params cred_type in
  let schema := CredType.definition cred_type in
  JObj ([("schema", JObj [("name", JStr (SchemaCfg.name schema));
                          ("version", json_of_option (SchemaCfg.version schema))]);
         ("source_claim", default JNull (assoc "source_claim" params))]
        ++ optional_entry "description" params
        ++ optional_entry "issuer_url" params
        ++ optional_entry "mapping" params).

Definition get_connection_params (self : AgentCfg.t) : json :=
  if bool_decide (AgentCfg.agent_type self = issuer) then
    JObj [("abbreviation", json_of_option (AgentCfg.abbreviation self));
          ("credential_types", JArr (type_spec <$> AgentCfg.cred_types self));
          ("did", json_of_option (AgentCfg.did self));
          ("email", json_of_option (AgentCfg.email self));
          ("name", json_of_option (AgentCfg.name self));
          ("url", json_of_option (AgentCfg.url self))]
  else JNull.

(** [ConnectionCfg.create], [open] and [sync]: the connector object is made
    and driven through the environment. *)
Definition ConnectionCfg_create (c : nat) (agent_params : json) : M unit :=
  connection ← nth_connection c;
  ext (ConnectorNew (ConnectionCfg.connection_id connection) agent_params);;
  update_connection c (ConnectionCfg.set_instance true).

Definition ConnectionCfg_open (c : nat) : M unit :=
  connection ← nth_connection c;
  if ConnectionCfg.opened connection then mret ()
  else
    ext (ConnectorOpen (ConnectionCfg.connection_id connection));;
    update_connection c (ConnectionCfg.set_opened true).

Definition ConnectionCfg_sync (c : nat) : M unit :=
  connection ← nth_connection c;
  if ConnectionCfg.synced connection then mret ()
  else
    ext (ConnectorSync (ConnectionCfg.connection_id connection));;
    update_connection c (ConnectionCfg.set_synced true).

(** [IndyService._sync_connection], for the connection at position [c] *)
Definition _sync_connection (c : nat) : M bool :=
  connection ← nth_connection c;
  agents ← gets IndyService._agents;
  match lookup_by AgentCfg.agent_id (ConnectionCfg.agent_id connection) agents with
  | None => raise (KeyError (ConnectionCfg.agent_id connection))
  | Some agent =>
      if ConnectionCfg.synced connection then mret (ConnectionCfg.synced connection)
      else
        ready ←
          (if ConnectionCfg.created connection then mret true
           else if negb (AgentCfg.synced agent) then mret false
           else ConnectionCfg_create c (get_connection_params agent);; mret true);
        if negb ready then mret false
        else
          catch (connection ← nth_connection c;
                 (if ConnectionCfg.opened connection then mret ()
                  else ConnectionCfg_open c);;
                 ConnectionCfg_sync c)
                (λ e, match e with
                      | IndyConnectionError msg =>
                          Some (raise (ServiceSyncError
                                         ("Error syncing connection: " +:+ msg)))
                      | _ => None
                      end);;
          connection ← nth_connection c;
          mret (ConnectionCfg.synced connection)
  end.

(** The loop of [IndyService._resolve_schema] over the agents *)
Fixpoint resolve_in (agents : list AgentCfg.t) (schema_name : string)
    (schema_version origin_did : option string) : result ResolvedSchema :=
  match agents with
  | [] => Raise (IndyConfigError "Issuer schema not found")
  | agent :: rest =>
      if AgentCfg.synced agent then
        match AgentCfg.find_credential_type agent schema_name schema_version
                                            origin_did with
        | Some found =>
            let defn := CredType.definition found in
            let did := if truthy_str (SchemaCfg.origin_did defn)
                       then SchemaCfg.origin_did defn else AgentCfg.did agent in
            match SchemaCfg.attr_names defn with
            | Raise e => Raise e
            | Ok names =>
                Ok {| rs_agent_id := AgentCfg.agent_id agent;
                      rs_schema_id := schema_id did (SchemaCfg.name defn)
                                                (SchemaCfg.version defn);
                      rs_schema_name := SchemaCfg.name defn;
                      rs_schema_version := SchemaCfg.version defn;
                      rs_origin_did := did;
                      rs_attr_names := names |}
            end
        | None => resolve_in rest schema_name schema_version origin_did
        end
      else resolve_in rest schema_name schema_version origin_did
  end.

(** [IndyService._resolve_schema] *)
Definition _resolve_schema (schema_name : string)
    (schema_version origin_did : option string) : M ResolvedSchema :=
  agents ← gets IndyService._agents;
  lift (resolve_in agents schema_name schema_version origin_did).

(** [spec.populate_schema(cfg)] on the proof specification at position [p] *)
Definition populate_schema_at (p : nat) (cfg : SchemaCfg.t) : M unit :=
  spec ← nth_proof_spec p;
  let '(r, spec') := ProofSpecCfg.populate_schema spec cfg in
  update_proof_spec p (λ _, spec');;
  lift r.

(** The loop of [IndyService._sync_proof_spec] over the missing keys *)
Fixpoint resolve_missing (p : nat) (missing : list ProofSpecCfg.schema_key)
    (check : bool) : M bool :=
  match missing with
  | [] => mret check
  | s_key :: rest =>
      check ←
        catch (found ← _resolve_schema (ProofSpecCfg.key_name s_key)
                                       (ProofSpecCfg.key_version s_key)
                                       (ProofSpecCfg.key_did s_key);
               cfg ← lift (new_SchemaCfg (rs_schema_name found) (rs_schema_version found)
                             (AttrsSequence (AttrStr <$> rs_attr_names found))
                             (rs_origin_did found));
               populate_schema_at p cfg;;
               mret true)
              (λ e, if is_IndyConfigError e then Some (mret check) else None);
      resolve_missing p rest check
  end.

(** [IndyService._sync_proof_spec], for the specification at position [p] *)
Definition _sync_proof_spec (p : nat) : M bool :=
  spec ← nth_proof_spec p;
  let missing := ProofSpecCfg.get_incomplete_schemas spec in
  check ← resolve_missing p missing false;
  spec ← nth_proof_spec p;
  let missing := if (check : bool) then ProofSpecCfg.get_incomplete_schemas spec
                 else missing in
  update_proof_spec p (ProofSpecCfg.set_synced (bool_decide (missing = [])));;
  spec ← nth_proof_spec p;
  mret (ProofSpecCfg.synced spec).

(** The first loop of [_service_sync]: every wallet not yet created is
    created. *)
Definition create_wallet (i : nat) : M unit :=
  wallet ← nth_wallet i;
  if WalletCfg.created wallet then mret () else WalletCfg_create i.

Definition create_wallets : M unit :=
  wallets ← gets IndyService._wallets;
  for_each create_wallet (seq 0 (length wallets)).

(** [IndyService._service_sync] *)
Definition _service_sync : M bool :=
  _setup_pool;;
  create_wallets;;
  agents ← gets IndyService._agents;
  synced ← sync_each _sync_agent (seq 0 (length agents)) true;
  connections ← gets IndyService._connections;
  synced ← sync_each _sync_connection (seq 0 (length connections)) synced;
  proof_specs ← gets IndyService._proof_specs;
  synced ← sync_each _sync_proof_spec (seq 0 (length proof_specs)) synced;
  mret synced.

(** ** [service.py]: issuing credentials *)

(** [self._agents.get(id)], with the two checks that open the holder-side
    handlers *)
Definition synced_agent (who : string) (id : string) : M AgentCfg.t :=
  agents ← gets IndyService._agents;
  match lookup_by AgentCfg.agent_id id agents with
  | None => raise (IndyConfigError ("Unknown " +:+ who +:+ " id"))
  | Some agent =>
      if negb (AgentCfg.synced agent)
      then raise (IndyConfigError (who +:+ " is not yet synchronized"))
      else mret agent
  end.

(** Reaching through [agent.instance] fails on an agent never created. *)
Definition with_instance {A} (agent : AgentCfg.t) (method : string) (m : M A) : M A :=
  match AgentCfg._instance agent with
  | None => raise (AttributeError method)
  | Some _ => m
  end.

(** [IndyService._create_cred_offer] *)
Definition _create_cred_offer (issuer : AgentCfg.t) (cred_type : CredType.t)
    : M CredentialOffer :=
  let schema := CredType.definition cred_type in
  with_instance issuer "create_cred_offer" (
    seq_no ← lift (jindex (CredType.ledger_schema cred_type) "seqNo");
    cred_offer_json ← ext (CreateCredOffer (AgentCfg.agent_id issuer) seq_no);
    mret {| offer_schema_name := SchemaCfg.name schema;
            offer_schema_version := SchemaCfg.version schema;
            offer := cred_offer_json;
            offer_cred_def := CredType.cred_def cred_type |}).

(** [IndyService._create_cred] *)
Definition _create_cred (issuer : AgentCfg.t) (request : CredentialRequest)
    (cred_data : json) : M Credential :=
  let cred_offer := cred_offer request in
  with_instance issuer "create_cred" (
    reply ← ext (CreateCred (AgentCfg.agent_id issuer) (offer cred_offer)
                            (request_data request) cred_data);
    '(cred_json, cred_revoc_id) ← lift (unpack2 reply);
    mret {| cred_schema_name := offer_schema_name cred_offer;
            issuer_did := AgentCfg.did issuer;
            cred_data := cred_json;
            cred_cred_def := offer_cred_def cred_offer;
            cred_req_metadata := request_metadata request;
            cred_revoc_id := cred_revoc_id |}).

(** [IndyService._generate_credential_request] *)
Definition _generate_credential_request (holder_id : string)
    (cred_offer : CredentialOffer) : M CredentialRequest :=
  holder ← synced_agent "holder" holder_id;
  with_instance holder "create_cred_req" (
    reply ← ext (CreateCredReq holder_id (offer cred_offer) (offer_cred_def cred_offer));
    '(cred_req, req_metadata) ← lift (unpack2 reply);
    mret {| cred_offer := cred_offer;
            request_data := cred_req;
            request_metadata := req_metadata |}).

(** [IndyService._store_credential] *)
Definition _store_credential (holder_id : string) (credential : Credential)
    : M StoredCredential :=
  holder ← synced_agent "holder" holder_id;
  with_instance holder "store_cred" (
    cred_id ← ext (StoreCred holder_id (cred_data credential)
                             (cred_req_metadata credential));
    mret {| cred_id := cred_id;
            stored_cred := credential;
            stored_result := JObj [("attributes", cred_data credential)] |}).

(** [TobConnection.get_api_url] and [post_json] of [tob.py] *)
Fixpoint ends_with_slash (s : string) : bool :=
  match s with
  | "" => false
  | String c "" => (Ascii.N_of_ascii c =? 47)%N
  | String _ s' => ends_with_slash s'
  end.

Definition get_api_url (connection : ConnectionCfg.t) (path : string) : result string :=
  match assoc "api_url" (ConnectionCfg.connection_params connection) with
  | Some (JStr url) =>
      Ok ((if ends_with_slash url then url else url +:+ "/") +:+ path)%string
  | _ => Raise (AttributeError "endswith")
  end.

Definition post_json (connection : ConnectionCfg.t) (path : string) (data : json)
    : M json :=
  url ← lift (get_api_url connection path);
  ext (HttpPostJson url data).

(** [TobConnection.generate_credential_request] *)
Definition tob_generate_credential_request (connection : ConnectionCfg.t)
    (indy_offer : CredentialOffer) : M CredentialRequest :=
  response ← post_json connection "indy/generate-credential-request"
               (JObj [("credential_offer", offer indy_offer);
                      ("credential_definition", offer_cred_def indy_offer)]);
  result ← lift (jget response "result");
  success ← lift (jget response "success");
  if negb (truthy success)
  then raise (IndyConnectionError "Could not create credential request")
  else
    cred_req ← lift (jindex result "credential_request");
    metadata ← lift (jindex result "credential_request_metadata");
    mret {| cred_offer := indy_offer;
            request_data := cred_req;
            request_metadata := metadata |}.

(** [TobConnection.store_credential] *)
Definition tob_store_credential (connection : ConnectionCfg.t) (indy_cred : Credential)
    : M StoredCredential :=
  response ← post_json connection "indy/store-credential"
               (JObj [("credential_type", JStr (cred_schema_name indy_cred));
                      ("credential_data", cred_data indy_cred);
                      ("issuer_did", json_of_option (issuer_did indy_cred));
                      ("credential_definition", cred_cred_def indy_cred);
                      ("credential_request_metadata", cred_req_metadata indy_cred)]);
  result ← lift (jget response "result");
  success ← lift (jget response "success");
  if negb (truthy success)
  then raise (IndyConnectionError "Credential was not stored")
  else mret {| cred_id := JNull; stored_cred := indy_cred; stored_result := result |}.

(** Modelled from the spec: [HolderConnection] lives in [connection.py],
    which is not among the sources.  The spec has the holder side of a
    connection be either the remote connector or a local holder agent, to
    which the connection delegates the request and store steps; the local
    holder is the agent that the connector parameters name as
    [holder_id]. *)
Definition local_holder_id (connection : ConnectionCfg.t) : string :=
  match assoc "holder_id" (ConnectionCfg.connection_params connection) with
  | Some (JStr id) => id
  | _ => ""
  end.

(** [conn.instance.generate_credential_request(cred_offer)] *)
Definition generate_credential_request (connection : ConnectionCfg.t)
    (cred_offer : CredentialOffer) : M CredentialRequest :=
  match ConnectionCfg.connection_type connection with
  | TheOrgBook => tob_generate_credential_request connection cred_offer
  | holder_connection =>
      _generate_credential_request (local_holder_id connection) cred_offer
  end.

(** [conn.instance.store_credential(cred)] *)
Definition store_credential (connection : ConnectionCfg.t) (cred : Credential)
    : M StoredCredential :=
  match ConnectionCfg.connection_type connection with
  | TheOrgBook => tob_store_credential connection cred
  | holder_connection => _store_credential (local_holder_id connection) cred
  end.

(** Reaching through [conn.instance] fails on a connection never created. *)
Definition with_instance_of {A} (connection : ConnectionCfg.t) (m : M A) : M A :=
  if ConnectionCfg._instance connection then m
  else raise (AttributeError "instance").

(** The four steps of [_issue_credential], once the credential type is
    located: offer, request, credential, store. *)
Definition issue_steps (conn : ConnectionCfg.t) (issuer_cfg : AgentCfg.t)
    (cred_type : CredType.t) (cred_data : json) : M StoredCredential :=
  cred_offer ← _create_cred_offer issuer_cfg cred_type;
  cred_request ← with_instance_of conn (generate_credential_request conn cred_offer);
  cred ← _create_cred issuer_cfg cred_request cred_data;
  stored ← with_instance_of conn (store_credential conn cred);
  mret stored.

(** [IndyService._issue_credential] *)
Definition _issue_credential (connection_id schema_name : string)
    (schema_version origin_did : option string) (cred_data : json)
    : M StoredCredential :=
  connections ← gets IndyService._connections;
  match lookup_by ConnectionCfg.connection_id connection_id connections with
  | None => raise (IndyConfigError "Unknown connection id")
  | Some conn =>
      if negb (ConnectionCfg.synced conn)
      then raise (IndyConfigError "Connection is not yet synchronized")
      else
        agents ← gets IndyService._agents;
        match lookup_by AgentCfg.agent_id (ConnectionCfg.agent_id conn) agents with
        | None => raise (KeyError (ConnectionCfg.agent_id conn))
        | Some issuer_cfg =>
            if bool_decide (AgentCfg.agent_type issuer_cfg ≠ issuer)
            then raise (IndyConfigError "Cannot issue credential from non-issuer agent")
            else if negb (AgentCfg.synced issuer_cfg)
            then raise (IndyConfigError "Issuer is not yet synchronized")
            else
              match AgentCfg.find_credential_type issuer_cfg schema_name
                                                  schema_version origin_did with
              | None => raise (IndyConfigError "Could not locate credential type")
              | Some cred_type => issue_steps conn issuer_cfg cred_type cred_data
              end
        end
  end.

(** ** [service.py]: constructing a proof *)

(** The loop over [found_creds["attrs"].items()]: the names of the claims
    without a credential and of those with more than one. *)
Fixpoint scan_claims (items : list (string * json))
    : result (list string * list string) :=
  match items with
  | [] => Ok ([], [])
  | (claim_name, claim) :: rest =>
      n ← jlen claim;
      '(missing, too_many) ← scan_claims rest;
      Ok (if truthy claim then missing else claim_name :: missing,
          if (1 <? n)%nat then claim_name :: too_many else too_many)
  end.

(** The [requested_attributes] of the proof parameters:
    [claim[0]["cred_info"]["referent"]] for every claim. *)
Fixpoint requested_attributes (items : list (string * json))
    : result (list (string * json)) :=
  match items with
  | [] => Ok []
  | (claim_name, claim) :: rest =>
      first ← jfirst claim;
      cred_info ← jindex first "cred_info";
      referent ← jindex cred_info "referent";
      rest' ← requested_attributes rest;
      Ok ((claim_name, JObj [("revealed", JBool true); ("cred_id", referent)]) :: rest')
  end.

(** [IndyService._construct_proof], in three parts: fetching the
    credentials, checking them and building the parameters (no call is made
    there), and creating the proof. *)
Definition get_found_creds (holder_id : string) (proof_req : ProofRequest)
    (cred_ids : list string) : M json :=
  match cred_ids with
  | _ :: _ => ext (GetCredsById holder_id (request proof_req) cred_ids)
  | [] =>
      reply ← ext (GetCreds holder_id (request proof_req));
      '(_, found_creds) ← lift (unpack2 reply);
      mret found_creds
  end.

Definition request_params_for (found_creds : json) : result json :=
  attrs ← jindex found_creds "attrs";
  if negb (truthy attrs) then Raise (IndyError "No credentials found for proof")
  else
    items ← jitems attrs;
    '(missing, too_many) ← scan_claims items;
    if negb (bool_decide (missing = []))
    then Raise (IndyError "No credentials found for proof")
    else if negb (bool_decide (too_many = []))
    then Raise (IndyError "Too many credentials found for proof")
    else
      requested ← requested_attributes items;
      Ok (JObj [("self_attested_attributes", JObj []);
                ("requested_attributes", JObj requested);
                ("requested_predicates", JObj [])]).

Definition create_proof (holder_id : string) (proof_req : ProofRequest)
    (found_creds request_params : json) : M ConstructedProof :=
  proof ← ext (CreateProof holder_id (request proof_req) found_creds request_params);
  mret {| proof := proof |}.

Definition _construct_proof (holder_id : string) (proof_req : ProofRequest)
    (cred_ids : list string) : M ConstructedProof :=
  holder ← synced_agent "holder" holder_id;
  with_instance holder "get_creds" (
    found_creds ← get_found_creds holder_id proof_req cred_ids;
    request_params ← lift (request_params_for found_creds);
    create_proof holder_id proof_req found_creds request_params).

End Service.

(** ** [config.py]: removing a schema by name *)

(** [SchemaManager.remove_schema], given a name: the schema is looked up
    with [find] first, and what [find] returns is handed to [list.remove];
    when it returns [None], [list.remove(None)] raises [ValueError]. *)
Definition remove_schema_named (self : SchemaManager.t) (name : string)
    (version : option string) : result unit * SchemaManager.t :=
  match SchemaManager.find self name version with
  | Raise e => (Raise e, self)
  | Ok None => (Raise ValueError, self)
  | Ok (Some schema) => SchemaManager.remove_schema self schema
  end.

(** ** [config.py]: the constructors of the catalogue entries *)

(** [AgentType(agent_type)]: the member of the enumeration with that value;
    for a value that no member has, [Enum] raises [ValueError]. *)
Definition AgentType_of_value (v : string) : result AgentType :=
  if String.eqb v "issuer" then Ok issuer
  else if String.eqb v "holder" then Ok holder
  else if String.eqb v "verifier" then Ok verifier
  else Raise ValueError.

(** The keyword parameters that [AgentCfg.__init__] reads, each [None] when
    it is not given. *)
Record agent_params := {
  ap_id : option string;
  ap_abbreviation : option string;
  ap_email : option string;
  ap_endpoint : option string;
  ap_name : option string;
  ap_url : option string;
}.

(** [AgentCfg.__init__].  The [try] around the enum
    lookup handles [KeyError] only.  An id that is not given is [None]; the
    record keeps the empty string for it, which is as false, and
    [_add_agent], which tests its truth, replaces it. *)
Definition new_AgentCfg (agent_type wallet_id : string) (params : agent_params)
    : result AgentCfg.t :=
  match AgentType_of_value agent_type with
  | Raise (KeyError _) => Raise (IndyConfigError "Unsupported agent type")
  | Raise e => Raise e
  | Ok type =>
      Ok (AgentCfg.Build (default "" (ap_id params)) type [] None false false false
            wallet_id (ap_abbreviation params) (ap_email params) (ap_endpoint params)
            (ap_name params) (ap_url params))
  end.

(** The keyword parameters that [WalletCfg.__init__] reads. *)
Record wallet_params := {
  wp_id : option string;
  wp_name : option string;
  wp_seed : option string;
  wp_type : option string;
  wp_params : option (list (string * json));
  wp_access_creds : option (list (string * json));
}.

(** What a [WalletCfg] holds besides the fields of [WalletCfg.t], to hand
    it to the [Wallet] constructor. *)
Record wallet_settings := {
  ws_type : option string;
  ws_params : list (string * json);
  ws_access_creds : list (string * json);
}.

(** [x or d] on a dict that may be [None]. *)
Definition dict_or (x : option (list (string * json))) (d : list (string * json))
    : list (string * json) :=
  match x with
  | Some (item :: items) => item :: items
  | _ => d
  end.

(** [WalletCfg.__init__]; as for an agent, an id not given is kept as the
    empty string until [_add_wallet] replaces it. *)
Definition new_WalletCfg (params : wallet_params) : result (WalletCfg.t * wallet_settings) :=
  if negb (truthy_str (wp_name params)) then Raise (IndyConfigError "Missing wallet name")
  else if negb (truthy_str (wp_seed params))
  then Raise (IndyConfigError "Missing seed for wallet")
  else
    let seed := default "" (wp_seed params) in
    if negb (String.length seed =? 32)%nat
    then Raise (IndyConfigError "Wallet seed length is not 32 characters")
    else
      let settings := dict_or (wp_params params) [] in
      let settings :=
        match assoc "freshness_time" settings with
        | Some _ => settings
        | None => settings ++ [("freshness_time", JNum 0)]
        end in
      Ok (WalletCfg.Build (default "" (wp_id params)) (default "" (wp_name params))
                          seed None,
          {| ws_type := wp_type params;
             ws_params := settings;
             ws_access_creds := dict_or (wp_access_creds params) [("key", JStr "")] |}).

(** The keyword parameters that [ProofSpecCfg.__init__] reads. *)
Record proof_spec_params := {
  pp_id : option string;
  pp_version : option string;
  pp_schemas : option (list ProofSpecCfg.requirement);
}.

(** [ProofSpecCfg.__init__] *)
Definition new_ProofSpecCfg (params : proof_spec_params) : result ProofSpecCfg.t :=
  if negb (truthy_str (pp_version params))
  then Raise (IndyConfigError "Missing version for proof spec")
  else
    match pp_schemas params with
    | Some (schema :: schemas) =>
        let self := ProofSpecCfg.Build (default "" (pp_id params))
                      (default "" (pp_version params)) (schema :: schemas) false in
        Ok (ProofSpecCfg.set_synced
              (bool_decide (ProofSpecCfg.get_incomplete_schemas self = [])) self)
    | _ => Raise (IndyConfigError "Missing schemas for proof spec")
    end.

(** ** [service.py]: registering the catalogue entries *)

(** [_make_id(pfx)]: the prefix followed by twelve letters drawn at random;
    [draw] is the string that the draws make. *)
Definition _make_id (draw : string) (pfx : string) : string := (pfx +:+ draw)%string.

(** [id in d], for a catalogue keyed by the ids of its entries. *)
Definition registered_id {A} (id_of : A → string) (id : string) (l : list A) : bool :=
  bool_decide (is_Some (lookup_by id_of id l)).

(** The position of the first entry with a given id. *)
Fixpoint position_of {A} (id_of : A → string) (id : string) (l : list A) : option nat :=
  match l with
  | [] => None
  | x :: rest => if String.eqb (id_of x) id then Some 0 else S <$> position_of id_of id rest
  end.

Definition set_agent_id (v : string) (a : AgentCfg.t) : AgentCfg.t :=
  AgentCfg.Build v (AgentCfg.agent_type a) (AgentCfg.cred_types a) (AgentCfg._instance a)
    (AgentCfg.opened a) (AgentCfg.registered a) (AgentCfg.synced a) (AgentCfg.wallet_id a)
    (AgentCfg.abbreviation a) (AgentCfg.email a) (AgentCfg.endpoint a) (AgentCfg.name a)
    (AgentCfg.url a).

Definition set_wallet_id (v : string) (w : WalletCfg.t) : WalletCfg.t :=
  WalletCfg.Build v (WalletCfg.name w) (WalletCfg.seed w) (WalletCfg._instance w).

Definition set_spec_id (v : string) (p : ProofSpecCfg.t) : ProofSpecCfg.t :=
  ProofSpecCfg.Build v (ProofSpecCfg.version p) (ProofSpecCfg.schemas p)
    (ProofSpecCfg.synced p).

Section Registering.

Context {W : Type}.

(** [IndyService._add_wallet] *)
Definition _add_wallet (draw : string) (params : wallet_params) : @M W string :=
  '(cfg, _) ← lift (new_WalletCfg params);
  let cfg := if negb (truthy_str (wp_id params))
             then set_wallet_id (_make_id draw "wallet-") cfg else cfg in
  wallets ← gets IndyService._wallets;
  if registered_id WalletCfg.wallet_id (WalletCfg.wallet_id cfg) wallets
  then raise (IndyConfigError "Duplicate wallet ID")
  else
    modify (IndyService.set_wallets (wallets ++ [cfg]));;
    mret (WalletCfg.wallet_id cfg).

(** [IndyService._add_agent] *)
Definition _add_agent (draw : string) (agent_type wallet_id : string)
    (params : agent_params) : @M W string :=
  wallets ← gets IndyService._wallets;
  if negb (registered_id WalletCfg.wallet_id wallet_id wallets)
  then raise (IndyConfigError "Wallet ID not registered")
  else
    cfg ← lift (new_AgentCfg agent_type wallet_id params);
    let cfg := if negb (truthy_str (ap_id params))
               then set_agent_id (_make_id draw "agent-") cfg else cfg in
    agents ← gets IndyService._agents;
    if registered_id AgentCfg.agent_id (AgentCfg.agent_id cfg) agents
    then raise (IndyConfigError "Duplicate agent ID")
    else
      modify (IndyService.set_agents (agents ++ [cfg]));;
      mret (AgentCfg.agent_id cfg).

(** [IndyService._add_credential_type].  The agent is read with
    [self._agents[issuer_id]], which raises [KeyError] for an id that is not
    registered; the test [if not agent] that follows cannot fire, an
    [AgentCfg] object being true.  [config] is [config or {}]. *)
Definition _add_credential_type (issuer_id schema_name : string)
    (schema_version origin_did : option string) (attr_names : attrs_arg)
    (config : list (string * json)) : @M W unit :=
  agents ← gets IndyService._agents;
  match position_of AgentCfg.agent_id issuer_id agents with
  | None => raise (KeyError issuer_id)
  | Some i =>
      agent ← nth_agent i;
      schema ← lift (new_SchemaCfg schema_name schema_version attr_names origin_did);
      agent' ← lift (AgentCfg.add_credential_type agent schema config);
      update_agent i (λ _, agent')
  end.

(** [IndyService._add_proof_spec] *)
Definition _add_proof_spec (draw : string) (params : proof_spec_params) : @M W string :=
  cfg ← lift (new_ProofSpecCfg params);
  let cfg := if negb (truthy_str (pp_id params))
             then set_spec_id (_make_id draw "proof-") cfg else cfg in
  proof_specs ← gets IndyService._proof_specs;
  if registered_id ProofSpecCfg.spec_id (ProofSpecCfg.spec_id cfg) proof_specs
  then raise (IndyConfigError "Duplicate proof spec ID")
  else
    modify (IndyService.set_proof_specs (proof_specs ++ [cfg]));;
    mret (ProofSpecCfg.spec_id cfg).

End Registering.

(** ** [tob.py]: the issuer specification *)

(** [for x in v]: the elements of a list, the keys of a dict, the
    characters of a string. *)
Definition jiter (j : json) : result (list json) :=
  match j with
  | JArr l => Ok l
  | JObj items => Ok ((λ item, JStr item.1) <$> items)
  | JStr s => Ok ((λ c, JStr (String c "")) <$> String.list_ascii_of_string s)
  | _ => Raise TypeError
  end.

(** [schema.name], [schema.version]: the [schema] entry of a credential-type
    specification is the [SchemaCfg] object, which [type_spec] shows by its
    name and version; reading an attribute reads that entry. *)
Definition jattr (j : json) (attr : string) : result json :=
  match j with
  | JObj items =>
      match assoc attr items with
      | Some v => Ok v
      | None => Raise (AttributeError attr)
      end
  | _ => Raise (AttributeError attr)
  end.

(** [x or d] *)
Definition jor (x d : json) : json := if truthy x then x else d.

(** An entry that is set only when its value is true. *)
Definition entry_if_true (key : string) (v : json) : list (string * json) :=
  if truthy v then [(key, v)] else [].

(** The body of the loop of [assemble_issuer_spec], for one credential-type
    specification; [issuer_url] is [issuer_spec["issuer"]["url"]]. *)
Definition assemble_ctype (issuer_url type_spec : json) : result json :=
  schema ← jindex type_spec "schema";
  source_claim ← jget type_spec "source_claim";
  if negb (truthy source_claim)
  then Raise (IndyConfigError "Missing 'source_claim' for credential type")
  else
    description ← jget type_spec "description";
    name ← (if truthy description then Ok description else jattr schema "name");
    type_url ← jget type_spec "issuer_url";
    schema_name ← jattr schema "name";
    schema_version ← jattr schema "version";
    topic ← jindex type_spec "topic";
    mapping ← jget type_spec "mapping";
    cardinality_fields ← jget type_spec "cardinality_fields";
    Ok (JObj ([("name", name); ("endpoint", jor type_url issuer_url);
               ("schema", schema_name); ("version", schema_version); ("topic", topic)]
              ++ entry_if_true "mapping" mapping
              ++ entry_if_true "cardinality_fields" cardinality_fields)).

Fixpoint assemble_ctypes (issuer_url : json) (cred_type_specs : list json)
    : result (list json) :=
  match cred_type_specs with
  | [] => Ok []
  | type_spec :: rest =>
      ctype ← assemble_ctype issuer_url type_spec;
      ctypes ← assemble_ctypes issuer_url rest;
      Ok (ctype :: ctypes)
  end.

(** [assemble_issuer_spec] *)
Definition assemble_issuer_spec (config : json) : result json :=
  issuer_email ← jget config "email";
  if negb (truthy issuer_email) then Raise (IndyConfigError "Missing issuer email address")
  else
    issuer_did ← jget config "did";
    if negb (truthy issuer_did) then Raise (IndyConfigError "Missing issuer DID")
    else
      name ← jget config "name";
      abbreviation ← jget config "abbreviation";
      url ← jget config "url";
      let issuer := JObj [("did", issuer_did); ("name", jor name (JStr ""));
                          ("abbreviation", jor abbreviation (JStr ""));
                          ("email", issuer_email); ("url", jor url (JStr ""))] in
      if negb (truthy (jor name (JStr ""))) then Raise (IndyConfigError "Missing issuer name")
      else
        cred_type_specs ← jget config "credential_types";
        if negb (truthy cred_type_specs)
        then Raise (IndyConfigError "Missing credential_types")
        else
          specs ← jiter cred_type_specs;
          ctypes ← assemble_ctypes (jor url (JStr "")) specs;
          Ok (JObj [("issuer", issuer); ("credential_types", JArr ctypes)]).

Section Tob.

Context {W : Type} (E : Env W).

(** [TobConnection.sync]; [agent_params] is what the connection was created
    with. *)
Definition tob_sync (connection : ConnectionCfg.t) (agent_params : json) : M unit :=
  if bool_decide (ConnectionCfg.agent_type connection = issuer) then
    spec ← lift (assemble_issuer_spec agent_params);
    response ← post_json E connection "indy/register-issuer" spec;
    result ← lift (jget response "result");
    success ← lift (jget response "success");
    if negb (truthy success)
    then raise (IndyConnectionError "Issuer service was not registered")
    else mret ()
  else mret ().

End Tob.

(** ** Vocabulary of the properties *)

(** A credential type is published when it does not lack both its ledger
    schema and its credential definition. *)
Definition published (ct : CredType.t) : bool :=
  truthy (CredType.ledger_schema ct) || truthy (CredType.cred_def ct).

(** A relation between the service before and after, kept by a coroutine
    whatever the environment answers and however the coroutine ends. *)
Definition keeps {W A} (R : relation IndyService.t) (m : @M W A) : Prop :=
  ∀ st, R (svc st) (svc (m st).2).

(** An observation of the service that does not change. *)
Definition same {X} (obs : IndyService.t → X) : relation IndyService.t :=
  λ s s', obs s' = obs s.

(** Only the entry at position [i] of a catalogue may differ. *)
Definition others_at {A} (cat : IndyService.t → list A) (i : nat)
    : relation IndyService.t := λ s s',
  length (cat s') = length (cat s) ∧ ∀ j, j ≠ i → cat s' !! j = cat s !! j.

(** The entries of a catalogue from position [k] on are the same. *)
Definition from_on {A} (cat : IndyService.t → list A) (k : nat)
    : relation IndyService.t := λ s s',
  length (cat s') = length (cat s) ∧ ∀ j, (k ≤ j)%nat → cat s' !! j = cat s !! j.

(** Everything but the catalogue of agents, of connections, of proof
    specifications. *)
Definition beside_agents (s : IndyService.t) :=
  (IndyService._config s, IndyService._genesis_path s, IndyService._connections s,
   IndyService._ledger_url s, IndyService._name s, IndyService._opened s,
   IndyService._pool s, IndyService._proof_specs s, IndyService._wallets s).

Definition beside_connections (s : IndyService.t) :=
  (IndyService._config s, IndyService._genesis_path s, IndyService._agents s,
   IndyService._ledger_url s, IndyService._name s, IndyService._opened s,
   IndyService._pool s, IndyService._proof_specs s, IndyService._wallets s).

Definition beside_proof_specs (s : IndyService.t) :=
  (IndyService._config s, IndyService._genesis_path s, IndyService._agents s,
   IndyService._connections s, IndyService._ledger_url s, IndyService._name s,
   IndyService._opened s, IndyService._pool s, IndyService._wallets s).

(** Only the agent, the connection, the proof specification at position
    [i] may differ. *)
Definition frame_agent (i : nat) : relation IndyService.t := λ s s',
  beside_agents s' = beside_agents s ∧ others_at IndyService._agents i s s'.

Definition frame_connection (i : nat) : relation IndyService.t := λ s s',
  beside_connections s' = beside_connections s
  ∧ others_at IndyService._connections i s s'.

Definition frame_proof_spec (i : nat) : relation IndyService.t := λ s s',
  beside_proof_specs s' = beside_proof_specs s
  ∧ others_at IndyService._proof_specs i s s'.

(** The three catalogues swept after the wallets. *)
Definition catalogues (s : IndyService.t) :=
  (IndyService._agents s, IndyService._connections s, IndyService._proof_specs s).

(** A position in the sweep of [_service_sync]: the agents in order, then
    the connections, then the proof specifications. *)
Inductive position :=
  | AtAgent (k : nat)
  | AtConnection (c : nat)
  | AtProofSpec (p : nat).

Definition in_range (pos : position) (s : IndyService.t) : Prop :=
  match pos with
  | AtAgent k => k < length (IndyService._agents s)
  | AtConnection c => c < length (IndyService._connections s)
  | AtProofSpec p => p < length (IndyService._proof_specs s)
  end.

(** The sync of the entity at a position. *)
Definition sync_at {W} (E : Env W) (pos : position) : M bool :=
  match pos with
  | AtAgent k => _sync_agent E k
  | AtConnection c => _sync_connection E c
  | AtProofSpec p => _sync_proof_spec p
  end.

(** [_service_sync] up to the entity at a position, that entity left
    out. *)
Definition pass_until {W} (E : Env W) (pos : position) : M bool :=
  _setup_pool E;;
  create_wallets E;;
  match pos with
  | AtAgent k => sync_each (_sync_agent E) (seq 0 k) true
  | AtConnection c =>
      agents ← gets IndyService._agents;
      synced ← sync_each (_sync_agent E) (seq 0 (length agents)) true;
      sync_each (_sync_connection E) (seq 0 c) synced
  | AtProofSpec p =>
      agents ← gets IndyService._agents;
      synced ← sync_each (_sync_agent E) (seq 0 (length agents)) true;
      connections ← gets IndyService._connections;
      synced ← sync_each (_sync_connection E) (seq 0 (length connections)) synced;
      sync_each _sync_proof_spec (seq 0 p) synced
  end.

(** What the sync of the entity at a position may change: that entity. *)
Definition only_at (pos : position) : relation IndyService.t :=
  match pos with
  | AtAgent k => frame_agent k
  | AtConnection c => frame_connection c
  | AtProofSpec p => frame_proof_spec p
  end.

(** The entities that the sweep reaches after a position are the same. *)
Definition later_untouched (pos : position) : relation IndyService.t := λ s s',
  match pos with
  | AtAgent k =>
      (∀ j, k < j → IndyService._agents s' !! j = IndyService._agents s !! j)
      ∧ IndyService._connections s' = IndyService._connections s
      ∧ IndyService._proof_specs s' = IndyService._proof_specs s
  | AtConnection c =>
      (∀ j, c < j → IndyService._connections s' !! j = IndyService._connections s !! j)
      ∧ IndyService._proof_specs s' = IndyService._proof_specs s
  | AtProofSpec p =>
      ∀ j, p < j → IndyService._proof_specs s' !! j = IndyService._proof_specs s !! j
  end.

(** The credential type [k] of the agent [i], if any. *)
Definition cred_type_at (i k : nat) (s : IndyService.t) : option CredType.t :=
  IndyService._agents s !! i ≫= λ a, AgentCfg.cred_types a !! k.

(** The [synced] flag of the agent at position [i], if any. *)
Definition synced_at (i : nat) (s : IndyService.t) : option bool :=
  AgentCfg.synced <$> IndyService._agents s !! i.

(** How many credential types the agent at position [i] has. *)
Definition cred_type_count (i : nat) (s : IndyService.t) : option nat :=
  (λ a, length (AgentCfg.cred_types a)) <$> IndyService._agents s !! i.

(** A reply that does not carry a sequence number: empty, or a dict whose
    [seqNo] is missing or false. *)
Definition lacks_seq_no (reply : json) : Prop :=
  truthy reply = false
  ∨ ∃ items, reply = JObj items ∧ truthy (default JNull (assoc "seqNo" items)) = false.

(** A credential type has both fields recorded; it is in order when its
    credential definition is not recorded before its ledger schema, as is
    the case when neither is. *)
Definition fully_published (ct : CredType.t) : Prop :=
  truthy (CredType.ledger_schema ct) = true ∧ truthy (CredType.cred_def ct) = true.

Definition schema_before_definition (ct : CredType.t) : Prop :=
  truthy (CredType.cred_def ct) = true → truthy (CredType.ledger_schema ct) = true.

(** The environment never hands out an empty credential definition. *)
Definition definitions_nonempty {W} (E : Env W) : Prop :=
  ∀ c w reply w',
    handle E c w = (Ok reply, w') →
    match c with
    | GetCredDef _ _ _ | SendCredDef _ _ => truthy reply = true
    | _ => True
    end.

(** The [synced] flag and the credential types of the agent at position
    [i]. *)
Definition agent_view (i : nat) (s : IndyService.t)
    : option (bool * list CredType.t) :=
  (λ a, (AgentCfg.synced a, AgentCfg.cred_types a)) <$> IndyService._agents s !! i.

(** The credential type [k] of the agent [i] exists and is published. *)
Definition published_at (i k : nat) (s : IndyService.t) : Prop :=
  ∃ ct, cred_type_at i k s = Some ct ∧ published ct = true.

Definition in_order_at (i k : nat) (s : IndyService.t) : Prop :=
  ∃ ct, cred_type_at i k s = Some ct ∧ schema_before_definition ct.

Definition fully_at (i k : nat) (s : IndyService.t) : Prop :=
  ∃ ct, cred_type_at i k s = Some ct ∧ fully_published ct.

(** The credentials found for a proof request, as the holder's wallet
    reports them: for every requested attribute, the list of the matching
    credentials.  [found_attrs] is the [attrs] entry they make. *)
Definition found_attrs (claims : list (string * list json)) : json :=
  JObj ((λ '(claim_name, creds), (claim_name, JArr creds)) <$> claims).

(** A credential as the wallet reports it carries its id at
    [cred["cred_info"]["referent"]]. *)
Definition has_referent (cred : json) : Prop :=
  ∃ cred_info referent,
    jindex cred "cred_info" = Ok cred_info ∧ jindex cred_info "referent" = Ok referent.

Definition one_match_each (claims : list (string * list json)) : Prop :=
  Forall (λ claim, length claim.2 = 1) claims.

Definition some_without_match (claims : list (string * list json)) : Prop :=
  Exists (λ claim, length claim.2 = 0) claims.

(** The flattened view of a stored credential, when there is one. *)
Definition view_of (r : result StoredCredential) : option json :=
  match r with
  | Ok stored => Some (stored_result stored)
  | Raise _ => None
  end.

(** The name under which an entry of a mapping of attributes is stored: a
    string value is itself the name, any other value is named by its key. *)
Definition name_given (item : string * attr_arg) : string :=
  match item.2 with
  | AttrStr s => s
  | _ => item.1
  end.

(** What [find] tells schemas apart by: name and version. *)
Definition stored_key (s : SchemaCfg.t) : string * option string :=
  (SchemaCfg.name s, SchemaCfg.version s).

(** No two stored schemas have the same name and version. *)
Definition distinct_keys (self : SchemaManager.t) : Prop :=
  NoDup (stored_key <$> self).

(** The key of a schema requirement matches a schema: the test that
    [populate_schema] makes. *)
Definition key_matches (found_schema : SchemaCfg.t) (s_key : ProofSpecCfg.schema_key)
    : bool :=
  SchemaCfg.compare
    (SchemaCfg.Build (ProofSpecCfg.key_name s_key) (ProofSpecCfg.key_version s_key) []
                     (ProofSpecCfg.key_did s_key))
    found_schema.

(** The credential type that [add_credential_type] appends. *)
Definition new_cred_type (schema : SchemaCfg.t) (params : list (string * json))
    : CredType.t :=
  CredType.Build schema JNull JNull params.

(** From the state [st], the coroutine adds to the log only calls that
    satisfy [P], however it ends; [logs] says so from every state. *)
Definition logs_from {W A} (st : @State W) (P : call → Prop) (m : @M W A) : Prop :=
  ∃ new, trace (m st).2 = trace st ++ new ∧ Forall P new.

Definition logs {W A} (P : call → Prop) (m : @M W A) : Prop :=
  ∀ st, logs_from st P m.

(** A genesis file is written only with data whose first line [json.loads]
    turns into a true value. *)
Definition valid_write {W} (E : Env W) (c : call) : Prop :=
  match c with
  | WriteNew _ data =>
      ∃ line parsed,
        first_line data = Some line ∧ json_loads E line = Ok parsed
        ∧ truthy parsed = true
  | _ => True
  end.

Definition is_post (c : call) : bool :=
  match c with HttpPostJson _ _ => true | _ => false end.

(** An agent can answer for a schema: it is synced and one of its
    credential types matches the name, version and origin DID. *)
Definition answers_for (name : string) (version origin_did : option string)
    (agent : AgentCfg.t) : Prop :=
  AgentCfg.synced agent = true
  ∧ is_Some (AgentCfg.find_credential_type agent name version origin_did).

#[export] Instance answers_for_dec name version origin_did agent :
  Decision (answers_for name version origin_did agent).
Proof. unfold answers_for. apply _. Defined.

(** Every agent, every connection and every proof specification is
    synced. *)
Definition all_synced (s : IndyService.t) : bool :=
  forallb AgentCfg.synced (IndyService._agents s)
  && forallb ConnectionCfg.synced (IndyService._connections s)
  && forallb ProofSpecCfg.synced (IndyService._proof_specs s).

(** The [synced] flag of the connection at a position, if any. *)
Definition connection_synced_at (c : nat) (s : IndyService.t) : option bool :=
  ConnectionCfg.synced <$> IndyService._connections s !! c.

(** There is nothing left for a pass to do: the pool is open, every wallet
    is created, every agent and every connection is synced, the agent of
    every connection is registered, and every proof specification is synced
    with all its schemas resolved. *)
Definition converged (s : IndyService.t) : Prop :=
  IndyService._opened s = true
  ∧ Forall (λ w, WalletCfg.created w = true) (IndyService._wallets s)
  ∧ Forall (λ a, AgentCfg.synced a = true) (IndyService._agents s)
  ∧ Forall (λ c, ConnectionCfg.synced c = true
                 ∧ is_Some (lookup_by AgentCfg.agent_id (ConnectionCfg.agent_id c)
                                      (IndyService._agents s)))
           (IndyService._connections s)
  ∧ Forall (λ p, ProofSpecCfg.synced p = true
                 ∧ ProofSpecCfg.get_incomplete_schemas p = [])
           (IndyService._proof_specs s).

(** A look-up or a submission of a schema on the ledger. *)
Definition is_schema_call (c : call) : bool :=
  match c with
  | GetSchema _ _ _ _ | SendSchema _ _ => true
  | _ => false
  end.

(** The only connector that syncing a connection may make: the one of that
    connection, not yet created, with the parameters of its agent, which is
    synced. *)
Definition connector_for (conn : ConnectionCfg.t) (agent : AgentCfg.t) (c : call) : Prop :=
  ∀ id params, c = ConnectorNew id params →
    AgentCfg.synced agent = true
    ∧ ConnectionCfg.created conn = false
    ∧ id = ConnectionCfg.connection_id conn
    ∧ params = get_connection_params agent.

(** A proof is created only for the holder and the request given, with
    parameters that the found credentials passed the checks for. *)
Definition checked_proof (holder_id : string) (proof_req : ProofRequest) (c : call)
    : Prop :=
  ∀ id req found_creds params, c = CreateProof id req found_creds params →
    id = holder_id ∧ req = request proof_req
    ∧ request_params_for found_creds = Ok params.

(** What the constructor of a wallet configuration checks. *)
Definition valid_wallet (w : WalletCfg.t) : Prop :=
  WalletCfg.name w ≠ "" ∧ String.length (WalletCfg.seed w) = 32%nat.

(** The id under which an entry is registered: the one given, or else the
    prefix with the letters drawn. *)
Definition id_for (given : option string) (draw pfx : string) : string :=
  if truthy_str given then default "" given else _make_id draw pfx.

(** The state after a registration: an entry appended to one catalogue,
    the environment and the log as they were. *)
Definition with_service {W} (s : IndyService.t) (st : @State W) : @State W :=
  BuildState s (world st) (trace st).

(** The only request that syncing a connection to TheOrgBook may post: the
    assembled issuer specification of an issuer, to the registration path
    under the API address. *)
Definition issuer_registration (connection : ConnectionCfg.t) (agent_params : json)
    (c : call) : Prop :=
  match c with
  | HttpPostJson url body =>
      ConnectionCfg.agent_type connection = issuer
      ∧ assemble_issuer_spec agent_params = Ok body
      ∧ get_api_url connection "indy/register-issuer" = Ok url
  | _ => False
  end.

(** ** Concrete stores used below *)

Definition schema_v (name version : string) : SchemaCfg.t :=
  SchemaCfg.Build name (Some version) [] None.

Definition dict_v (name : string) (version : option string) : schema_arg :=
  ArgMapping {| d_name := Some name; d_version := version; d_attributes := AttrsFalse |}.

(** Four schemas, three of them named [degree]. *)
Definition store_numeric : SchemaManager.t :=
  [schema_v "degree" "1.9"; schema_v "licence" "2.0";
   schema_v "degree" "1.10"; schema_v "degree" "1.2"].

(** Two pre-release versions of one schema, an integer against a word in
    the last component. *)
Definition store_prerelease : SchemaManager.t :=
  [schema_v "degree" "1.0.0-alpha.1"; schema_v "degree" "1.0.0-alpha.beta"].

(** A schema registered without a version, then again with one. *)
Definition store_versionless : SchemaManager.t :=
  [SchemaCfg.Build "degree" None [] None; schema_v "degree" "1.0"].

(** ** A concrete environment and concrete services used below *)

(** The credential that the stub issuer signs: every raw value is wrapped
    with its encoding, as Indy credentials carry them. *)
Definition signed_values (cred_data : json) : json :=
  match cred_data with
  | JObj items =>
      JObj ((λ '(k, v), (k, JObj [("raw", v); ("encoded", v)])) <$> items)
  | _ => JObj []
  end.

(** What a stub ledger, agent library and file system answer.  Nothing is
    published on this ledger.  The agent ["unregistered"] has no DID on it;
    for ["issuer-noseq"] a submitted schema comes back without a sequence
    number; the wallet of ["holder-empty"] holds nothing for a proof
    request, the other wallets hold one credential for the attribute
    [name]. *)
Definition stub_reply (c : call) : result json :=
  match c with
  | PathExists _ => Ok (JBool true)
  | PathIsDir _ => Ok (JBool false)
  | GetNym agent_id _ =>
      if String.eqb agent_id "unregistered" then Ok JNull
      else Ok (JObj [("dest", JStr agent_id)])
  | GetSchema _ _ _ _ => Raise AbsentSchema
  | SendSchema agent_id schema =>
      if String.eqb agent_id "issuer-noseq"
      then Ok (JObj [("id", JStr "schema-7"); ("data", schema)])
      else Ok (JObj [("seqNo", JNum 7); ("id", JStr "schema-7"); ("data", schema)])
  | GetCredDef _ _ _ => Raise AbsentCredDef
  | SendCredDef _ _ => Ok (JObj [("id", JStr "creddef-7")])
  | CreateCredOffer _ seq_no => Ok (JObj [("schema_seq_no", seq_no)])
  | CreateCredReq agent_id _ _ =>
      Ok (JArr [JObj [("prover", JStr agent_id)]; JObj [("nonce", JStr "1")]])
  | CreateCred _ _ _ cred_data =>
      Ok (JArr [JObj [("schema_id", JStr "schema-7");
                      ("values", signed_values cred_data)];
                JNull])
  | StoreCred _ _ _ => Ok (JStr "cred-1")
  | GetCreds agent_id _ =>
      if String.eqb agent_id "holder-empty"
      then Ok (JArr [JArr []; JObj [("attrs", JObj []); ("predicates", JObj [])]])
      else Ok (JArr [JArr [JStr "cred-1"];
                     JObj [("attrs",
                            JObj [("name_uuid",
                                   JArr [JObj [("cred_info",
                                                JObj [("referent", JStr "cred-1")])]])]);
                           ("predicates", JObj [])]])
  | CreateProof _ _ _ params => Ok (JObj [("proof", params)])
  | _ => Ok (JBool true)
  end.

Definition stub : Env unit := {|
  handle := λ c _, (stub_reply c, ());
  wallet_did := λ id, ("did:" +:+ id)%string;
  wallet_verkey := λ id, ("key:" +:+ id)%string;
  json_loads := λ _, Raise ValueError;
|}.

Definition new_agent (id : string) (type : AgentType) : AgentCfg.t :=
  AgentCfg.Build id type [] None false false false "wallet-1" None None None None None.

Definition synced_agent_cfg (id : string) (type : AgentType)
    (cred_types : list CredType.t) : AgentCfg.t :=
  AgentCfg.Build id type cred_types
    (Some {| inst_did := "did:wallet-1"; inst_verkey := "key:wallet-1" |})
    true true true "wallet-1" None None None None None.

Definition degree : SchemaCfg.t :=
  SchemaCfg.Build "degree" (Some "1.0") [{["name" := "name"]}; {["name" := "year"]}] None.

(** A service after [add_wallet], [add_agent] and [add_credential_type],
    with its pool open and its wallet created. *)
Definition service_of (config : list (string * json)) (agents : list AgentCfg.t)
    (connections : list ConnectionCfg.t) : IndyService.t :=
  IndyService.Build config (Some "genesis") agents connections (Some "http://ledger")
    "indy" true true []
    [WalletCfg.Build "wallet-1" "w" "00000000000000000000000000000000" (Some true)].

Definition start (s : IndyService.t) : @State unit := BuildState s () [].

(** An agent whose DID is not on the ledger, with auto-registration off,
    and after it a holder that depends on nothing but the wallet. *)
Definition two_agents : @State unit :=
  start (service_of [("auto_register", JBool false)]
           [new_agent "unregistered" issuer; new_agent "holder-1" holder] []).

(** An issuer that publishes without trouble. *)
Definition good_issuer : @State unit :=
  start (service_of []
           [AgentCfg.set_cred_types [CredType.Build degree JNull JNull []]
              (new_agent "issuer-1" issuer)] []).

(** A synced issuer with the credential type [degree 1.0] published, a
    synced holder, and a synced connection from the issuer to that local
    holder. *)
Definition published_degree : CredType.t :=
  CredType.Build degree (JObj [("seqNo", JNum 7)]) (JObj [("id", JStr "creddef-7")]) [].

Definition holder_conn : ConnectionCfg.t :=
  ConnectionCfg.Build "conn-1" "issuer-1" issuer holder_connection true
    [("holder_id", JStr "holder-1")] true true.

Definition issuing : @State unit :=
  start (service_of []
           [synced_agent_cfg "issuer-1" issuer [published_degree];
            synced_agent_cfg "holder-1" holder [];
            synced_agent_cfg "holder-empty" holder []]
           [holder_conn]).

Definition alice : json := JObj [("name", JStr "Alice"); ("year", JStr "2020")].

(** A ledger that is slow at first: while the flag is up, the submission
    of a credential definition times out, and lowers the flag; everything
    else is as on the stub. *)
Definition flaky : Env bool := {|
  handle := λ c (slow : bool),
    match c with
    | SendCredDef _ _ =>
        if slow then (Raise (ExternalError "timed out"), false)
        else (stub_reply c, false)
    | _ => (stub_reply c, slow)
    end;
  wallet_did := λ id, ("did:" +:+ id)%string;
  wallet_verkey := λ id, ("key:" +:+ id)%string;
  json_loads := λ _, Raise ValueError;
|}.

(** An agent created, opened and registered, about to publish. *)
Definition ready_agent (id : string) (cred_types : list CredType.t) : AgentCfg.t :=
  AgentCfg.Build id issuer cred_types
    (Some {| inst_did := "did:wallet-1"; inst_verkey := "key:wallet-1" |})
    true true false "wallet-1" None None None None None.

Definition degree_json : json :=
  JObj [("name", JStr "degree"); ("version", JStr "1.0");
        ("attr_names", JArr [JStr "name"; JStr "year"])].

Definition degree_on_ledger : json :=
  JObj [("seqNo", JNum 7); ("id", JStr "schema-7"); ("data", degree_json)].

(** The pass that is interrupted: the issuer starts unpublished on the slow
    ledger. *)
Definition interrupted_0 : @State bool :=
  BuildState (service_of [] [ready_agent "issuer-1" [CredType.Build degree JNull JNull []]] [])
             true [].

(** What the interrupted pass leaves behind, and what the next one does. *)
Definition interrupted_1 : @State bool := (_sync_agent flaky 0 interrupted_0).2.
Definition interrupted_2 : @State bool := (_sync_agent flaky 0 interrupted_1).2.

Definition noseq_ready : @State unit :=
  start (service_of [] [ready_agent "issuer-noseq" [CredType.Build degree JNull JNull []]] []).

Definition good_issuer_synced : AgentCfg.t :=
  AgentCfg.Build "issuer-1" issuer
    [CredType.Build degree degree_on_ledger (JObj [("id", JStr "creddef-7")]) []]
    (Some {| inst_did := "did:wallet-1"; inst_verkey := "key:wallet-1" |})
    true true true "wallet-1" None None None None None.

Definition unregistered_error : exn :=
  ServiceSyncError "DID is not registered on the ledger and auto-registration disabled".

Definition two_agents_stopped : @State unit := (_sync_agent stub 0 two_agents).2.

(** A proof request for the attribute [name], one that requests nothing,
    and what the stub wallets report for them. *)
Definition name_request : ProofRequest :=
  {| request := JObj [("name", JStr "spec-1"); ("nonce", JStr "10000000001");
                      ("version", JStr "1.0");
                      ("requested_attributes",
                       JObj [("name_uuid", JObj [("name", JStr "name")])]);
                      ("requested_predicates", JObj [])] |}.

Definition empty_request : ProofRequest :=
  {| request := JObj [("name", JStr "spec-0"); ("nonce", JStr "10000000002");
                      ("version", JStr "1.0");
                      ("requested_attributes", JObj []);
                      ("requested_predicates", JObj [])] |}.

Definition one_credential : list (string * list json) :=
  [("name_uuid", [JObj [("cred_info", JObj [("referent", JStr "cred-1")])]])].

Definition found_for (claims : list (string * list json)) : json :=
  JObj [("attrs", found_attrs claims); ("predicates", JObj [])].

(** A proof specification over two schemas, the first of them asked for
    twice, and the schema [degree 1.0] as an issuer resolved it. *)
Definition degree_key : ProofSpecCfg.schema_key :=
  ProofSpecCfg.BuildKey "degree" (Some "1.0") None.

Definition licence_key : ProofSpecCfg.schema_key :=
  ProofSpecCfg.BuildKey "licence" None None.

Definition open_spec : ProofSpecCfg.t :=
  ProofSpecCfg.Build "spec-1" "1.0"
    [ProofSpecCfg.BuildReq degree_key None None;
     ProofSpecCfg.BuildReq licence_key None (Some ["number"]);
     ProofSpecCfg.BuildReq degree_key None (Some ["year"])]
    false.

Definition degree_resolved : SchemaCfg.t :=
  SchemaCfg.Build "degree" (Some "1.0") [{["name" := "name"]}; {["name" := "year"]}]
                  (Some "did:wallet-1").

(** The service of [issuing] with the proof specification [open_spec]
    registered. *)
Definition proving : @State unit :=
  start (IndyService.set_proof_specs [open_spec] (svc issuing)).

(** Parameters of a wallet, of an issuer and of a proof specification, and
    a service with nothing registered. *)
Definition wallet_1 : wallet_params :=
  {| wp_id := Some "wallet-1"; wp_name := Some "w";
     wp_seed := Some "00000000000000000000000000000000"; wp_type := None;
     wp_params := None; wp_access_creds := None |}.

Definition issuer_1 : agent_params :=
  {| ap_id := None; ap_abbreviation := None; ap_email := Some "issuer@example.org";
     ap_endpoint := None; ap_name := Some "Issuer"; ap_url := None |}.

Definition spec_1 : proof_spec_params :=
  {| pp_id := Some "spec-1"; pp_version := Some "1.0";
     pp_schemas := Some (ProofSpecCfg.schemas open_spec) |}.

Definition empty_service : @State unit :=
  start (IndyService.Build [] None [] [] (Some "http://ledger") "indy" false false [] []).

(** A connection of the issuer to TheOrgBook, and agent parameters that
    carry a topic for the credential type. *)
Definition tob_conn : ConnectionCfg.t :=
  ConnectionCfg.Build "conn-tob" "issuer-1" issuer TheOrgBook true
    [("api_url", JStr "http://tob/api")] true false.

Definition tob_params : json :=
  JObj [("email", JStr "issuer@example.org"); ("did", JStr "did:wallet-1");
        ("name", JStr "Issuer");
        ("credential_types",
         JArr [JObj [("schema", JObj [("name", JStr "degree"); ("version", JStr "1.0")]);
                     ("source_claim", JStr "name");
                     ("topic", JObj [("source_id", JStr "id")])]])].

(* ================================================================== *)
(** * Properties *)

Lemma truthy_str_false o : truthy_str o = false ↔ absent_str o.
Proof.
  unfold absent_str. destruct o as [s|]; simpl.
  - rewrite negb_false_iff, String.eqb_eq. split.
    + intros ->. by right.
    + intros [?|[= ->]]; done.
  - split; [by left|done].
Qed.

Lemma nonempty_false {A} (l : list A) : SchemaCfg.nonempty l = false ↔ l = [].
Proof. by destruct l. Qed.

Lemma wildcard_test {A} `{EqDecision A} (ta tb : bool) (x y : A) :
  ta && tb && bool_decide (x ≠ y) = false ↔ ta = false ∨ tb = false ∨ x = y.
Proof. destruct ta, tb; simpl; try case_bool_decide; naive_solver. Qed.

Lemma compare_spec (a b : SchemaCfg.t) :
  SchemaCfg.compare a b = true ↔
    SchemaCfg.name a = SchemaCfg.name b
    ∧ (absent_str (SchemaCfg.version a) ∨ absent_str (SchemaCfg.version b)
       ∨ SchemaCfg.version a = SchemaCfg.version b)
    ∧ (absent_str (SchemaCfg.origin_did a) ∨ absent_str (SchemaCfg.origin_did b)
       ∨ SchemaCfg.origin_did a = SchemaCfg.origin_did b)
    ∧ (absent_attrs (SchemaCfg.attributes a) ∨ absent_attrs (SchemaCfg.attributes b)
       ∨ SchemaCfg.attributes a = SchemaCfg.attributes b).
Proof.
  unfold absent_attrs.
  rewrite <- !truthy_str_false, <- !nonempty_false, <- !wildcard_test.
  unfold SchemaCfg.compare. case_bool_decide as Hn.
  - split; [done|]. by intros [? _].
  - repeat match goal with |- context [if ?c then _ else _] => destruct c end;
      naive_solver.
Qed.

(** C5.  [compare a b] holds exactly when the names are equal and, for each
    of version, origin DID and attribute list, the field is absent on either
    side or equal on both; hence [compare] is reflexive and symmetric, and a
    schema whose optional fields are all absent matches every schema of its
    name. *)
Theorem compare_wildcard_match (a b : SchemaCfg.t) :
  (SchemaCfg.compare a b = true ↔
     SchemaCfg.name a = SchemaCfg.name b
     ∧ (absent_str (SchemaCfg.version a) ∨ absent_str (SchemaCfg.version b)
        ∨ SchemaCfg.version a = SchemaCfg.version b)
     ∧ (absent_str (SchemaCfg.origin_did a) ∨ absent_str (SchemaCfg.origin_did b)
        ∨ SchemaCfg.origin_did a = SchemaCfg.origin_did b)
     ∧ (absent_attrs (SchemaCfg.attributes a) ∨ absent_attrs (SchemaCfg.attributes b)
        ∨ SchemaCfg.attributes a = SchemaCfg.attributes b))
  ∧ SchemaCfg.compare a a = true
  ∧ SchemaCfg.compare a b = SchemaCfg.compare b a.
Proof.
  split; [apply compare_spec|]. split.
  - apply compare_spec. naive_solver.
  - apply eq_true_iff_eq. rewrite !compare_spec. naive_solver.
Qed.

(** ** The order of [LooseVersion] *)

Example LooseVersion_parse_ex :
  parse_version "1.0.0-alpha" = [CInt 1; CInt 0; CInt 0; CStr "-"; CStr "alpha"]
  ∧ parse_version "1.0A_b..c3" = [CInt 1; CInt 0; CStr "A_"; CStr "b"; CStr "c"; CInt 3]
  ∧ LooseVersion_lt (Some "1.10") (Some "1.9") = Ok false
  ∧ LooseVersion_lt (Some "1.0.0") (Some "1.0.0-alpha") = Ok true
  ∧ LooseVersion_lt (Some "1.0") (Some "1.a") = Raise TypeError
  ∧ LooseVersion_lt None (Some "1.0") = Raise (AttributeError "version").
Proof. repeat split; vm_compute; reflexivity. Qed.

Lemma ltb_trans s t u :
  String.ltb s t = true → String.ltb t u = true → String.ltb s u = true.
Proof.
  unfold String.ltb. intros H1 H2.
  assert (String_as_OT.lt s u) as H.
  { transitivity t; unfold String_as_OT.lt.
    - change (String.compare s t = Lt). by destruct (String.compare s t).
    - change (String.compare t u = Lt). by destruct (String.compare t u). }
  unfold String_as_OT.lt in H. change (String.compare s u = Lt) in H. by rewrite H.
Qed.

Lemma ltb_total s t : String.ltb s t = false → s = t ∨ String.ltb t s = true.
Proof.
  unfold String.ltb. intros H. destruct (String.compare s t) eqn:E; try done.
  - left. by apply String.compare_eq_iff.
  - right. by rewrite String.compare_antisym, E.
Qed.

Lemma ltb_irrefl s : String.ltb s s = false.
Proof.
  unfold String.ltb. pose proof (String.compare_antisym s s) as H.
  by destruct (String.compare s s).
Qed.

Lemma component_lt_trans x y z :
  component_lt x y = Ok true → component_lt y z = Ok true →
  component_lt x z = Ok true.
Proof.
  destruct x, y, z; simpl; try done; intros [= H1] [= H2]; f_equal.
  - apply N.ltb_lt. apply N.ltb_lt in H1, H2. lia.
  - eauto using ltb_trans.
Qed.

Lemma component_lt_total x y :
  component_lt x y = Ok false → x = y ∨ component_lt y x = Ok true.
Proof.
  destruct x, y; simpl; try done; intros [= H].
  - apply N.ltb_ge in H. destruct (decide (n0 = n)) as [->|]; [by left|right].
    f_equal. apply N.ltb_lt. lia.
  - destruct (ltb_total _ _ H) as [->| ->]; auto.
Qed.

Lemma component_lt_asym x y :
  component_lt x y = Ok true → component_lt y x = Ok false.
Proof.
  destruct x, y; simpl; try done; intros [= H]; f_equal.
  - apply N.ltb_ge. apply N.ltb_lt in H. lia.
  - destruct (String.ltb s0 s) eqn:E; [|done].
    pose proof (ltb_irrefl s) as Hi. by rewrite (ltb_trans _ _ _ H E) in Hi.
Qed.

Lemma list_lt_trans a : ∀ b c,
  list_lt a b = Ok true → list_lt b c = Ok true → list_lt a c = Ok true.
Proof.
  induction a as [|x a IH]; intros [|y b] [|z c]; simpl; try done.
  destruct (decide (x = y)) as [->|Hxy], (decide (y = z)) as [->|Hyz].
  - rewrite !bool_decide_eq_true_2 by done. apply IH.
  - rewrite !(bool_decide_eq_false_2 _ Hyz). case_bool_decide; [|done]. auto.
  - rewrite !(bool_decide_eq_false_2 _ Hxy). case_bool_decide; [|done]. auto.
  - rewrite !(bool_decide_eq_false_2 _ Hxy), !(bool_decide_eq_false_2 _ Hyz).
    intros H1 H2. case_bool_decide as Hxz.
    + subst z. by rewrite (component_lt_asym _ _ H1) in H2.
    + eauto using component_lt_trans.
Qed.

Lemma list_lt_total a : ∀ b,
  list_lt a b = Ok false → a = b ∨ list_lt b a = Ok true.
Proof.
  induction a as [|x a IH]; intros [|y b]; simpl; try done; auto.
  destruct (decide (x = y)) as [->|Hxy].
  - rewrite !bool_decide_eq_true_2 by done.
    intros Hab. destruct (IH _ Hab) as [->|]; auto.
  - rewrite (bool_decide_eq_false_2 _ Hxy), bool_decide_eq_false_2 by done.
    intros Hab. destruct (component_lt_total _ _ Hab); [done|auto].
Qed.

Lemma list_lt_asym a : ∀ b, list_lt a b = Ok true → list_lt b a = Ok false.
Proof.
  induction a as [|x a IH]; intros [|y b]; simpl; try done.
  destruct (decide (x = y)) as [->|Hxy].
  - rewrite !bool_decide_eq_true_2 by done. apply IH.
  - rewrite (bool_decide_eq_false_2 _ Hxy), bool_decide_eq_false_2 by done.
    apply component_lt_asym.
Qed.

Lemma LooseVersion_lt_trans u v w :
  LooseVersion_lt u v = Ok true → LooseVersion_lt v w = Ok true →
  LooseVersion_lt u w = Ok true.
Proof.
  unfold LooseVersion_lt.
  destruct (truthy_str u), (truthy_str v), (truthy_str w); simpl; try done.
  case_bool_decide as Euv; [done|]. case_bool_decide as Evw; [done|].
  case_bool_decide as Euw; [|apply list_lt_trans].
  rewrite <- Euw. intros Huv Hvu. by rewrite (list_lt_asym _ _ Huv) in Hvu.
Qed.

Lemma LooseVersion_lt_asym v w :
  LooseVersion_lt v w = Ok true → LooseVersion_lt w v = Ok false.
Proof.
  unfold LooseVersion_lt.
  destruct (truthy_str v), (truthy_str w); simpl; try done.
  repeat case_bool_decide; try done; try congruence. apply list_lt_asym.
Qed.

(** [s ≤ f < x] gives [s < x]. *)
Lemma LooseVersion_le_lt f s x :
  LooseVersion_lt f s = Ok false → LooseVersion_lt f x = Ok true →
  LooseVersion_lt s x = Ok true.
Proof.
  intros Hfs Hfx.
  assert (LooseVersion_lt s f = Ok true ∨
          (truthy_str s = true ∧
           parse_version (default "" s) = parse_version (default "" f))) as [?|[Hs Heq]].
  { revert Hfs. unfold LooseVersion_lt.
    destruct (truthy_str f), (truthy_str s); simpl; try done.
    case_bool_decide as Hk; [by right|]. intros Hlt.
    destruct (list_lt_total _ _ Hlt) as [?|Hlt']; [done|].
    left. by rewrite bool_decide_eq_false_2. }
  - eauto using LooseVersion_lt_trans.
  - revert Hfx. unfold LooseVersion_lt.
    destruct (truthy_str f); [|done]. by rewrite Hs, Heq.
Qed.

Lemma comparable_pair A a B b C :
  comparable (A ++ a :: B ++ b :: C) = true →
  ∃ r, LooseVersion_lt a b = Ok r.
Proof.
  induction A as [|x A IH]; simpl; intros [Hall Hrest]%andb_true_iff; [|auto].
  rewrite forallb_app in Hall. apply andb_true_iff in Hall as [_ Hall].
  simpl in Hall. apply andb_true_iff in Hall as [Hab _].
  destruct (LooseVersion_lt a b); [eauto|done].
Qed.

(** ** [SchemaManager.find] *)

Lemma find_from_versioned name v found schemas :
  SchemaManager.find_from name (Some v) found schemas =
    Ok (match head (filter (λ s, SchemaCfg.name s = name
                                  ∧ SchemaCfg.version s = Some v) schemas) with
        | Some s => Some s
        | None => found
        end).
Proof.
  induction schemas as [|s rest IH]; [done|].
  rewrite filter_cons. cbn [SchemaManager.find_from].
  repeat case_bool_decide; case_decide; naive_solver.
Qed.

Lemma find_from_same_named name found schemas :
  SchemaManager.find_from name None found schemas =
  SchemaManager.find_from name None found (same_named name schemas).
Proof.
  revert found. unfold same_named.
  induction schemas as [|s rest IH]; intros found; [done|].
  rewrite filter_cons. cbn [SchemaManager.find_from].
  case_bool_decide as Hn; case_decide; try done; cbn [SchemaManager.find_from].
  rewrite (bool_decide_eq_true_2 _ Hn).
  destruct found as [f|]; [|by rewrite IH].
  destruct (LooseVersion_lt _ _) as [[]|]; by rewrite ?IH.
Qed.

Lemma find_from_latest name c :
  Forall (λ s, SchemaCfg.name s = name) c →
  ∀ l1 f l2,
    comparable (SchemaCfg.version <$> l1 ++ f :: l2 ++ c) = true →
    Forall (λ s, LooseVersion_lt (SchemaCfg.version s) (SchemaCfg.version f) = Ok true) l1 →
    Forall (λ s, LooseVersion_lt (SchemaCfg.version f) (SchemaCfg.version s) = Ok false) l2 →
    ∃ l1' r l2',
      SchemaManager.find_from name None (Some f) c = Ok (Some r)
      ∧ l1 ++ f :: l2 ++ c = l1' ++ r :: l2'
      ∧ Forall (λ s, LooseVersion_lt (SchemaCfg.version s) (SchemaCfg.version r) = Ok true) l1'
      ∧ Forall (λ s, LooseVersion_lt (SchemaCfg.version r) (SchemaCfg.version s) = Ok false) l2'.
Proof.
  induction 1 as [|x c Hx Hc IH]; intros l1 f l2 Hcmp H1 H2; simpl.
  { exists l1, f, l2. by rewrite app_nil_r. }
  rewrite (bool_decide_eq_true_2 _ Hx).
  destruct (comparable_pair (SchemaCfg.version <$> l1) (SchemaCfg.version f)
              (SchemaCfg.version <$> l2) (SchemaCfg.version x)
              (SchemaCfg.version <$> c)) as [b Hb].
  { by rewrite !fmap_app, !fmap_cons, !fmap_app, !fmap_cons in Hcmp. }
  rewrite Hb. destruct b.
  - destruct (IH (l1 ++ f :: l2) x []) as (l1' & r & l2' & Hr & Heq & ? & ?).
    + by rewrite <- app_assoc.
    + apply Forall_app. split; [|apply Forall_cons; split; [done|]].
      * eapply Forall_impl; [exact H1|]. simpl. eauto using LooseVersion_lt_trans.
      * eapply Forall_impl; [exact H2|]. simpl. eauto using LooseVersion_le_lt.
    + constructor.
    + exists l1', r, l2'. rewrite <- Heq, <- app_assoc. done.
  - destruct (IH l1 f (l2 ++ [x])) as (l1' & r & l2' & Hr & Heq & ? & ?).
    + by rewrite <- app_assoc.
    + done.
    + apply Forall_app. split; [done|]. by repeat constructor.
    + exists l1', r, l2'. rewrite <- Heq, <- app_assoc. done.
Qed.

Lemma find_latest (self : SchemaManager.t) (name : string) :
  comparable (SchemaCfg.version <$> same_named name self) = true →
  match same_named name self with
  | [] => SchemaManager.find self name None = Ok None
  | _ :: _ =>
      ∃ l1 r l2,
        same_named name self = l1 ++ r :: l2
        ∧ SchemaManager.find self name None = Ok (Some r)
        ∧ Forall (λ s, LooseVersion_lt (SchemaCfg.version s) (SchemaCfg.version r) = Ok true) l1
        ∧ Forall (λ s, LooseVersion_lt (SchemaCfg.version r) (SchemaCfg.version s) = Ok false) l2
  end.
Proof.
  intros Hcmp. unfold SchemaManager.find. rewrite find_from_same_named.
  assert (Forall (λ s, SchemaCfg.name s = name) (same_named name self)) as Hall.
  { apply Forall_forall. intros s Hs. by apply list_elem_of_filter in Hs as [? _]. }
  destruct (same_named name self) as [|f c]; simpl; [done|].
  apply Forall_cons in Hall as [Hf Hc]. rewrite (bool_decide_eq_true_2 _ Hf).
  destruct (find_from_latest name c Hc [] f []) as (l1 & r & l2 & ? & ? & ? & ?);
    [done|constructor|constructor|].
  by exists l1, r, l2.
Qed.

Lemma find_versioned (self : SchemaManager.t) (name v : string) :
  SchemaManager.find self name (Some v) =
    Ok (head (filter (λ s, SchemaCfg.name s = name
                           ∧ SchemaCfg.version s = Some v) self)).
Proof.
  unfold SchemaManager.find. rewrite find_from_versioned.
  by destruct (head _).
Qed.

(** C6 (amended).  [find name v] returns the first stored schema with that
    name and that version, or none.  [find name], when the versions of the
    stored schemas of that name can be compared with each other as
    [LooseVersion]s, returns none if no schema has the name and otherwise
    the stored schema [r] of that name such that every schema of the name
    stored before it has a strictly lower version and none stored after it
    has a higher one. *)
Theorem find_highest_comparable (self : SchemaManager.t) (name : string) :
  comparable (SchemaCfg.version <$> same_named name self) = true →
  (∀ v, SchemaManager.find self name (Some v) =
          Ok (head (filter (λ s, SchemaCfg.name s = name
                                 ∧ SchemaCfg.version s = Some v) self)))
  ∧ match same_named name self with
    | [] => SchemaManager.find self name None = Ok None
    | _ :: _ =>
        ∃ l1 r l2,
          same_named name self = l1 ++ r :: l2
          ∧ SchemaManager.find self name None = Ok (Some r)
          ∧ Forall (λ s, LooseVersion_lt (SchemaCfg.version s) (SchemaCfg.version r)
                         = Ok true) l1
          ∧ Forall (λ s, LooseVersion_lt (SchemaCfg.version r) (SchemaCfg.version s)
                         = Ok false) l2
    end.
Proof.
  intros Hcmp. split; [intros v; apply find_versioned|by apply find_latest].
Qed.

Lemma find_highest_comparable_witness :
  comparable (SchemaCfg.version <$> same_named "degree" store_numeric) = true
  ∧ (∀ v, SchemaManager.find store_numeric "degree" (Some v) =
            Ok (head (filter (λ s, SchemaCfg.name s = "degree"
                                   ∧ SchemaCfg.version s = Some v) store_numeric)))
  ∧ ∃ l1 r l2,
      same_named "degree" store_numeric = l1 ++ r :: l2
      ∧ SchemaManager.find store_numeric "degree" None = Ok (Some r)
      ∧ Forall (λ s, LooseVersion_lt (SchemaCfg.version s) (SchemaCfg.version r)
                     = Ok true) l1
      ∧ Forall (λ s, LooseVersion_lt (SchemaCfg.version r) (SchemaCfg.version s)
                     = Ok false) l2.
Proof.
  split; [reflexivity|].
  apply (find_highest_comparable store_numeric "degree"). reflexivity.
Defined.

Example find_numeric_order :
  SchemaManager.find store_numeric "degree" None = Ok (Some (schema_v "degree" "1.10"))
  ∧ SchemaManager.find store_numeric "degree" (Some "1.2")
    = Ok (Some (schema_v "degree" "1.2"))
  ∧ SchemaManager.find store_numeric "degree" (Some "3.0") = Ok None
  ∧ SchemaManager.find store_numeric "passport" None = Ok None.
Proof. repeat split; vm_compute; reflexivity. Qed.

(** C6, as stated, fails: both stores below are built through [load] alone,
    and on both [find "degree"] raises instead of returning a schema. *)
Lemma find_raises_on_incomparable_versions :
  SchemaManager.load [] [dict_v "degree" (Some "1.0.0-alpha.1");
                         dict_v "degree" (Some "1.0.0-alpha.beta")] false
    = (Ok (), store_prerelease)
  ∧ SchemaManager.find store_prerelease "degree" None = Raise TypeError
  ∧ SchemaManager.load [] [dict_v "degree" None; dict_v "degree" (Some "1.0")] false
    = (Ok (), store_versionless)
  ∧ SchemaManager.find store_versionless "degree" None = Raise (AttributeError "version").
Proof. repeat split; vm_compute; reflexivity. Qed.

(** ** [SchemaManager.add_schema] *)

Lemma list_remove_elem x l :
  x ∈ l → ∃ rest, SchemaManager.list_remove x l = Ok rest.
Proof.
  induction l as [|y l IH]; [by intros ?%elem_of_nil|].
  intros [->|Hin]%elem_of_cons; simpl.
  - rewrite bool_decide_eq_true_2 by done. eauto.
  - case_bool_decide; [eauto|]. destruct (IH Hin) as [rest ->]. eauto.
Qed.

(** C10 (amended).  Adding, with [override] unset, a schema without a
    version raises the duplicate-definition error as soon as a schema of
    that name is stored, whatever its version, provided the stored versions
    of that name can be compared with each other; with [override] set, the
    schema that [find] returns is removed and the new one appended. *)
Theorem add_schema_without_version (self : SchemaManager.t) (arg : schema_arg)
    (s s' : SchemaCfg.t) :
  SchemaManager.as_SchemaCfg arg = Ok s →
  SchemaCfg.version s = None →
  s' ∈ self → SchemaCfg.name s' = SchemaCfg.name s →
  comparable (SchemaCfg.version <$> same_named (SchemaCfg.name s) self) = true →
  SchemaManager.add_schema self arg false
    = (Raise (IndyConfigError "Duplicate schema definition"), self)
  ∧ ∃ found rest,
      SchemaManager.find self (SchemaCfg.name s) None = Ok (Some found)
      ∧ SchemaManager.list_remove found self = Ok rest
      ∧ SchemaManager.add_schema self arg true = (Ok (), rest ++ [s]).
Proof.
  intros Harg Hv Hin Hname Hcmp.
  pose proof (find_latest self (SchemaCfg.name s) Hcmp) as Hfind.
  assert (s' ∈ same_named (SchemaCfg.name s) self) as Hs'
    by by apply list_elem_of_filter.
  destruct (same_named (SchemaCfg.name s) self) as [|x c] eqn:Hsn;
    [by apply elem_of_nil in Hs'|].
  destruct Hfind as (l1 & r & l2 & Heq & Hr & _).
  assert (r ∈ self) as Hrin.
  { assert (r ∈ same_named (SchemaCfg.name s) self) as Hrs.
    { rewrite Hsn, Heq. set_solver. }
    by apply list_elem_of_filter in Hrs as [_ ?]. }
  destruct (list_remove_elem r self Hrin) as [rest Hrest].
  unfold SchemaManager.add_schema, SchemaManager.remove_schema.
  rewrite Harg, Hv, Hr, Hrest. split; [done|]. by exists r, rest.
Qed.

Lemma add_schema_without_version_witness :
  SchemaManager.add_schema store_numeric (dict_v "degree" None) false
    = (Raise (IndyConfigError "Duplicate schema definition"), store_numeric)
  ∧ ∃ found rest,
      SchemaManager.find store_numeric "degree" None = Ok (Some found)
      ∧ SchemaManager.list_remove found store_numeric = Ok rest
      ∧ SchemaManager.add_schema store_numeric (dict_v "degree" None) true
        = (Ok (), rest ++ [SchemaCfg.Build "degree" None [] None]).
Proof.
  apply (add_schema_without_version store_numeric (dict_v "degree" None)
           (SchemaCfg.Build "degree" None [] None) (schema_v "degree" "1.9")).
  - reflexivity.
  - reflexivity.
  - apply list_elem_of_here.
  - reflexivity.
  - reflexivity.
Defined.

(** C10, as stated, fails on a store that [load] builds: the schema without
    a version meets two stored schemas of its name, [find] cannot order
    them, and the error that comes out is not a configuration error. *)
Lemma add_schema_versionless_not_config_error :
  SchemaManager.load [] [dict_v "degree" None; dict_v "degree" (Some "1.0")] false
    = (Ok (), store_versionless)
  ∧ SchemaManager.add_schema store_versionless (dict_v "degree" None) false
    = (Raise (AttributeError "version"), store_versionless)
  ∧ is_IndyConfigError (AttributeError "version") = false.
Proof. repeat split; vm_compute; reflexivity. Qed.

(** ** Running a coroutine *)

Section Running.

Context {W : Type}.

Lemma bind_run {A B} (m : @M W A) (k : A → M B) st :
  (m ≫= k) st = match m st with
                | (Ok a, st') => k a st'
                | (Raise e, st') => (Raise e, st')
                end.
Proof. reflexivity. Qed.

Lemma bind_Ok {A B} (m : @M W A) (k : A → M B) st a st' :
  m st = (Ok a, st') → (m ≫= k) st = k a st'.
Proof. intros H. by rewrite bind_run, H. Qed.

Lemma bind_inv {A B} (m : @M W A) (k : A → M B) st r st' :
  (m ≫= k) st = (r, st') →
  (∃ a st1, m st = (Ok a, st1) ∧ k a st1 = (r, st'))
  ∨ (∃ e, m st = (Raise e, st') ∧ r = Raise e).
Proof.
  rewrite bind_run. destruct (m st) as [[a|e] st1]; [by eauto|].
  intros [= <- <-]. eauto.
Qed.

Lemma bind_Ok_inv {A B} (m : @M W A) (k : A → M B) st b st' :
  (m ≫= k) st = (Ok b, st') →
  ∃ a st1, m st = (Ok a, st1) ∧ k a st1 = (Ok b, st').
Proof. intros [?|(e & _ & [=])]%bind_inv; done. Qed.

Section Keeps.

Context (R : relation IndyService.t) `{!PreOrder R}.

Lemma keeps_ret {A} (a : A) : keeps R (mret a : @M W A).
Proof. intros st. simpl. reflexivity. Qed.

Lemma keeps_raise {A} e : keeps R (raise e : @M W A).
Proof. intros st. simpl. reflexivity. Qed.

Lemma keeps_lift {A} (r : result A) : keeps R (lift r : @M W A).
Proof. intros st. simpl. reflexivity. Qed.

Lemma keeps_gets {A} (f : IndyService.t → A) : keeps R (gets f : @M W A).
Proof. intros st. simpl. reflexivity. Qed.

Lemma keeps_ext (E : Env W) c : keeps R (ext E c).
Proof. intros st. unfold ext. destruct (handle E c (world st)). simpl. reflexivity. Qed.

Lemma keeps_modify f : (∀ s, R s (f s)) → keeps R (modify f : @M W unit).
Proof. intros Hf st. apply Hf. Qed.

Lemma keeps_bind {A B} (m : @M W A) (k : A → M B) :
  keeps R m → (∀ a, keeps R (k a)) → keeps R (m ≫= k).
Proof.
  intros Hm Hk st. rewrite bind_run. specialize (Hm st).
  destruct (m st) as [[a|e] st1]; simpl in *; [|done].
  etransitivity; [exact Hm|apply Hk].
Qed.

Lemma keeps_catch {A} (m : @M W A) h :
  keeps R m → (∀ e k, h e = Some k → keeps R k) → keeps R (catch m h).
Proof.
  intros Hm Hh st. unfold catch. specialize (Hm st).
  destruct (m st) as [[a|e] st1]; simpl in *; [done|].
  destruct (h e) as [k|] eqn:He; [|done].
  etransitivity; [exact Hm|by apply (Hh e k)].
Qed.

Lemma keeps_for_each {A} (body : A → @M W unit) xs :
  (∀ x, keeps R (body x)) → keeps R (for_each body xs).
Proof.
  intros Hb. induction xs as [|x xs IH]; simpl; [apply keeps_ret|].
  apply keeps_bind; auto.
Qed.

Lemma keeps_sync_each (body : nat → @M W bool) xs :
  (∀ x, keeps R (body x)) → ∀ b, keeps R (sync_each body xs b).
Proof.
  intros Hb. induction xs as [|x xs IH]; intros b; simpl; [apply keeps_ret|].
  apply keeps_bind; auto.
Qed.

End Keeps.

Lemma keeps_weaken {A} (R R' : relation IndyService.t) (m : @M W A) :
  (∀ s s', R s s' → R' s s') → keeps R m → keeps R' m.
Proof. intros HR Hm st. apply HR, Hm. Qed.

End Running.

(** ** What a synchronisation step leaves alone *)

#[export] Instance same_preorder {X} (obs : IndyService.t → X) : PreOrder (same obs).
Proof. split; [done|]. intros s1 s2 s3 H1 H2. unfold same in *. congruence. Qed.

#[export] Instance others_at_preorder {A} (cat : IndyService.t → list A) i :
  PreOrder (others_at cat i).
Proof.
  split; [by intros s|].
  intros s1 s2 s3 (H1 & H2) (H3 & H4). split; [congruence|].
  intros j Hj. by rewrite H4, H2.
Qed.

#[export] Instance from_on_preorder {A} (cat : IndyService.t → list A) k :
  PreOrder (from_on cat k).
Proof.
  split; [by intros s|].
  intros s1 s2 s3 (H1 & H2) (H3 & H4). split; [congruence|].
  intros j Hj. by rewrite H4, H2.
Qed.

Lemma others_at_from_on {A} (cat : IndyService.t → list A) (i k : nat) s s' :
  (i < k)%nat → others_at cat i s s' → from_on cat k s s'.
Proof. intros Hik (? & Hj). split; [done|]. intros j ?. apply Hj. lia. Qed.

Lemma from_on_weaken {A} (cat : IndyService.t → list A) (k k' : nat) s s' :
  (k ≤ k')%nat → from_on cat k s s' → from_on cat k' s s'.
Proof. intros Hk (? & Hj). split; [done|]. intros j ?. apply Hj. lia. Qed.

#[export] Instance frame_agent_preorder i : PreOrder (frame_agent i).
Proof.
  split; [by intros s|].
  intros s1 s2 s3 (H1 & H2) (H3 & H4). split; [congruence|by etransitivity].
Qed.

#[export] Instance frame_connection_preorder i : PreOrder (frame_connection i).
Proof.
  split; [by intros s|].
  intros s1 s2 s3 (H1 & H2) (H3 & H4). split; [congruence|by etransitivity].
Qed.

#[export] Instance frame_proof_spec_preorder i : PreOrder (frame_proof_spec i).
Proof.
  split; [by intros s|].
  intros s1 s2 s3 (H1 & H2) (H3 & H4). split; [congruence|by etransitivity].
Qed.

Lemma frame_agent_update i f s :
  frame_agent i s (IndyService.set_agents (alter f i (IndyService._agents s)) s).
Proof.
  split; [done|]. split; simpl; [apply length_alter|].
  intros j Hj. by apply list_lookup_alter_ne.
Qed.

Lemma frame_connection_update i f s :
  frame_connection i s
    (IndyService.set_connections (alter f i (IndyService._connections s)) s).
Proof.
  split; [done|]. split; simpl; [apply length_alter|].
  intros j Hj. by apply list_lookup_alter_ne.
Qed.

Lemma frame_proof_spec_update i f s :
  frame_proof_spec i s
    (IndyService.set_proof_specs (alter f i (IndyService._proof_specs s)) s).
Proof.
  split; [done|]. split; simpl; [apply length_alter|].
  intros j Hj. by apply list_lookup_alter_ne.
Qed.

Lemma same_agent_field {X} (g : AgentCfg.t → X) i f :
  (∀ a, g (f a) = g a) →
  ∀ s, same (λ s, g <$> IndyService._agents s !! i) s
            (IndyService.set_agents (alter f i (IndyService._agents s)) s).
Proof.
  intros Hg s. unfold same. simpl. rewrite list_lookup_alter.
  case_decide; [|done]. destruct (_ !! i); simpl; [by rewrite Hg|done].
Qed.

Lemma same_cred_type_other i k k' f :
  k ≠ k' →
  ∀ s, same (cred_type_at i k) s
         (IndyService.set_agents
            (alter (λ a, AgentCfg.set_cred_types (alter f k' (AgentCfg.cred_types a)) a)
                   i (IndyService._agents s)) s).
Proof.
  intros Hk s. unfold same, cred_type_at. simpl. rewrite list_lookup_alter.
  case_decide; [|done]. destruct (_ !! i); simpl; [|done].
  by apply list_lookup_alter_ne.
Qed.

(** One step of a frame proof: the shape of the coroutine decides. *)
Ltac keeps_step solve_modify :=
  lazymatch goal with
  | |- keeps ?R (mret _) => apply (keeps_ret R)
  | |- keeps ?R (raise _) => apply (keeps_raise R)
  | |- keeps ?R (lift _) => apply (keeps_lift R)
  | |- keeps ?R (gets _) => apply (keeps_gets R)
  | |- keeps ?R (ext _ _) => apply (keeps_ext R)
  | |- keeps ?R (modify _) => apply (keeps_modify R); intros ?; solve_modify
  | |- keeps ?R (_ ≫= _) => apply (keeps_bind R); [|intros ?]
  | |- keeps ?R (catch _ _) =>
      apply (keeps_catch R); [|intros [] ? ?; simplify_eq/=]
  | |- keeps ?R (for_each _ _) => apply (keeps_for_each R); intros ?
  | |- keeps ?R (sync_each _ _ _) => apply (keeps_sync_each R); intros ?
  | |- keeps _ (match ?x with _ => _ end) => destruct x
  | |- keeps _ (let '(_, _) := ?x in _) => destruct x
  end.

Create HintDb svc.
#[export] Hint Unfold nth_entry nth_agent nth_wallet nth_connection nth_proof_spec
  nth_cred_type update_agent update_wallet update_connection update_proof_spec
  update_cred_type AgentCfg_open AgentCfg_create WalletCfg_create create_wallet
  create_wallets _check_registration _publish_schema _fetch_genesis_txn
  _check_genesis_path _setup_pool ConnectionCfg_create ConnectionCfg_open
  ConnectionCfg_sync _resolve_schema populate_schema_at : svc.

Ltac keeps_steps solve_modify :=
  repeat first [keeps_step solve_modify | progress autounfold with svc].

Ltac same_refl := unfold same; reflexivity.

Ltac same_field :=
  apply same_agent_field; intros ?; simpl; rewrite ?length_alter; reflexivity.

Section Frames.

Context {W : Type} (E : Env W).

(** Syncing an agent, a connection or a proof specification touches that
    entity only. *)
Lemma _sync_agent_frame i : keeps (frame_agent i) (_sync_agent E i).
Proof. unfold _sync_agent. keeps_steps ltac:(apply frame_agent_update). Qed.

Lemma _sync_connection_frame i : keeps (frame_connection i) (_sync_connection E i).
Proof. unfold _sync_connection. keeps_steps ltac:(apply frame_connection_update). Qed.

Lemma resolve_missing_frame i missing :
  ∀ check, keeps (frame_proof_spec i) (resolve_missing (W:=W) i missing check).
Proof.
  induction missing as [|s_key rest IH]; intros check; simpl.
  - keeps_steps idtac.
  - keeps_steps ltac:(apply frame_proof_spec_update); apply IH.
Qed.

Lemma _sync_proof_spec_frame i :
  keeps (frame_proof_spec i) (_sync_proof_spec (W:=W) i).
Proof.
  unfold _sync_proof_spec.
  keeps_steps ltac:(apply frame_proof_spec_update); apply resolve_missing_frame.
Qed.

(** Publishing keeps the number of credential types, and rewrites only the
    credential type it is given. *)
Lemma _publish_schema_count i k : keeps (same (cred_type_count i)) (_publish_schema E i k).
Proof. keeps_steps same_field. Qed.

Lemma _publish_schema_other i k k' :
  k ≠ k' → keeps (same (cred_type_at i k)) (_publish_schema E i k').
Proof. intros Hk. keeps_steps ltac:(by apply same_cred_type_other). Qed.

End Frames.

(** ** Publishing a schema *)

Section Publication.

Context {W : Type} (E : Env W).

Lemma nth_agent_run i (st : @State W) :
  nth_agent i st =
    (match IndyService._agents (svc st) !! i with
     | Some a => Ok a
     | None => Raise (KeyError "agent")
     end, st).
Proof.
  unfold nth_agent, nth_entry. rewrite bind_run. simpl.
  by destruct (_ !! i).
Qed.

Lemma nth_cred_type_run i k (st : @State W) :
  nth_cred_type i k st =
    (match IndyService._agents (svc st) !! i with
     | Some a => match AgentCfg.cred_types a !! k with
                 | Some ct => Ok ct
                 | None => Raise IndexError
                 end
     | None => Raise (KeyError "agent")
     end, st).
Proof.
  unfold nth_cred_type. rewrite bind_run, nth_agent_run.
  destruct (_ !! i) as [a|]; [|done]. by destruct (_ !! k).
Qed.

(** C4.  The schema is not recorded and not on the ledger, so it is
    submitted; when the reply is empty or has no sequence number,
    [_publish_schema] raises the sync error right after the submission, and
    the service is left as it was: no ledger schema is recorded. *)
Theorem publish_without_seq_no_is_sync_error i k (st : @State W) issuer_cfg cred_type
    names reply w1 w2 :
  let definition := CredType.definition cred_type in
  let get := GetSchema (AgentCfg.agent_id issuer_cfg) (AgentCfg.did issuer_cfg)
                       (SchemaCfg.name definition) (SchemaCfg.version definition) in
  let send := SendSchema (AgentCfg.agent_id issuer_cfg)
                (JObj [("name", JStr (SchemaCfg.name definition));
                       ("version", json_of_option (SchemaCfg.version definition));
                       ("attr_names", JArr (JStr <$> names))]) in
  IndyService._agents (svc st) !! i = Some issuer_cfg →
  AgentCfg.cred_types issuer_cfg !! k = Some cred_type →
  truthy (CredType.ledger_schema cred_type) = false →
  handle E get (world st) = (Raise AbsentSchema, w1) →
  SchemaCfg.attr_names definition = Ok names →
  handle E send w1 = (Ok reply, w2) →
  lacks_seq_no reply →
  _publish_schema E i k st =
    (Raise (ServiceSyncError "Schema was not published to ledger"),
     BuildState (svc st) w2 (trace st ++ [get; send]))
  ∧ cred_type_at i k (svc st) = Some cred_type.
Proof.
  intros definition get send Hi Hk Hls Hget Hnames Hsend Hreply.
  split; [|by unfold cred_type_at; rewrite Hi].
  unfold _publish_schema.
  rewrite bind_run, nth_agent_run, Hi. rewrite bind_run, nth_cred_type_run, Hi, Hk.
  cbv zeta. rewrite Hls. rewrite bind_run. rewrite (bind_run (catch _ _)).
  unfold catch. unfold ext at 1. fold definition. fold get. rewrite Hget.
  cbn [svc world trace]. fold definition. rewrite bind_run. unfold lift at 1.
  rewrite Hnames. rewrite bind_run. unfold ext at 1. cbn [svc world trace].
  fold send. rewrite Hsend. rewrite <- app_assoc. simpl.
  destruct Hreply as [Hr|(items & -> & Hs)].
  - by rewrite Hr.
  - destruct (truthy (JObj items)); [|done]. simpl.
    rewrite bind_run. unfold lift. simpl. by rewrite Hs.
Qed.

Lemma jindex_truthy j key v : jindex j key = Ok v → truthy j = true.
Proof.
  destruct j as [| | | | |items]; try done. simpl.
  destruct items; [done|]. done.
Qed.

Lemma published_cred_def ct : truthy (CredType.cred_def ct) = true → published ct = true.
Proof. unfold published. intros ->. apply orb_true_r. Qed.

(** When [_publish_schema] returns, the credential type has its credential
    definition from before, or a ledger schema with a sequence number. *)
Lemma _publish_schema_Ok i k (st st' : @State W) :
  _publish_schema E i k st = (Ok (), st') → published_at i k (svc st').
Proof.
  intros H. unfold _publish_schema in H.
  rewrite bind_run, nth_agent_run in H.
  destruct (IndyService._agents (svc st) !! i) as [a|] eqn:Hi; [|done].
  rewrite bind_run, nth_cred_type_run, Hi in H.
  destruct (AgentCfg.cred_types a !! k) as [ct|] eqn:Hk; [|done].
  cbv zeta in H. apply bind_Ok_inv in H as (sj & st1 & _ & H).
  rewrite bind_run, nth_cred_type_run in H.
  destruct (IndyService._agents (svc st1) !! i) as [a1|] eqn:Hi1; [|done].
  destruct (AgentCfg.cred_types a1 !! k) as [ct1|] eqn:Hk1; [|done].
  destruct (truthy (CredType.cred_def ct1)) eqn:Hcd.
  - injection H as <-. exists ct1. split; [|by apply published_cred_def].
    unfold cred_type_at. by rewrite Hi1.
  - apply bind_Ok_inv in H as (cd & st2 & Hcatch & H).
    assert (svc st2 = svc st1) as Hsvc.
    { lazymatch type of Hcatch with
      | ?m _ = _ => assert (keeps (same (λ s, s)) m) as Hkeep by keeps_steps idtac
      end.
      specialize (Hkeep st1). by rewrite Hcatch in Hkeep. }
    destruct (jindex (CredType.ledger_schema ct1) "seqNo") as [seq|e] eqn:Hseq.
    + injection H as <-. exists (CredType.set_cred_def cd ct1). split.
      * unfold cred_type_at. simpl. rewrite Hsvc, list_lookup_alter.
        rewrite decide_True by done. rewrite Hi1. simpl.
        rewrite list_lookup_alter, decide_True by done. by rewrite Hk1.
      * unfold published. simpl. by rewrite (jindex_truthy _ _ _ Hseq).
    + assert (e = TypeError ∨ e = KeyError "seqNo") as He.
      { destruct (CredType.ledger_schema ct1) as [| | | | |items]; simpl in Hseq;
          try (injection Hseq as <-; by left).
        destruct (assoc "seqNo" items); [done|]. injection Hseq as <-. by right. }
      by destruct He as [-> | ->].
Qed.

Lemma _publish_schema_stable i k k' (st st' : @State W) :
  _publish_schema E i k' st = (Ok (), st') →
  published_at i k (svc st) → published_at i k (svc st').
Proof.
  intros H Hp. destruct (decide (k = k')) as [->|Hne].
  - by eapply _publish_schema_Ok.
  - pose proof (_publish_schema_other E i k k' Hne st) as Hkeep.
    rewrite H in Hkeep. unfold same in Hkeep. simpl in Hkeep.
    unfold published_at. by rewrite Hkeep.
Qed.

Lemma publish_loop i ks : ∀ (st st' : @State W),
  for_each (_publish_schema E i) ks st = (Ok (), st') →
  cred_type_count i (svc st') = cred_type_count i (svc st)
  ∧ ∀ k, k ∈ ks ∨ published_at i k (svc st) → published_at i k (svc st').
Proof.
  induction ks as [|k' ks IH]; intros st st' H; simpl in H.
  - injection H as <-. split; [done|]. by intros k [?%elem_of_nil|?].
  - apply bind_Ok_inv in H as ([] & st1 & H1 & H).
    destruct (IH _ _ H) as [Hcount Hpub]. split.
    + rewrite Hcount. pose proof (_publish_schema_count E i k' st) as Hkeep.
      by rewrite H1 in Hkeep.
    + intros k Hk. apply Hpub.
      destruct Hk as [[->|?]%elem_of_cons|?]; eauto using _publish_schema_Ok,
        _publish_schema_stable.
Qed.

Lemma catch_Ok_inv {A} (m : @M W A) h (st st' : @State W) a :
  catch m h st = (Ok a, st') →
  m st = (Ok a, st')
  ∨ ∃ e st1 k, m st = (Raise e, st1) ∧ h e = Some k ∧ k st1 = (Ok a, st').
Proof.
  unfold catch. destruct (m st) as [[a'|e] st1]; [by left|].
  destruct (h e) as [k|] eqn:He; [|done]. right. by exists e, st1, k.
Qed.

Lemma ext_Ok_inv c (st st' : @State W) reply :
  ext E c st = (Ok reply, st') →
  svc st' = svc st ∧ ∃ w', handle E c (world st) = (Ok reply, w').
Proof.
  unfold ext. destruct (handle E c (world st)) as [r w'] eqn:Hh.
  intros [= -> <-]. eauto.
Qed.

Lemma fully_in_order i k s : fully_at i k s → in_order_at i k s.
Proof. intros (ct & ? & ? & ?). exists ct. split; [done|]. by intros _. Qed.

Lemma cred_type_at_updated i k f s a ct :
  IndyService._agents s !! i = Some a →
  AgentCfg.cred_types a !! k = Some ct →
  cred_type_at i k
    (IndyService.set_agents
       (alter (λ a, AgentCfg.set_cred_types (alter f k (AgentCfg.cred_types a)) a)
              i (IndyService._agents s)) s)
  = Some (f ct).
Proof.
  intros Hi Hk. unfold cred_type_at. simpl.
  rewrite list_lookup_alter, decide_True, Hi by done. simpl.
  by rewrite list_lookup_alter, decide_True, Hk by done.
Qed.

(** With credential definitions that are never empty, a returning
    [_publish_schema] leaves both fields recorded. *)
Lemma _publish_schema_fully i k (st st' : @State W) :
  definitions_nonempty E →
  _publish_schema E i k st = (Ok (), st') →
  in_order_at i k (svc st) → fully_at i k (svc st').
Proof.
  intros Henv H (ct & Hct & Hord). unfold _publish_schema in H.
  unfold cred_type_at in Hct.
  rewrite bind_run, nth_agent_run in H.
  destruct (IndyService._agents (svc st) !! i) as [a|] eqn:Hi; [|done].
  simpl in Hct. rewrite bind_run, nth_cred_type_run, Hi, Hct in H.
  cbv zeta in H. apply bind_Ok_inv in H as (sj & st1 & Hblock & H).
  assert (∃ ct1, cred_type_at i k (svc st1) = Some ct1
                 ∧ CredType.cred_def ct1 = CredType.cred_def ct
                 ∧ (truthy (CredType.cred_def ct1) = true →
                    truthy (CredType.ledger_schema ct1) = true)
                 ∧ (sj = None → truthy (CredType.ledger_schema ct1) = true))
    as (ct1 & Hct1 & Hcd1 & Hord1 & Hsj).
  { destruct (truthy (CredType.ledger_schema ct)) eqn:Hls.
    - injection Hblock as <- <-. exists ct. unfold cred_type_at.
      split_and!; [by rewrite Hi|done..].
    - apply bind_Ok_inv in Hblock as (ls & sta & Hcatch & Hblock).
      assert (svc sta = svc st) as Hsvc.
      { lazymatch type of Hcatch with
        | ?m _ = _ => assert (keeps (same (λ s, s)) m) as Hkeep by keeps_steps idtac
        end.
        specialize (Hkeep st). by rewrite Hcatch in Hkeep. }
      apply bind_Ok_inv in Hblock as ([] & stb & Hupd & Hblock).
      injection Hblock as <- <-. injection Hupd as <-. simpl. rewrite Hsvc.
      exists (CredType.set_ledger_schema ls ct). split_and!; try done.
      + by eapply cred_type_at_updated.
      + simpl. intros Hcd. specialize (Hord Hcd). congruence. }
  rewrite bind_run, nth_cred_type_run in H. unfold cred_type_at in Hct1.
  destruct (IndyService._agents (svc st1) !! i) as [a1|] eqn:Hi1; [|done].
  simpl in Hct1. rewrite Hct1 in H.
  destruct (truthy (CredType.cred_def ct1)) eqn:Hcdt.
  - injection H as <-. exists ct1. split; [|by split; auto].
    unfold cred_type_at. by rewrite Hi1.
  - apply bind_Ok_inv in H as (cd & st2 & Hcatch & H).
    assert (svc st2 = svc st1) as Hsvc.
    { lazymatch type of Hcatch with
      | ?m _ = _ => assert (keeps (same (λ s, s)) m) as Hkeep by keeps_steps idtac
      end.
      specialize (Hkeep st1). by rewrite Hcatch in Hkeep. }
    injection H as <-. simpl. rewrite Hsvc.
    exists (CredType.set_cred_def cd ct1). split; [by eapply cred_type_at_updated|].
    destruct (jindex (CredType.ledger_schema ct1) "seqNo") as [seq|e] eqn:Hseq.
    + split; simpl; [by eapply jindex_truthy|].
      apply catch_Ok_inv in Hcatch as [Hin|(e & st1' & k' & Hin & He & Hk')].
      * rewrite bind_run in Hin. unfold lift in Hin.
        apply ext_Ok_inv in Hin as (_ & w' & Hh). apply (Henv _ _ _ _ Hh).
      * destruct e; try done. injection He as <-. destruct sj as [sjv|]; [|done].
        apply ext_Ok_inv in Hk' as (_ & w' & Hh). apply (Henv _ _ _ _ Hh).
    + assert (e = TypeError ∨ e = KeyError "seqNo") as He.
      { destruct (CredType.ledger_schema ct1) as [| | | | |items]; simpl in Hseq;
          try (injection Hseq as <-; by left).
        destruct (assoc "seqNo" items); [done|]. injection Hseq as <-. by right. }
      unfold catch in Hcatch. rewrite bind_run in Hcatch. unfold lift in Hcatch.
      by destruct He as [-> | ->].
Qed.

Lemma publish_loop_fully i ks : ∀ (st st' : @State W),
  definitions_nonempty E →
  for_each (_publish_schema E i) ks st = (Ok (), st') →
  ∀ k, (in_order_at i k (svc st) →
          in_order_at i k (svc st') ∧ (k ∈ ks → fully_at i k (svc st')))
       ∧ (fully_at i k (svc st) → fully_at i k (svc st')).
Proof.
  induction ks as [|k' ks IH]; intros st st' Henv H k; simpl in H.
  { injection H as <-. split; [|done]. split; [done|]. by intros ?%elem_of_nil. }
  apply bind_Ok_inv in H as ([] & st1 & H1 & H).
  destruct (IH _ _ Henv H k) as [IHo IHf].
  assert (in_order_at i k (svc st) → in_order_at i k (svc st1)
                                      ∧ (k = k' → fully_at i k (svc st1))) as Ho.
  { intros Hord. destruct (decide (k = k')) as [->|Hne].
    - pose proof (_publish_schema_fully _ _ _ _ Henv H1 Hord). split; [|done].
      by apply fully_in_order.
    - split; [|done]. pose proof (_publish_schema_other E i k k' Hne st) as Hkeep.
      rewrite H1 in Hkeep. unfold same in Hkeep. simpl in Hkeep.
      unfold in_order_at. by rewrite Hkeep. }
  assert (fully_at i k (svc st) → fully_at i k (svc st1)) as Hf.
  { intros Hfull. destruct (decide (k = k')) as [->|Hne].
    - eapply _publish_schema_fully; eauto using fully_in_order.
    - pose proof (_publish_schema_other E i k k' Hne st) as Hkeep.
      rewrite H1 in Hkeep. unfold same in Hkeep. simpl in Hkeep.
      unfold fully_at. by rewrite Hkeep. }
  split; [|by auto]. intros Hord. destruct (Ho Hord) as [Hord1 Hfull1].
  destruct (IHo Hord1) as [Hord' Hin]. split; [done|].
  intros [->|?]%elem_of_cons; auto.
Qed.

End Publication.

(** ** Synchronising an agent *)

(** Splits [H : (m ≫= k) st = (r, st')] into the run of [m] and the run of
    [k], and records that [m] kept the relation [R]. *)
Ltac bind_split H R tac a st1 :=
  lazymatch type of H with
  | (?m ≫= _) ?st = _ =>
      let Hk := fresh "Hkeep" in
      let Hm := fresh "Hrun" in
      let e := fresh "e" in
      assert (keeps R m) as Hk by (keeps_steps tac);
      specialize (Hk st);
      apply bind_inv in H as [(a & st1 & Hm & H)|(e & Hm & ->)];
      rewrite Hm in Hk; unfold same in Hk; cbn [fst snd] in Hk
  end.

Section SyncAgent.

Context {W : Type} (E : Env W).

(** C3.  When [_sync_agent] turns the [synced] flag of an agent from false
    to true, it returns true, the publication step has returned for every
    credential type of the agent just before the flag was set, and no
    credential type lacks both its ledger schema and its credential
    definition.  When, moreover, the ledger agent never hands out an empty
    credential definition and no credential type started with a credential
    definition but no ledger schema, every credential type ends with both
    fields recorded. *)
Theorem sync_agent_synced_only_after_publication i (st st' : @State W) r a a' :
  IndyService._agents (svc st) !! i = Some a →
  AgentCfg.synced a = false →
  _sync_agent E i st = (r, st') →
  IndyService._agents (svc st') !! i = Some a' →
  AgentCfg.synced a' = true →
  r = Ok true
  ∧ Forall (λ ct, published ct = true) (AgentCfg.cred_types a')
  ∧ (∃ st2 st3,
       for_each (_publish_schema E i) (seq 0 (length (AgentCfg.cred_types a'))) st2
         = (Ok (), st3)
       ∧ st' = BuildState
                 (IndyService.set_agents
                    (alter (AgentCfg.set_synced true) i (IndyService._agents (svc st3)))
                    (svc st3))
                 (world st3) (trace st3))
  ∧ (definitions_nonempty E →
     Forall schema_before_definition (AgentCfg.cred_types a) →
     Forall fully_published (AgentCfg.cred_types a')).
Proof.
  intros Hi Hun H Hi' Hs'.
  assert (agent_view i (svc st) = Some (false, AgentCfg.cred_types a)) as H0
    by (unfold agent_view; by rewrite Hi, <- Hun).
  assert (agent_view i (svc st') = Some (true, AgentCfg.cred_types a')) as H1
    by (unfold agent_view; by rewrite Hi', <- Hs').
  unfold _sync_agent in H. rewrite bind_run, nth_agent_run, Hi, Hun in H.
  bind_split H (same (agent_view i)) same_field ready st1; [|congruence].
  rewrite <- Hkeep in H0. clear Hkeep Hrun.
  destruct ready; simpl in H; [|injection H as <- <-; congruence].
  bind_split H (same (agent_view i)) same_field u st2; [|congruence].
  rewrite <- Hkeep in H0. clear Hkeep Hrun.
  rewrite bind_run, nth_agent_run in H.
  destruct (IndyService._agents (svc st2) !! i) as [a2|];
    [|injection H as <- <-; congruence].
  bind_split H (same (agent_view i)) same_field u' st3; [|congruence].
  rewrite <- Hkeep in H0. clear Hkeep Hrun.
  rewrite bind_run, nth_agent_run in H.
  unfold agent_view in H0, H1.
  destruct (IndyService._agents (svc st3) !! i) as [a3|] eqn:Hi3; [|done].
  injection H0 as Hs3 Hcts3.
  bind_split H (same (synced_at i)) same_field u'' st4.
  2:{ unfold synced_at in Hkeep. rewrite Hi', Hi3 in Hkeep. simpl in Hkeep.
      congruence. }
  destruct u''. destruct (publish_loop E i _ _ _ Hrun) as [Hcount Hpub].
  unfold update_agent in H. rewrite bind_run in H. unfold modify in H.
  rewrite bind_run, nth_agent_run in H. simpl in H.
  rewrite list_lookup_alter, decide_True in H by done.
  unfold synced_at in Hkeep. rewrite Hi3 in Hkeep.
  destruct (IndyService._agents (svc st4) !! i) as [a4|] eqn:Hi4; [|done].
  simpl in H. injection H as <- <-. simpl in Hi'.
  rewrite list_lookup_alter, decide_True, Hi4 in Hi' by done.
  injection Hi' as <-. simpl.
  assert (length (AgentCfg.cred_types a4) = length (AgentCfg.cred_types a3)) as Hlen.
  { unfold cred_type_count in Hcount. rewrite Hi3, Hi4 in Hcount. by injection Hcount. }
  split; [done|]. split_and!.
  - apply Forall_forall. intros ct [k Hk]%list_elem_of_lookup.
    destruct (Hpub k) as (ct' & Hct' & Hp).
    { left. apply elem_of_seq. apply lookup_lt_Some in Hk. lia. }
    unfold cred_type_at in Hct'. rewrite Hi4 in Hct'. simpl in Hct'. congruence.
  - exists st3, st4. by rewrite Hlen.
  - intros Henv Hord. apply Forall_forall. intros ct [k Hk]%list_elem_of_lookup.
    assert (k < length (AgentCfg.cred_types a3)) as Hlt
      by (apply lookup_lt_Some in Hk; lia).
    destruct (lookup_lt_is_Some_2 _ _ Hlt) as [ct0 Hct0].
    destruct (publish_loop_fully E i _ _ _ Henv Hrun k) as [Hfull _].
    destruct Hfull as [_ Hfull].
    { exists ct0. unfold cred_type_at. rewrite Hi3. split; [done|].
      rewrite Forall_forall in Hord. apply Hord. rewrite <- Hcts3.
      by eapply list_elem_of_lookup_2. }
    destruct Hfull as (ct' & Hct' & Hfull); [apply elem_of_seq; lia|].
    unfold cred_type_at in Hct'. rewrite Hi4 in Hct'. simpl in Hct'. congruence.
Qed.

End SyncAgent.

(** ** The convergence pass *)

Section Pass.

Context {W : Type} (E : Env W).

Lemma _setup_pool_catalogues : keeps (same catalogues) (_setup_pool E).
Proof. keeps_steps same_refl. Qed.

Lemma create_wallets_catalogues : keeps (same catalogues) (create_wallets E).
Proof. keeps_steps same_refl. Qed.

Lemma sync_each_run (body : nat → @M W bool) xs ys b st :
  sync_each body (xs ++ ys) b st =
    match sync_each body xs b st with
    | (Ok b', st') => sync_each body ys b' st'
    | (Raise e, st') => (Raise e, st')
    end.
Proof.
  revert b st. induction xs as [|x xs IH]; intros b st; simpl; [done|].
  rewrite !bind_run. destruct (body x st) as [[ok|e] st1]; [apply IH|done].
Qed.

(** A sweep that stops at position [k], in range, where the body raises. *)
Lemma sync_each_stops (body : nat → @M W bool) n k b b' e (st st2 st3 : @State W) :
  k < n →
  sync_each body (seq 0 k) b st = (Ok b', st2) →
  body k st2 = (Raise e, st3) →
  sync_each body (seq 0 n) b st = (Raise e, st3).
Proof.
  intros Hk Hbefore Hbody. replace n with (k + S (n - S k)) by lia.
  rewrite seq_app, sync_each_run, Hbefore. simpl. by rewrite bind_run, Hbody.
Qed.

(** A sweep over the first [k] entries of a catalogue, each step touching
    its own entry only, leaves the entries from [k] on alone. *)
Lemma sweep_from_on {A} (cat : IndyService.t → list A) (body : nat → @M W bool) :
  (∀ i, keeps (others_at cat i) (body i)) →
  ∀ k b st, from_on cat k (svc st) (svc (sync_each body (seq 0 k) b st).2).
Proof.
  intros Hbody. induction k as [|k IH]; intros b st; [simpl; reflexivity|].
  rewrite seq_S, sync_each_run. simpl. specialize (IH b st).
  destruct (sync_each _ (seq 0 k) b st) as [[b'|e] st1]; simpl in *.
  - rewrite bind_run. pose proof (Hbody k st1) as Hk.
    assert (from_on cat (S k) (svc st) (svc (body k st1).2)) as Hgoal.
    { etransitivity; [eapply from_on_weaken; [|exact IH]; lia|].
      eapply others_at_from_on; [|exact Hk]. lia. }
    by destruct (body k st1) as [[ok|e] st2].
  - eapply from_on_weaken; [|exact IH]. lia.
Qed.

Lemma sweep_agents k b (st : @State W) :
  from_on IndyService._agents k (svc st)
          (svc (sync_each (_sync_agent E) (seq 0 k) b st).2)
  ∧ beside_agents (svc (sync_each (_sync_agent E) (seq 0 k) b st).2)
    = beside_agents (svc st).
Proof.
  split.
  - apply sweep_from_on. intros i.
    eapply keeps_weaken; [|apply _sync_agent_frame]. by intros s s' [_ ?].
  - apply (keeps_sync_each (same beside_agents)). intros i.
    eapply keeps_weaken; [|apply _sync_agent_frame]. by intros s s' [? _].
Qed.

Lemma sweep_connections k b (st : @State W) :
  from_on IndyService._connections k (svc st)
          (svc (sync_each (_sync_connection E) (seq 0 k) b st).2)
  ∧ beside_connections (svc (sync_each (_sync_connection E) (seq 0 k) b st).2)
    = beside_connections (svc st).
Proof.
  split.
  - apply sweep_from_on. intros i.
    eapply keeps_weaken; [|apply _sync_connection_frame]. by intros s s' [_ ?].
  - apply (keeps_sync_each (same beside_connections)). intros i.
    eapply keeps_weaken; [|apply _sync_connection_frame]. by intros s s' [? _].
Qed.

Lemma sweep_proof_specs k b (st : @State W) :
  from_on IndyService._proof_specs k (svc st)
          (svc (sync_each (_sync_proof_spec (W:=W)) (seq 0 k) b st).2).
Proof.
  apply sweep_from_on. intros i.
  eapply keeps_weaken; [|apply _sync_proof_spec_frame]. by intros s s' [_ ?].
Qed.

Lemma sync_at_frame pos : keeps (only_at pos) (sync_at E pos).
Proof.
  destruct pos; simpl;
    [apply _sync_agent_frame|apply _sync_connection_frame|apply _sync_proof_spec_frame].
Qed.

(** C1 (amended).  An error raised while an entity is synced is not
    contained: it leaves [_service_sync] and ends the pass there.  The
    entities that the sweep reaches later (the agents, connections and proof
    specifications after it) are as they were before the pass: their sync
    is not attempted.  The sync that raised changed nothing but its own
    entity, so the entities swept before it keep the state they reached. *)
Theorem service_sync_stops_at_first_error pos (st st2 st3 : @State W) b e :
  pass_until E pos st = (Ok b, st2) →
  in_range pos (svc st2) →
  sync_at E pos st2 = (Raise e, st3) →
  _service_sync E st = (Raise e, st3)
  ∧ later_untouched pos (svc st) (svc st3)
  ∧ only_at pos (svc st2) (svc st3).
Proof.
  intros Hpass Hrange Hsync.
  pose proof (sync_at_frame pos st2) as Honly. rewrite Hsync in Honly. simpl in Honly.
  split_and!; [| |done].
  - unfold pass_until in Hpass. unfold _service_sync.
    apply bind_Ok_inv in Hpass as ([] & sa & Hpool & Hpass).
    apply bind_Ok_inv in Hpass as ([] & sb & Hwallets & Hpass).
    rewrite (bind_Ok _ _ _ _ _ Hpool), (bind_Ok _ _ _ _ _ Hwallets).
    rewrite bind_run. cbn [gets]. destruct pos as [k|c|p]; simpl in Hrange, Hsync.
    + pose proof (sweep_agents k true sb) as [[Hlen _] _]. rewrite Hpass in Hlen.
      simpl in Hlen. rewrite bind_run.
      rewrite <- Hlen. by rewrite (sync_each_stops _ _ _ _ _ _ _ _ _ Hrange Hpass Hsync).
    + rewrite bind_run in Hpass. cbn [gets] in Hpass.
      apply bind_Ok_inv in Hpass as (b1 & sc & Hagents & Hpass).
      rewrite (bind_Ok _ _ _ _ _ Hagents). rewrite bind_run. cbn [gets].
      pose proof (sweep_connections c b1 sc) as [[Hlen _] _]. rewrite Hpass in Hlen.
      simpl in Hlen. rewrite bind_run.
      rewrite <- Hlen. by rewrite (sync_each_stops _ _ _ _ _ _ _ _ _ Hrange Hpass Hsync).
    + rewrite bind_run in Hpass. cbn [gets] in Hpass.
      apply bind_Ok_inv in Hpass as (b1 & sc & Hagents & Hpass).
      rewrite (bind_Ok _ _ _ _ _ Hagents). rewrite bind_run. cbn [gets].
      rewrite bind_run in Hpass. cbn [gets] in Hpass.
      apply bind_Ok_inv in Hpass as (b2 & sd & Hconns & Hpass).
      rewrite (bind_Ok _ _ _ _ _ Hconns). rewrite bind_run. cbn [gets].
      pose proof (sweep_proof_specs p b2 sd) as [Hlen _]. rewrite Hpass in Hlen.
      simpl in Hlen. rewrite bind_run.
      rewrite <- Hlen. by rewrite (sync_each_stops _ _ _ _ _ _ _ _ _ Hrange Hpass Hsync).
  - unfold pass_until in Hpass.
    apply bind_Ok_inv in Hpass as ([] & sa & Hpool & Hpass).
    apply bind_Ok_inv in Hpass as ([] & sb & Hwallets & Hpass).
    pose proof (_setup_pool_catalogues st) as Hc1. rewrite Hpool in Hc1.
    pose proof (create_wallets_catalogues sa) as Hc2. rewrite Hwallets in Hc2.
    unfold same, catalogues in Hc1, Hc2. simpl in Hc1, Hc2.
    injection Hc1 as Ha1 Hn1 Hp1. injection Hc2 as Ha2 Hn2 Hp2.
    destruct pos as [k|c|p]; simpl in Honly |- *.
    + pose proof (sweep_agents k true sb) as [[_ Hfrom] Hbeside].
      rewrite Hpass in Hfrom, Hbeside. simpl in Hfrom, Hbeside.
      destruct Honly as (Hb & _ & Hj). unfold beside_agents in Hb, Hbeside.
      split_and!; [|congruence..].
      intros j Hkj. rewrite Hj, Hfrom by lia. congruence.
    + rewrite bind_run in Hpass. cbn [gets] in Hpass.
      apply bind_Ok_inv in Hpass as (b1 & sc & Hagents & Hpass).
      pose proof (sweep_agents (length (IndyService._agents (svc sb))) true sb)
        as [_ Hbeside].
      rewrite Hagents in Hbeside. simpl in Hbeside.
      pose proof (sweep_connections c b1 sc) as [[_ Hfrom] Hbesidec].
      rewrite Hpass in Hfrom, Hbesidec. simpl in Hfrom, Hbesidec.
      destruct Honly as (Hb & _ & Hj).
      unfold beside_agents, beside_connections in *.
      split; [|congruence].
      intros j Hcj. rewrite Hj, Hfrom by lia. congruence.
    + rewrite bind_run in Hpass. cbn [gets] in Hpass.
      apply bind_Ok_inv in Hpass as (b1 & sc & Hagents & Hpass).
      rewrite bind_run in Hpass. cbn [gets] in Hpass.
      apply bind_Ok_inv in Hpass as (b2 & sd & Hconns & Hpass).
      pose proof (sweep_agents (length (IndyService._agents (svc sb))) true sb)
        as [_ Hbeside].
      rewrite Hagents in Hbeside. simpl in Hbeside.
      pose proof (sweep_connections (length (IndyService._connections (svc sc))) b1 sc)
        as [_ Hbesidec].
      rewrite Hconns in Hbesidec. simpl in Hbesidec.
      pose proof (sweep_proof_specs p b2 sd) as [_ Hfrom].
      rewrite Hpass in Hfrom. simpl in Hfrom.
      destruct Honly as (_ & _ & Hj).
      unfold beside_agents, beside_connections in *.
      intros j Hpj. rewrite Hj, Hfrom by lia. congruence.
Qed.

End Pass.

(** ** The pass on concrete services *)

Lemma service_sync_stops_at_first_error_witness :
  _service_sync stub two_agents = (Raise unregistered_error, two_agents_stopped)
  ∧ later_untouched (AtAgent 0) (svc two_agents) (svc two_agents_stopped)
  ∧ only_at (AtAgent 0) (svc two_agents) (svc two_agents_stopped).
Proof.
  apply (service_sync_stops_at_first_error stub (AtAgent 0) two_agents two_agents
           two_agents_stopped true unregistered_error);
    [reflexivity|simpl; lia|vm_compute; reflexivity].
Defined.

(** C1, as stated, fails.  The first agent raises; the holder after it needs
    nothing from it and would reach [synced] on its own, yet the pass never
    opens it nor makes any call for it. *)
Lemma service_sync_skips_later_agents :
  _service_sync stub two_agents = (Raise unregistered_error, two_agents_stopped)
  ∧ IndyService._agents (svc two_agents_stopped) !! 1 = Some (new_agent "holder-1" holder)
  ∧ trace two_agents_stopped
    = [AgentOpen "unregistered"; GetNym "unregistered" (Some "did:wallet-1")]
  ∧ (_sync_agent stub 1 two_agents_stopped).1 = Ok true.
Proof. vm_compute. repeat split; reflexivity. Qed.

(** ** Publication on concrete services *)

Lemma publish_without_seq_no_is_sync_error_witness :
  _publish_schema stub 0 0 noseq_ready =
    (Raise (ServiceSyncError "Schema was not published to ledger"),
     BuildState (svc noseq_ready) ()
       [GetSchema "issuer-noseq" (Some "did:wallet-1") "degree" (Some "1.0");
        SendSchema "issuer-noseq" degree_json])
  ∧ cred_type_at 0 0 (svc noseq_ready) = Some (CredType.Build degree JNull JNull []).
Proof.
  apply (publish_without_seq_no_is_sync_error stub 0 0 noseq_ready
           (ready_agent "issuer-noseq" [CredType.Build degree JNull JNull []])
           (CredType.Build degree JNull JNull []) ["name"; "year"]
           (JObj [("id", JStr "schema-7"); ("data", degree_json)]) () ());
    try reflexivity.
  right. eexists. split; reflexivity.
Defined.

Lemma sync_agent_synced_only_after_publication_witness :
  (Ok true : result bool) = Ok true
  ∧ Forall (λ ct, published ct = true) (AgentCfg.cred_types good_issuer_synced)
  ∧ (∃ st2 st3,
       for_each (_publish_schema stub 0)
                (seq 0 (length (AgentCfg.cred_types good_issuer_synced))) st2
         = (Ok (), st3)
       ∧ (_sync_agent stub 0 good_issuer).2
         = BuildState
             (IndyService.set_agents
                (alter (AgentCfg.set_synced true) 0 (IndyService._agents (svc st3)))
                (svc st3))
             (world st3) (trace st3))
  ∧ (definitions_nonempty stub →
     Forall schema_before_definition [CredType.Build degree JNull JNull []] →
     Forall fully_published (AgentCfg.cred_types good_issuer_synced)).
Proof.
  apply (sync_agent_synced_only_after_publication stub 0 good_issuer
           (_sync_agent stub 0 good_issuer).2 (Ok true)
           (AgentCfg.set_cred_types [CredType.Build degree JNull JNull []]
              (new_agent "issuer-1" issuer))
           good_issuer_synced); vm_compute; reflexivity.
Defined.

(** The stub never hands out an empty credential definition. *)
Lemma stub_definitions_nonempty : definitions_nonempty stub.
Proof.
  intros c w reply w'. destruct c; try done; simpl. by intros [= <- _].
Qed.

Section Republication.

Context {W : Type} (E : Env W).

(** Re-running [_publish_schema] on a credential type whose ledger schema is
    recorded while its credential definition is neither recorded nor on the
    ledger: the schema is not submitted again, but the credential definition
    is not submitted either; reading [schema_json], which this run never
    bound, raises [UnboundLocalError]. *)
Lemma publish_recorded_schema_unbound i k (st : @State W) issuer_cfg cred_type seq_no w1 :
  IndyService._agents (svc st) !! i = Some issuer_cfg →
  AgentCfg.cred_types issuer_cfg !! k = Some cred_type →
  truthy (CredType.ledger_schema cred_type) = true →
  truthy (CredType.cred_def cred_type) = false →
  jindex (CredType.ledger_schema cred_type) "seqNo" = Ok seq_no →
  handle E (GetCredDef (AgentCfg.agent_id issuer_cfg) (AgentCfg.did issuer_cfg) seq_no)
         (world st) = (Raise AbsentCredDef, w1) →
  _publish_schema E i k st =
    (Raise (UnboundLocalError "schema_json"),
     BuildState (svc st) w1
       (trace st ++ [GetCredDef (AgentCfg.agent_id issuer_cfg)
                                (AgentCfg.did issuer_cfg) seq_no])).
Proof.
  intros Hi Hk Hls Hcd Hseq Hget. unfold _publish_schema.
  rewrite bind_run, nth_agent_run, Hi. rewrite bind_run, nth_cred_type_run, Hi, Hk.
  cbv zeta. rewrite Hls. rewrite bind_run. cbn [mret M_ret].
  rewrite bind_run, nth_cred_type_run, Hi, Hk. rewrite Hcd.
  rewrite bind_run. unfold catch. rewrite bind_run. unfold lift. rewrite Hseq.
  unfold ext. by rewrite Hget.
Qed.

(** The other way in which the schema can be known: it is not recorded, but
    the ledger has it.  Then the run records it and submits the credential
    definition, and only that. *)
Lemma publish_schema_on_ledger i k (st : @State W) issuer_cfg cred_type ledger_schema
    seq_no cred_def w1 w2 w3 :
  let id := AgentCfg.agent_id issuer_cfg in
  let did := AgentCfg.did issuer_cfg in
  let definition := CredType.definition cred_type in
  let calls := [GetSchema id did (SchemaCfg.name definition) (SchemaCfg.version definition);
                GetCredDef id did seq_no; SendCredDef id ledger_schema] in
  IndyService._agents (svc st) !! i = Some issuer_cfg →
  AgentCfg.cred_types issuer_cfg !! k = Some cred_type →
  truthy (CredType.ledger_schema cred_type) = false →
  truthy (CredType.cred_def cred_type) = false →
  handle E (GetSchema id did (SchemaCfg.name definition) (SchemaCfg.version definition))
         (world st) = (Ok ledger_schema, w1) →
  jindex ledger_schema "seqNo" = Ok seq_no →
  handle E (GetCredDef id did seq_no) w1 = (Raise AbsentCredDef, w2) →
  handle E (SendCredDef id ledger_schema) w2 = (Ok cred_def, w3) →
  ∃ s', _publish_schema E i k st = (Ok (), BuildState s' w3 (trace st ++ calls))
        ∧ cred_type_at i k s'
          = Some (CredType.Build definition ledger_schema cred_def
                                 (CredType.params cred_type)).
Proof.
  intros id did definition calls Hi Hk Hls Hcd Hget Hseq Hgetcd Hsend.
  eexists. unfold _publish_schema.
  rewrite bind_run, nth_agent_run, Hi. rewrite bind_run, nth_cred_type_run, Hi, Hk.
  cbv zeta. rewrite Hls. rewrite bind_run. rewrite (bind_run (catch _ _)).
  unfold catch at 1. unfold ext at 1. fold id did definition. rewrite Hget.
  cbn [svc world trace]. rewrite bind_run.
  unfold update_cred_type, update_agent, modify. cbn [svc world trace mret M_ret].
  rewrite bind_run, nth_cred_type_run.
  cbn [svc world trace IndyService._agents IndyService.set_agents].
  rewrite list_lookup_alter, decide_True, Hi by done. cbn [fmap option_fmap option_map].
  cbn [AgentCfg.cred_types AgentCfg.set_cred_types].
  rewrite list_lookup_alter, decide_True, Hk by done. cbn [fmap option_fmap option_map].
  cbn [CredType.cred_def CredType.ledger_schema CredType.set_ledger_schema].
  rewrite Hcd. rewrite bind_run. unfold catch. rewrite bind_run. unfold lift.
  rewrite Hseq. unfold ext. cbn [svc world trace]. rewrite Hgetcd.
  cbn [svc world trace]. rewrite Hsend. cbn [svc world trace].
  rewrite <- !app_assoc. split; [reflexivity|].
  unfold cred_type_at. cbn.
  rewrite !list_lookup_alter, !decide_True, Hi by done. cbn.
  rewrite !list_lookup_alter, !decide_True, Hk by done. done.
Qed.

End Republication.

(** C2 fails on the code.  The first pass publishes the schema and is
    interrupted when the credential-definition submission times out: the
    ledger schema is recorded, the credential definition is not.  The next
    pass does not submit the schema again, but it does not publish the
    credential definition either: it raises [UnboundLocalError] after the
    lookup, although the ledger would now accept the submission, and so
    does every later pass. *)
Theorem republish_after_interruption_raises :
  (_sync_agent flaky 0 interrupted_0).1 = Raise (ExternalError "timed out")
  ∧ cred_type_at 0 0 (svc interrupted_1)
    = Some (CredType.Build degree degree_on_ledger JNull [])
  ∧ world interrupted_1 = false
  ∧ (_sync_agent flaky 0 interrupted_1).1 = Raise (UnboundLocalError "schema_json")
  ∧ trace interrupted_2
    = trace interrupted_1 ++ [GetCredDef "issuer-1" (Some "did:wallet-1") (JNum 7)]
  ∧ svc interrupted_2 = svc interrupted_1
  ∧ (_sync_agent flaky 0 interrupted_2).1 = Raise (UnboundLocalError "schema_json").
Proof. vm_compute. repeat split; reflexivity. Qed.

(** ** Issuing a credential *)

Lemma find_matching_none wanted cred_types :
  Forall (λ ct, SchemaCfg.compare (CredType.definition ct) wanted = false) cred_types →
  AgentCfg.find_matching wanted cred_types = None.
Proof. induction 1 as [|ct l Hct _ IH]; simpl; [done|]. by rewrite Hct. Qed.

Lemma find_matching_first wanted l1 ct l2 :
  Forall (λ ct, SchemaCfg.compare (CredType.definition ct) wanted = false) l1 →
  SchemaCfg.compare (CredType.definition ct) wanted = true →
  AgentCfg.find_matching wanted (l1 ++ ct :: l2) = Some ct.
Proof.
  intros Hl1 Hct. induction Hl1 as [|ct' l Hct' _ IH]; simpl.
  - by rewrite Hct.
  - by rewrite Hct'.
Qed.

Section Issuing.

Context {W : Type} (E : Env W).

(** C8 (amended).  On a synced connection of a synced issuer,
    [_issue_credential] raises the configuration error "Could not locate
    credential type", before any call, when no bound credential type
    [compare]s with the requested name, version and origin DID, absent
    fields matching anything; otherwise it goes through the four steps with
    the first bound credential type that does. *)
Theorem issue_credential_locates_by_compare (st : @State W) connection_id schema_name
    schema_version origin_did cred_data conn issuer_cfg :
  lookup_by ConnectionCfg.connection_id connection_id
            (IndyService._connections (svc st)) = Some conn →
  ConnectionCfg.synced conn = true →
  lookup_by AgentCfg.agent_id (ConnectionCfg.agent_id conn)
            (IndyService._agents (svc st)) = Some issuer_cfg →
  AgentCfg.agent_type issuer_cfg = issuer →
  AgentCfg.synced issuer_cfg = true →
  (Forall (λ ct, SchemaCfg.compare (CredType.definition ct)
                   (SchemaCfg.Build schema_name schema_version [] origin_did) = false)
          (AgentCfg.cred_types issuer_cfg) →
   _issue_credential E connection_id schema_name schema_version origin_did cred_data st
     = (Raise (IndyConfigError "Could not locate credential type"), st))
  ∧ (∀ l1 ct l2,
       AgentCfg.cred_types issuer_cfg = l1 ++ ct :: l2 →
       Forall (λ ct, SchemaCfg.compare (CredType.definition ct)
                       (SchemaCfg.Build schema_name schema_version [] origin_did) = false)
              l1 →
       SchemaCfg.compare (CredType.definition ct)
                         (SchemaCfg.Build schema_name schema_version [] origin_did) = true →
       _issue_credential E connection_id schema_name schema_version origin_did cred_data st
         = issue_steps E conn issuer_cfg ct cred_data st).
Proof.
  intros Hconn Hcs Hissuer Htype Hsynced.
  assert (∀ o,
    AgentCfg.find_credential_type issuer_cfg schema_name schema_version origin_did = o →
    _issue_credential E connection_id schema_name schema_version origin_did cred_data st
    = match o with
      | None => (Raise (IndyConfigError "Could not locate credential type"), st)
      | Some ct => issue_steps E conn issuer_cfg ct cred_data st
      end) as Hrun.
  { intros o <-. unfold _issue_credential. rewrite bind_run. cbn [gets]. rewrite Hconn, Hcs.
    cbn [negb]. rewrite bind_run. cbn [gets svc]. rewrite Hissuer, Htype, Hsynced.
    rewrite bool_decide_eq_false_2 by (by intros ?). cbn [negb].
    by destruct (AgentCfg.find_credential_type _ _ _ _). }
  split.
  - intros Hnone. apply (Hrun None). by apply find_matching_none.
  - intros l1 ct l2 Hcts Hl1 Hct. apply (Hrun (Some ct)).
    unfold AgentCfg.find_credential_type. rewrite Hcts. by apply find_matching_first.
Qed.

Lemma _store_credential_Ok holder_id credential (st st' : @State W) stored :
  _store_credential E holder_id credential st = (Ok stored, st') →
  stored_cred stored = credential
  ∧ stored_result stored = JObj [("attributes", cred_data credential)].
Proof.
  unfold _store_credential. intros (holder_cfg & st1 & _ & H)%bind_Ok_inv.
  unfold with_instance in H. destruct (AgentCfg._instance holder_cfg); [|done].
  apply bind_Ok_inv in H as (id & st2 & _ & H). by injection H as <- _.
Qed.

Lemma _create_cred_Ok issuer_cfg request_ data (st st' : @State W) cred :
  _create_cred E issuer_cfg request_ data st = (Ok cred, st') →
  ∃ reply revoc w,
    handle E (CreateCred (AgentCfg.agent_id issuer_cfg) (offer (cred_offer request_))
                         (request_data request_) data) (world st) = (Ok reply, w)
    ∧ unpack2 reply = Ok (cred_data cred, revoc).
Proof.
  unfold _create_cred, with_instance. destruct (AgentCfg._instance issuer_cfg); [|done].
  intros (reply & st1 & Hext & H)%bind_Ok_inv.
  apply bind_Ok_inv in H as ([payload revoc] & st2 & Hun & H).
  injection H as <- _. unfold lift in Hun. injection Hun as Hun _.
  unfold ext in Hext. destruct (handle E _ (world st)) as [r w] eqn:Hh.
  injection Hext as -> _. by exists reply, revoc, w.
Qed.

(** C9 (amended).  When the four steps complete with a local holder, the
    flattened view of the stored credential is [{"attributes": c}] where
    [c] is the credential payload that the issuer's [create_cred] returned
    for the raw attribute values: the view wraps the signed credential, not
    the values themselves. *)
Theorem stored_view_wraps_issued_credential (st st' : @State W) connection_id schema_name
    schema_version origin_did raw_values conn stored :
  lookup_by ConnectionCfg.connection_id connection_id
            (IndyService._connections (svc st)) = Some conn →
  ConnectionCfg.connection_type conn = holder_connection →
  _issue_credential E connection_id schema_name schema_version origin_did raw_values st
    = (Ok stored, st') →
  stored_result stored = JObj [("attributes", cred_data (stored_cred stored))]
  ∧ ∃ issuer_id offer_ request_ w w' reply revoc,
      handle E (CreateCred issuer_id offer_ request_ raw_values) w = (Ok reply, w')
      ∧ unpack2 reply = Ok (cred_data (stored_cred stored), revoc).
Proof.
  intros Hconn Hkind H. unfold _issue_credential in H.
  rewrite bind_run in H. cbn [gets] in H. rewrite Hconn in H.
  destruct (ConnectionCfg.synced conn); cbn [negb] in H; [|done].
  rewrite bind_run in H. cbn [gets] in H.
  destruct (lookup_by AgentCfg.agent_id _ _) as [issuer_cfg|]; [|done].
  case_bool_decide; [done|]. destruct (AgentCfg.synced issuer_cfg); cbn [negb] in H; [|done].
  destruct (AgentCfg.find_credential_type _ _ _ _) as [cred_type|]; [|done].
  unfold issue_steps in H.
  apply bind_Ok_inv in H as (cred_offer_ & st1 & _ & H).
  apply bind_Ok_inv in H as (cred_request & st2 & _ & H).
  apply bind_Ok_inv in H as (cred & st3 & Hcred & H).
  apply bind_Ok_inv in H as (stored' & st4 & Hstore & H).
  injection H as -> _.
  unfold with_instance_of, store_credential in Hstore. rewrite Hkind in Hstore.
  destruct (ConnectionCfg._instance conn); [|done].
  apply _store_credential_Ok in Hstore as [-> ->]. split; [done|].
  apply _create_cred_Ok in Hcred as (reply & revoc & w & Hh & Hun).
  by exists (AgentCfg.agent_id issuer_cfg), (offer (cred_offer cred_request)),
            (request_data cred_request), (world st2), w, reply, revoc.
Qed.

End Issuing.

Lemma issue_credential_locates_by_compare_witness :
  (Forall (λ ct, SchemaCfg.compare (CredType.definition ct)
                   (SchemaCfg.Build "degree" (Some "1.0") [] None) = false)
          [published_degree] →
   _issue_credential stub "conn-1" "degree" (Some "1.0") None alice issuing
     = (Raise (IndyConfigError "Could not locate credential type"), issuing))
  ∧ (∀ l1 ct l2,
       [published_degree] = l1 ++ ct :: l2 →
       Forall (λ ct, SchemaCfg.compare (CredType.definition ct)
                       (SchemaCfg.Build "degree" (Some "1.0") [] None) = false) l1 →
       SchemaCfg.compare (CredType.definition ct)
                         (SchemaCfg.Build "degree" (Some "1.0") [] None) = true →
       _issue_credential stub "conn-1" "degree" (Some "1.0") None alice issuing
         = issue_steps stub holder_conn
             (synced_agent_cfg "issuer-1" issuer [published_degree]) ct alice issuing).
Proof.
  apply (issue_credential_locates_by_compare stub issuing "conn-1" "degree" (Some "1.0")
           None alice holder_conn (synced_agent_cfg "issuer-1" issuer [published_degree]));
    reflexivity.
Defined.

(** C8, as stated, fails.  The issuer is bound to [degree 1.0] with no
    origin DID.  A request for [degree] of any version from the origin
    [did:elsewhere], and one for [degree 1.0] from that origin, name a key
    that no bound credential type has; both are served. *)
Lemma issue_credential_accepts_inexact_key :
  Forall (λ ct, SchemaCfg.version (CredType.definition ct) ≠ None
                ∧ SchemaCfg.origin_did (CredType.definition ct) ≠ Some "did:elsewhere")
         [published_degree]
  ∧ is_ok (_issue_credential stub "conn-1" "degree" None (Some "did:elsewhere")
                             alice issuing).1 = true
  ∧ is_ok (_issue_credential stub "conn-1" "degree" (Some "1.0") (Some "did:elsewhere")
                             alice issuing).1 = true.
Proof. split; [by repeat constructor|]. vm_compute. by split. Qed.

Lemma stored_view_wraps_issued_credential_witness :
  stored_result
    {| cred_id := JStr "cred-1";
       stored_cred :=
         {| cred_schema_name := "degree";
            issuer_did := Some "did:wallet-1";
            cred_data := JObj [("schema_id", JStr "schema-7");
                               ("values", signed_values alice)];
            cred_cred_def := JObj [("id", JStr "creddef-7")];
            cred_req_metadata := JObj [("nonce", JStr "1")];
            cred_revoc_id := JNull |};
       stored_result :=
         JObj [("attributes", JObj [("schema_id", JStr "schema-7");
                                    ("values", signed_values alice)])] |}
  = JObj [("attributes", JObj [("schema_id", JStr "schema-7");
                               ("values", signed_values alice)])]
  ∧ ∃ issuer_id offer_ request_ w w' reply revoc,
      handle stub (CreateCred issuer_id offer_ request_ alice) w = (Ok reply, w')
      ∧ unpack2 reply = Ok (JObj [("schema_id", JStr "schema-7");
                                  ("values", signed_values alice)], revoc).
Proof.
  apply (stored_view_wraps_issued_credential stub issuing
           (_issue_credential stub "conn-1" "degree" (Some "1.0") None alice issuing).2
           "conn-1" "degree" (Some "1.0") None alice holder_conn); reflexivity.
Defined.

(** C9, as stated, fails: issuing [degree 1.0] with the values of Alice
    through the local holder stores a credential whose flattened view holds
    the signed credential, which is not the dict of the raw values. *)
Lemma issued_view_is_not_the_raw_values :
  view_of (_issue_credential stub "conn-1" "degree" (Some "1.0") None alice issuing).1
    = Some (JObj [("attributes",
                   JObj [("schema_id", JStr "schema-7");
                         ("values",
                          JObj [("name", JObj [("raw", JStr "Alice");
                                               ("encoded", JStr "Alice")]);
                                ("year", JObj [("raw", JStr "2020");
                                               ("encoded", JStr "2020")])])])])
  ∧ view_of (_issue_credential stub "conn-1" "degree" (Some "1.0") None alice issuing).1
    ≠ Some (JObj [("attributes", alice)]).
Proof. split; [vm_compute; reflexivity|]. vm_compute. discriminate. Qed.

(** ** Constructing a proof *)

Lemma scan_claims_found claims :
  scan_claims ((λ '(claim_name, creds), (claim_name, JArr creds)) <$> claims)
  = Ok (fst <$> filter (λ claim, length claim.2 = 0) claims,
        fst <$> filter (λ claim, 1 < length claim.2) claims).
Proof.
  induction claims as [|[claim_name creds] claims IH]; [done|].
  rewrite !filter_cons. cbn [fmap list_fmap scan_claims jlen mbind result_bind snd].
  cbn [fmap list_fmap] in IH. rewrite IH.
  destruct creds as [|c [|c' creds]]; simpl; repeat case_decide; simpl in *;
    try lia; done.
Qed.

Lemma requested_attributes_found claims :
  Forall (λ claim, length claim.2 = 1 ∧ Forall has_referent claim.2) claims →
  ∃ requested,
    requested_attributes ((λ '(claim_name, creds), (claim_name, JArr creds)) <$> claims)
    = Ok requested.
Proof.
  induction 1 as [|[claim_name creds] claims [Hlen Href] _ [requested IH]];
    [by eexists|].
  destruct creds as [|c [|]]; simpl in Hlen; try done.
  apply Forall_cons in Href as [(info & ref & Hinfo & Href) _].
  cbn [fmap list_fmap requested_attributes jfirst mbind result_bind].
  cbn [fmap list_fmap] in IH. rewrite Hinfo. cbn [mbind result_bind].
  rewrite Href. cbn [mbind result_bind]. rewrite IH. by eexists.
Qed.

Lemma filter_nil_Forall {A} (P : A → Prop) `{∀ x, Decision (P x)} (l : list A) :
  filter P l = [] ↔ Forall (λ x, ¬ P x) l.
Proof.
  induction l as [|x l IH]; [done|]. rewrite filter_cons, Forall_cons.
  case_decide; naive_solver.
Qed.

Section Proving.

Context {W : Type} (E : Env W).

(** C7 (amended).  For a synced holder whose wallet reports, for every
    requested attribute, the list of matching credentials: [_construct_proof]
    goes on to create the proof, with one credential selected per
    attribute, exactly when at least one attribute is reported and every
    reported attribute has exactly one credential.  It raises [IndyError]
    otherwise: "No credentials found for proof" when nothing is reported or
    an attribute has no credential, "Too many credentials found for proof"
    when every attribute has one but some has several. *)
Theorem construct_proof_one_credential_each (st st1 : @State W) holder_id proof_req
    cred_ids holder_cfg found_creds claims :
  lookup_by AgentCfg.agent_id holder_id (IndyService._agents (svc st)) = Some holder_cfg →
  AgentCfg.synced holder_cfg = true →
  is_Some (AgentCfg._instance holder_cfg) →
  get_found_creds E holder_id proof_req cred_ids st = (Ok found_creds, st1) →
  jindex found_creds "attrs" = Ok (found_attrs claims) →
  Forall (λ claim, Forall has_referent claim.2) claims →
  if bool_decide (claims ≠ [] ∧ one_match_each claims) then
    ∃ request_params,
      request_params_for found_creds = Ok request_params
      ∧ _construct_proof E holder_id proof_req cred_ids st
        = create_proof E holder_id proof_req found_creds request_params st1
  else if bool_decide (claims = [] ∨ some_without_match claims) then
    _construct_proof E holder_id proof_req cred_ids st
      = (Raise (IndyError "No credentials found for proof"), st1)
  else
    _construct_proof E holder_id proof_req cred_ids st
      = (Raise (IndyError "Too many credentials found for proof"), st1).
Proof.
  intros Hholder Hsynced [inst Hinst] Hget Hattrs Href.
  assert (∀ r, request_params_for found_creds = r →
    _construct_proof E holder_id proof_req cred_ids st
    = match r with
      | Ok request_params =>
          create_proof E holder_id proof_req found_creds request_params st1
      | Raise e => (Raise e, st1)
      end) as Hrun.
  { intros r <-. unfold _construct_proof, synced_agent. rewrite !bind_run. cbn [gets].
    rewrite Hholder, Hsynced. cbn [negb mret M_ret]. unfold with_instance.
    rewrite Hinst, bind_run, Hget, bind_run. unfold lift.
    by destruct (request_params_for found_creds). }
  unfold request_params_for in Hrun. rewrite Hattrs in Hrun.
  cbn [mbind result_bind] in Hrun. unfold found_attrs in Hrun.
  unfold one_match_each, some_without_match.
  destruct claims as [|claim claims].
  { rewrite bool_decide_eq_false_2 by (by intros [? _]).
    rewrite bool_decide_eq_true_2 by (by left). by apply (Hrun (Raise _)). }
  set (all := claim :: claims) in *.
  assert (truthy (JObj ((λ '(n, creds), (n, JArr creds)) <$> all)) = true) as Hsome
    by by destruct claim.
  rewrite Hsome in Hrun. cbn [negb jitems mbind result_bind] in Hrun. rewrite scan_claims_found in Hrun.
  cbn [mbind result_bind] in Hrun.
  destruct (decide (Exists (λ c, length c.2 = 0) all)) as [Hzero|Hzero].
  - rewrite bool_decide_eq_false_2.
    2:{ intros [_ Hone]. apply Exists_exists in Hzero as (c & Hc & Hc0).
        rewrite Forall_forall in Hone. specialize (Hone c Hc). lia. }
    rewrite bool_decide_eq_true_2 by (by right).
    apply (Hrun (Raise _)). rewrite bool_decide_eq_false_2; [done|].
    intros Hnil%fmap_nil_inv. apply filter_nil_Forall in Hnil.
    apply Exists_exists in Hzero as (c & Hc & Hc0).
    rewrite Forall_forall in Hnil. by apply (Hnil c).
  - apply not_Exists_Forall in Hzero; [|intros ?; apply _].
    assert (filter (λ c : string * list json, length c.2 = 0) all = []) as Hnone
      by (by apply filter_nil_Forall).
    rewrite Hnone in Hrun. cbn [fmap list_fmap] in Hrun.
    rewrite (bool_decide_eq_true_2 (_ = _)) in Hrun by done. cbn [negb] in Hrun.
    destruct (decide (Forall (λ c, length c.2 = 1) all)) as [Hone|Hone].
    + rewrite bool_decide_eq_true_2 by done.
      assert (filter (λ c : string * list json, 1 < length c.2) all = []) as Hmany.
      { apply filter_nil_Forall. eapply Forall_impl; [exact Hone|]. simpl. lia. }
      rewrite Hmany in Hrun. cbn [fmap list_fmap] in Hrun.
      rewrite (bool_decide_eq_true_2 (_ = _)) in Hrun by done. cbn [negb] in Hrun.
      destruct (requested_attributes_found all) as [requested Hreq].
      { rewrite Forall_forall in Hone, Href. apply Forall_forall. eauto. }
      rewrite Hreq in Hrun. cbn [mbind result_bind] in Hrun.
      eexists. split; [|by apply (Hrun (Ok _))].
      unfold request_params_for. rewrite Hattrs. cbn [mbind result_bind].
      unfold found_attrs. rewrite Hsome.
      cbn [negb jitems mbind result_bind]. rewrite scan_claims_found.
      cbn [mbind result_bind]. rewrite Hnone, Hmany. cbn [fmap list_fmap].
      rewrite (bool_decide_eq_true_2 (_ = _)) by done. cbn [negb].
      by rewrite Hreq.
    + rewrite bool_decide_eq_false_2 by (by intros [_ ?]).
      rewrite bool_decide_eq_false_2.
      2:{ intros [?|Hz]; [done|]. apply Exists_exists in Hz as (c & Hc & Hc0).
          rewrite Forall_forall in Hzero. by apply (Hzero c). }
      apply (Hrun (Raise _)). rewrite bool_decide_eq_false_2; [done|].
      intros Hnil%fmap_nil_inv. apply filter_nil_Forall in Hnil.
      apply Hone. rewrite Forall_forall in Hnil, Hzero. apply Forall_forall.
      intros c Hc. specialize (Hnil c Hc). specialize (Hzero c Hc). simpl in *. lia.
Qed.

End Proving.

Lemma construct_proof_one_credential_each_witness :
  ∃ request_params,
    request_params_for (found_for one_credential) = Ok request_params
    ∧ _construct_proof stub "holder-1" name_request [] issuing
      = create_proof stub "holder-1" name_request (found_for one_credential)
          request_params
          (BuildState (svc issuing) () [GetCreds "holder-1" (request name_request)]).
Proof.
  pose proof (construct_proof_one_credential_each stub issuing
                (BuildState (svc issuing) () [GetCreds "holder-1" (request name_request)])
                "holder-1" name_request [] (synced_agent_cfg "holder-1" holder [])
                (found_for one_credential) one_credential) as H.
  rewrite bool_decide_eq_true_2 in H by (split; [done|by repeat constructor]).
  apply H; try reflexivity.
  - by eexists.
  - repeat constructor. by eexists _, _.
Defined.

(** C7, as stated, fails when the request asks for no attribute: every
    requested attribute then has exactly one matching credential, there
    being none, and [_construct_proof] raises all the same. *)
Lemma construct_proof_raises_with_nothing_requested :
  get_found_creds stub "holder-empty" empty_request [] issuing
    = (Ok (found_for []),
       BuildState (svc issuing) () [GetCreds "holder-empty" (request empty_request)])
  ∧ one_match_each []
  ∧ ¬ some_without_match []
  ∧ (_construct_proof stub "holder-empty" empty_request [] issuing).1
    = Raise (IndyError "No credentials found for proof").
Proof.
  split; [reflexivity|]. split; [constructor|]. split; [by intros ?%Exists_nil|].
  vm_compute. reflexivity.
Qed.

(* ================================================================== *)
(** * Further properties of the configuration classes *)

(** ** Schema attributes *)

Lemma add_attributes_names names :
  add_attributes ((λ a, (None, a)) <$> (AttrStr <$> names))
  = Ok ((λ n, {["name" := n]}) <$> names).
Proof.
  induction names as [|n names IH]; [done|].
  cbn [fmap list_fmap add_attributes add_attribute] in *. by rewrite IH.
Qed.

Lemma attr_names_of_singletons (names : list string) :
  SchemaCfg.attr_names_of ((λ n, ({["name" := n]} : attribute)) <$> names) = Ok names.
Proof.
  induction names as [|n names IH]; [done|].
  cbn [fmap list_fmap SchemaCfg.attr_names_of] in *.
  by rewrite lookup_singleton_eq, IH.
Qed.

(** A schema built from a sequence of attribute names gives these names
    back, in order: the constructor wraps every name in a dict and
    [attr_names] unwraps it, and neither step can fail. *)
Theorem schema_from_names_round_trip name version names origin_did :
  ∃ s, new_SchemaCfg name version (AttrsSequence (AttrStr <$> names)) origin_did = Ok s
       ∧ SchemaCfg.attr_names s = Ok names
       ∧ stored_key s = (name, version)
       ∧ SchemaCfg.origin_did s = origin_did.
Proof.
  eexists. unfold new_SchemaCfg, set_attributes. rewrite add_attributes_names.
  split; [reflexivity|]. split; [|done].
  unfold SchemaCfg.attr_names. simpl. apply attr_names_of_singletons.
Qed.

(** A schema built from a mapping of attributes names every attribute by
    its key, except that a string value is taken as the name itself and its
    key is dropped. *)
Theorem mapping_attributes_named_by_key items attrs :
  set_attributes (AttrsMapping items) = Ok attrs →
  SchemaCfg.attr_names_of attrs = Ok (name_given <$> items).
Proof.
  unfold set_attributes. revert attrs.
  induction items as [|[k a] items IH]; intros attrs; [by intros [= <-]|].
  cbn [map add_attributes].
  destruct (add_attribute a (Some k)) as [x|e] eqn:Hx; [|done].
  destruct (add_attributes _) as [l|e]; [|done]. intros [= <-].
  cbn [SchemaCfg.attr_names_of fmap list_fmap]. rewrite (IH l eq_refl).
  assert (x !! "name" = Some (name_given (k, a))) as ->; [|done].
  destruct a as [d|s| |]; simpl in Hx.
  - injection Hx as <-. by rewrite lookup_insert_eq.
  - injection Hx as <-. by rewrite lookup_singleton_eq.
  - destruct (negb (String.eqb k "")); [|done]. injection Hx as <-.
    by rewrite lookup_singleton_eq.
  - done.
Qed.

Lemma mapping_attributes_named_by_key_witness :
  SchemaCfg.attr_names_of [{["name" := "year"]}; {["name" := "full_name"]};
                           {["name" := "city"; "type" := "text"]}]
  = Ok ["year"; "full_name"; "city"].
Proof.
  apply (mapping_attributes_named_by_key
           [("year", AttrNone); ("name", AttrStr "full_name");
            ("city", AttrMapping {["type" := "text"]})]).
  vm_compute. reflexivity.
Defined.

Lemma add_attributes_dicts (attrs : list attribute) :
  add_attributes ((λ a, (None, a)) <$> (AttrMapping <$> attrs)) = Ok attrs.
Proof.
  induction attrs as [|a attrs IH]; [done|].
  cbn [fmap list_fmap add_attributes add_attribute] in *. by rewrite IH.
Qed.

(** [copy] rebuilds the schema through the constructor, which takes every
    stored attribute dict as it is: the copy cannot fail and has the same
    name, version, attributes and origin DID, so that it [compare]s with
    the original. *)
Theorem copy_through_constructor (s : SchemaCfg.t) :
  new_SchemaCfg (SchemaCfg.name s) (SchemaCfg.version s)
                (AttrsSequence (AttrMapping <$> SchemaCfg._attributes s))
                (SchemaCfg.origin_did s) = Ok (SchemaCfg.copy s)
  ∧ SchemaCfg.copy s = s
  ∧ SchemaCfg.compare (SchemaCfg.copy s) s = true.
Proof.
  unfold new_SchemaCfg, set_attributes. rewrite add_attributes_dicts.
  split; [done|]. assert (SchemaCfg.copy s = s) as -> by by destruct s.
  split; [done|]. apply compare_spec. naive_solver.
Qed.

(** ** The schema manager: adding, finding and removing *)

Lemma find_from_some name c : ∀ f r,
  SchemaManager.find_from name None (Some f) c = Ok r → is_Some r.
Proof.
  induction c as [|x c IH]; intros f r; simpl; [by intros [= <-]|].
  case_bool_decide; [|by apply IH].
  destruct (LooseVersion_lt _ _) as [[]|]; [apply IH..|done].
Qed.

(** What a successful [find name] says of the stored schemas of that name,
    [f] being the candidate so far and [c] the schemas of the name still to
    come: the result is one of them, and as soon as two were compared all
    of them have a version. *)
Lemma find_from_named name c : ∀ f r,
  Forall (λ s, SchemaCfg.name s = name) c →
  SchemaManager.find_from name None (Some f) c = Ok (Some r) →
  (r = f ∨ r ∈ c)
  ∧ (c ≠ [] → Forall (λ s, truthy_str (SchemaCfg.version s) = true) (f :: c)).
Proof.
  induction c as [|x c IH]; intros f r Hc; simpl.
  { intros [= <-]. split; [by left|done]. }
  apply Forall_cons in Hc as [Hx Hc]. rewrite (bool_decide_eq_true_2 _ Hx).
  destruct (LooseVersion_lt _ _) as [b|] eqn:Hlt; [|done].
  assert (truthy_str (SchemaCfg.version f) = true
          ∧ truthy_str (SchemaCfg.version x) = true) as [Hf Hxv].
  { unfold LooseVersion_lt in Hlt.
    by destruct (truthy_str (SchemaCfg.version f)), (truthy_str (SchemaCfg.version x)). }
  destruct b; intros Hr; destruct (IH _ _ Hc Hr) as [Hin Hall].
  - split; [right; destruct Hin as [->|?]; set_solver|]. intros _.
    destruct c as [|y c]; [by repeat constructor|].
    constructor; [done|]. by apply Hall.
  - split; [destruct Hin as [->|?]; [by left|right; set_solver]|]. intros _.
    destruct c as [|y c]; [by repeat constructor|].
    specialize (Hall ltac:(done)). apply Forall_cons in Hall as [_ Hall].
    constructor; [done|]. by constructor.
Qed.

Lemma same_named_all name self :
  Forall (λ s, SchemaCfg.name s = name) (same_named name self).
Proof. apply Forall_forall. intros s Hs. by apply list_elem_of_filter in Hs as [? _]. Qed.

Lemma find_none name (self : SchemaManager.t) :
  SchemaManager.find self name None = Ok None → same_named name self = [].
Proof.
  unfold SchemaManager.find. rewrite find_from_same_named.
  pose proof (same_named_all name self) as Hall.
  destruct (same_named name self) as [|x c]; [done|]. simpl.
  apply Forall_cons in Hall as [Hx _]. rewrite (bool_decide_eq_true_2 _ Hx).
  by intros [? [=]]%find_from_some.
Qed.

Lemma find_some name (self : SchemaManager.t) found :
  SchemaManager.find self name None = Ok (Some found) →
  found ∈ same_named name self
  ∧ (same_named name self = [found]
     ∨ Forall (λ s, truthy_str (SchemaCfg.version s) = true) (same_named name self)).
Proof.
  unfold SchemaManager.find. rewrite find_from_same_named.
  pose proof (same_named_all name self) as Hall.
  destruct (same_named name self) as [|x c]; [done|]. simpl.
  apply Forall_cons in Hall as [Hx Hc]. rewrite (bool_decide_eq_true_2 _ Hx).
  intros Hr. destruct (find_from_named _ _ _ _ Hc Hr) as [Hin Hall].
  split; [destruct Hin as [->|?]; set_solver|].
  destruct c as [|y c]; [left; destruct Hin as [->|?%elem_of_nil]; done|].
  right. by apply Hall.
Qed.

Lemma find_versioned_none (self : SchemaManager.t) name v :
  SchemaManager.find self name (Some v) = Ok None →
  (name, Some v) ∉ stored_key <$> self.
Proof.
  rewrite find_versioned. intros [= Hhead].
  intros (s & [= Hn Hv] & Hs)%list_elem_of_fmap.
  assert (s ∈ filter (λ s, SchemaCfg.name s = name ∧ SchemaCfg.version s = Some v) self)
    as Hin by (by apply list_elem_of_filter).
  destruct (filter _ self); [by apply elem_of_nil in Hin|done].
Qed.

Lemma find_versioned_some (self : SchemaManager.t) name v found :
  SchemaManager.find self name (Some v) = Ok (Some found) →
  found ∈ self ∧ stored_key found = (name, Some v).
Proof.
  rewrite find_versioned. intros [= Hhead].
  assert (found ∈ filter (λ s, SchemaCfg.name s = name ∧ SchemaCfg.version s = Some v) self)
    as Hin.
  { destruct (filter _ self) as [|x l]; [done|]. injection Hhead as ->. set_solver. }
  apply list_elem_of_filter in Hin as [[Hn Hv] ?]. split; [done|].
  unfold stored_key. by rewrite Hn, Hv.
Qed.

(** [find] never invents a schema: what it returns is stored, under the
    name asked for. *)
Lemma find_stored (self : SchemaManager.t) name version found :
  SchemaManager.find self name version = Ok (Some found) →
  found ∈ self ∧ SchemaCfg.name found = name.
Proof.
  destruct version as [v|].
  - intros [? [= ? _]]%find_versioned_some. done.
  - intros [Hin _]%find_some. by apply list_elem_of_filter in Hin as [? ?].
Qed.

(** When [find] returns nothing for the name and version of [s], no stored
    schema has the key of [s]. *)
Lemma find_nothing_fresh (self : SchemaManager.t) s :
  SchemaManager.find self (SchemaCfg.name s) (SchemaCfg.version s) = Ok None →
  stored_key s ∉ stored_key <$> self.
Proof.
  unfold stored_key at 1. destruct (SchemaCfg.version s) as [v|] eqn:Hv.
  - apply find_versioned_none.
  - intros Hnone%find_none (x & [= Hn _] & Hx)%list_elem_of_fmap.
    assert (x ∈ same_named (SchemaCfg.name s) self) as Hin
      by (by apply list_elem_of_filter).
    rewrite Hnone in Hin. by apply elem_of_nil in Hin.
Qed.

Lemma list_remove_split x l rest :
  SchemaManager.list_remove x l = Ok rest →
  ∃ l1 l2, l = l1 ++ x :: l2 ∧ rest = l1 ++ l2 ∧ x ∉ l1.
Proof.
  revert rest. induction l as [|y l IH]; intros rest; simpl; [done|].
  case_bool_decide as Hy.
  - intros [= <-]. subst y. exists [], l. split_and!; [done..|apply not_elem_of_nil].
  - destruct (SchemaManager.list_remove x l) as [rest'|]; [|done]. intros [= <-].
    destruct (IH _ eq_refl) as (l1 & l2 & -> & -> & Hl1).
    exists (y :: l1), l2. split_and!; [done..|]. set_solver.
Qed.

Lemma list_remove_last x l :
  x ∉ l → SchemaManager.list_remove x (l ++ [x]) = Ok l.
Proof.
  induction l as [|y l IH]; simpl; intros Hx.
  - by rewrite bool_decide_eq_true_2.
  - rewrite bool_decide_eq_false_2 by set_solver. rewrite IH by set_solver. done.
Qed.

Lemma distinct_keys_remove (l1 l2 : list SchemaCfg.t) f :
  distinct_keys (l1 ++ f :: l2) →
  distinct_keys (l1 ++ l2) ∧ stored_key f ∉ stored_key <$> l1 ++ l2.
Proof.
  unfold distinct_keys. rewrite !fmap_app, fmap_cons, !NoDup_app, NoDup_cons.
  intros (H1 & H12 & Hf & H2). split; [split_and!; [done| |done]|].
  - intros k Hk Hk2. apply (H12 k Hk). by right.
  - intros [Hin|Hin]%elem_of_app; [|done]. apply (H12 _ Hin). by left.
Qed.

Lemma distinct_keys_snoc (self : SchemaManager.t) s :
  distinct_keys self → stored_key s ∉ stored_key <$> self → distinct_keys (self ++ [s]).
Proof.
  unfold distinct_keys. rewrite fmap_app, NoDup_app. intros Hself Hs.
  split_and!; [done| |apply NoDup_singleton].
  intros k Hk ->%list_elem_of_singleton. done.
Qed.

Lemma find_appended (self : SchemaManager.t) s :
  SchemaManager.find self (SchemaCfg.name s) (SchemaCfg.version s) = Ok None →
  SchemaManager.find (self ++ [s]) (SchemaCfg.name s) (SchemaCfg.version s)
  = Ok (Some s).
Proof.
  destruct (SchemaCfg.version s) as [v|] eqn:Hv.
  - rewrite !find_versioned. intros [= Hhead]. rewrite filter_app.
    destruct (filter _ self); [|done]. simpl.
    rewrite filter_cons, decide_True by done. done.
  - intros Hnone%find_none. unfold SchemaManager.find.
    rewrite find_from_same_named. unfold same_named in *. rewrite filter_app, Hnone.
    simpl. rewrite filter_cons, decide_True by done. simpl.
    by rewrite bool_decide_eq_true_2.
Qed.

(** What a successful [add_schema] without [override] did: the schema was
    appended, and [find] had returned nothing for its name and version. *)
Lemma add_schema_appended (self self' : SchemaManager.t) arg :
  SchemaManager.add_schema self arg false = (Ok (), self') →
  ∃ s, SchemaManager.as_SchemaCfg arg = Ok s
       ∧ SchemaManager.find self (SchemaCfg.name s) (SchemaCfg.version s) = Ok None
       ∧ self' = self ++ [s].
Proof.
  unfold SchemaManager.add_schema.
  destruct (SchemaManager.as_SchemaCfg arg) as [s|]; [|done].
  destruct (SchemaManager.find self _ _) as [[f|]|] eqn:Hfind; [done| |done].
  intros [= <-]. by exists s.
Qed.

(** Insert, then look up: a schema that [add_schema] accepted without
    [override] is the one that [find] returns for its name and version,
    whether the version is given or left out. *)
Theorem add_schema_then_find (self self' : SchemaManager.t) arg :
  SchemaManager.add_schema self arg false = (Ok (), self') →
  ∃ s, SchemaManager.as_SchemaCfg arg = Ok s
       ∧ self' = self ++ [s]
       ∧ SchemaManager.find self' (SchemaCfg.name s) (SchemaCfg.version s) = Ok (Some s).
Proof.
  intros (s & Harg & Hnone & ->)%add_schema_appended.
  exists s. split_and!; [done..|]. by apply find_appended.
Qed.

Lemma add_schema_then_find_witness :
  ∃ s, SchemaManager.as_SchemaCfg (dict_v "passport" None) = Ok s
       ∧ store_numeric ++ [SchemaCfg.Build "passport" None [] None] = store_numeric ++ [s]
       ∧ SchemaManager.find (store_numeric ++ [SchemaCfg.Build "passport" None [] None])
                            (SchemaCfg.name s) (SchemaCfg.version s) = Ok (Some s).
Proof.
  apply (add_schema_then_find store_numeric
           (store_numeric ++ [SchemaCfg.Build "passport" None [] None])
           (dict_v "passport" None)).
  vm_compute. reflexivity.
Defined.

(** Insert, then remove by name: removing a schema that [add_schema] has
    just accepted, by its name and version, gives the manager back as it
    was before the addition. *)
Theorem add_schema_then_remove (self self' : SchemaManager.t) arg :
  SchemaManager.add_schema self arg false = (Ok (), self') →
  ∃ s, SchemaManager.as_SchemaCfg arg = Ok s
       ∧ remove_schema_named self' (SchemaCfg.name s) (SchemaCfg.version s)
         = (Ok (), self).
Proof.
  intros (s & Harg & Hnone & ->)%add_schema_appended.
  exists s. split; [done|]. unfold remove_schema_named.
  rewrite (find_appended _ _ Hnone). unfold SchemaManager.remove_schema.
  rewrite list_remove_last; [done|].
  intros Hin. apply (find_nothing_fresh _ _ Hnone). by apply list_elem_of_fmap_2.
Qed.

Lemma add_schema_then_remove_witness :
  ∃ s, SchemaManager.as_SchemaCfg (dict_v "degree" (Some "2.0")) = Ok s
       ∧ remove_schema_named (store_numeric ++ [schema_v "degree" "2.0"])
                             (SchemaCfg.name s) (SchemaCfg.version s)
         = (Ok (), store_numeric).
Proof.
  apply (add_schema_then_remove store_numeric
           (store_numeric ++ [schema_v "degree" "2.0"]) (dict_v "degree" (Some "2.0"))).
  vm_compute. reflexivity.
Defined.

(** Removing by a name that no stored schema has: [find] returns [None],
    which [list.remove] does not find; the error is [ValueError], not a
    configuration error, and nothing is removed. *)
Theorem remove_unknown_name_is_value_error (self : SchemaManager.t) name version :
  same_named name self = [] →
  remove_schema_named self name version = (Raise ValueError, self).
Proof.
  intros Hnone. unfold remove_schema_named.
  assert (SchemaManager.find self name version = Ok None) as ->; [|done].
  destruct version as [v|].
  - rewrite find_versioned. f_equal.
    destruct (filter _ self) as [|x l] eqn:Hf; [done|].
    assert (x ∈ same_named name self) as Hin.
    { assert (x ∈ filter (λ s, SchemaCfg.name s = name ∧ SchemaCfg.version s = Some v) self)
        as Hx by (rewrite Hf; set_solver).
      apply list_elem_of_filter in Hx as [[? _] ?]. by apply list_elem_of_filter. }
    rewrite Hnone in Hin. by apply elem_of_nil in Hin.
  - unfold SchemaManager.find. by rewrite find_from_same_named, Hnone.
Qed.

Lemma remove_unknown_name_is_value_error_witness :
  remove_schema_named store_numeric "passport" None = (Raise ValueError, store_numeric).
Proof. apply (remove_unknown_name_is_value_error store_numeric "passport" None). reflexivity. Defined.

Lemma add_schema_distinct (self : SchemaManager.t) arg override :
  distinct_keys self → distinct_keys (SchemaManager.add_schema self arg override).2.
Proof.
  intros Hself. unfold SchemaManager.add_schema.
  destruct (SchemaManager.as_SchemaCfg arg) as [s|]; [|done].
  destruct (SchemaManager.find self _ _) as [[found|]|] eqn:Hfind; [| |done].
  2:{ simpl. apply distinct_keys_snoc; [done|]. by apply find_nothing_fresh. }
  destruct override; [|done].
  destruct (find_stored _ _ _ _ Hfind) as [Hin Hname].
  unfold SchemaManager.remove_schema.
  destruct (list_remove_elem _ _ Hin) as [rest Hrest]. rewrite Hrest. simpl.
  destruct (list_remove_split _ _ _ Hrest) as (l1 & l2 & -> & -> & _).
  destruct (distinct_keys_remove _ _ _ Hself) as [Hrest' Hfound].
  apply distinct_keys_snoc; [done|].
  destruct (SchemaCfg.version s) as [v|] eqn:Hv.
  - apply find_versioned_some in Hfind as [_ Hkey].
    unfold stored_key at 1. rewrite Hv, <- Hkey. done.
  - apply find_some in Hfind as [_ Hsame].
    intros (x & [= Hxn Hxv] & Hx)%list_elem_of_fmap.
    assert (x ∈ same_named (SchemaCfg.name s) (l1 ++ found :: l2)) as Hxs.
    { apply list_elem_of_filter. split; [done|]. set_solver. }
    destruct Hsame as [Hone|Hall].
    + rewrite Hone in Hxs. apply list_elem_of_singleton in Hxs as ->.
      apply Hfound. by apply list_elem_of_fmap_2.
    + rewrite Forall_forall in Hall. specialize (Hall x Hxs).
      rewrite Hv in Hxv. by rewrite <- Hxv in Hall.
Qed.

(** However schemas are loaded, with [override] or without, and whether
    the load goes through or stops at a refused schema, the manager never
    comes to hold two schemas with the same name and version. *)
Theorem load_keeps_keys_distinct values : ∀ (self : SchemaManager.t) override,
  distinct_keys self → distinct_keys (SchemaManager.load self values override).2.
Proof.
  induction values as [|spec values IH]; intros self override Hself; [done|].
  simpl. pose proof (add_schema_distinct self spec override Hself) as Hstep.
  destruct (SchemaManager.add_schema self spec override) as [[[]|e] self1]; [|done].
  by apply IH.
Qed.

Lemma load_keeps_keys_distinct_witness :
  distinct_keys
    (SchemaManager.load store_numeric
       [dict_v "degree" (Some "1.9"); dict_v "degree" None; dict_v "licence" (Some "2.0")]
       true).2.
Proof.
  apply (load_keeps_keys_distinct
           [dict_v "degree" (Some "1.9"); dict_v "degree" None; dict_v "licence" (Some "2.0")]
           store_numeric true).
  unfold distinct_keys. vm_compute. repeat constructor; set_solver.
Defined.

(** With [override], a schema whose name and version are already stored
    takes the place of the stored one: the manager keeps its size, [find]
    now returns the new schema, and nothing else was added or lost. *)
Theorem add_schema_override_replaces (self : SchemaManager.t) arg s v found :
  distinct_keys self →
  SchemaManager.as_SchemaCfg arg = Ok s →
  SchemaCfg.version s = Some v →
  SchemaManager.find self (SchemaCfg.name s) (Some v) = Ok (Some found) →
  ∃ self',
    SchemaManager.add_schema self arg true = (Ok (), self')
    ∧ length self' = length self
    ∧ SchemaManager.find self' (SchemaCfg.name s) (Some v) = Ok (Some s)
    ∧ ∀ x, x ∈ self' ↔ x = s ∨ (x ∈ self ∧ x ≠ found).
Proof.
  intros Hself Harg Hv Hfind.
  destruct (find_versioned_some _ _ _ _ Hfind) as [Hin Hkey].
  destruct (list_remove_elem _ _ Hin) as [rest Hrest].
  destruct (list_remove_split _ _ _ Hrest) as (l1 & l2 & -> & -> & _).
  destruct (distinct_keys_remove _ _ _ Hself) as [_ Hfound].
  exists ((l1 ++ l2) ++ [s]). split_and!.
  - unfold SchemaManager.add_schema, SchemaManager.remove_schema.
    by rewrite Harg, Hv, Hfind, Hrest.
  - rewrite !length_app. simpl. lia.
  - rewrite find_versioned, filter_app.
    destruct (filter _ (l1 ++ l2)) as [|x l] eqn:Hf.
    + simpl. by rewrite filter_cons, decide_True.
    + exfalso. apply Hfound.
      assert (x ∈ filter (λ s0, SchemaCfg.name s0 = SchemaCfg.name s
                                ∧ SchemaCfg.version s0 = Some v) (l1 ++ l2)) as Hx
        by (rewrite Hf; set_solver).
      apply list_elem_of_filter in Hx as [[Hn Hxv] Hx].
      apply list_elem_of_fmap. exists x. split; [|done].
      rewrite Hkey. unfold stored_key. by rewrite Hn, Hxv.
  - intros x. assert (found ∉ l1 ++ l2) as Hnot.
    { intros ?. apply Hfound. by apply list_elem_of_fmap_2. }
    set_solver.
Qed.

Lemma add_schema_override_replaces_witness :
  ∃ self',
    SchemaManager.add_schema store_numeric
      (ArgSchema (SchemaCfg.Build "degree" (Some "1.10") [{["name" := "year"]}] None)) true
    = (Ok (), self')
    ∧ length self' = length store_numeric
    ∧ SchemaManager.find self' "degree" (Some "1.10")
      = Ok (Some (SchemaCfg.Build "degree" (Some "1.10") [{["name" := "year"]}] None))
    ∧ ∀ x, x ∈ self' ↔
        x = SchemaCfg.Build "degree" (Some "1.10") [{["name" := "year"]}] None
        ∨ (x ∈ store_numeric ∧ x ≠ schema_v "degree" "1.10").
Proof.
  apply (add_schema_override_replaces store_numeric
           (ArgSchema (SchemaCfg.Build "degree" (Some "1.10") [{["name" := "year"]}] None))
           (SchemaCfg.Build "degree" (Some "1.10") [{["name" := "year"]}] None)
           "1.10" (schema_v "degree" "1.10")).
  - unfold distinct_keys. vm_compute. repeat constructor; set_solver.
  - reflexivity.
  - reflexivity.
  - vm_compute. reflexivity.
Defined.

(** ** Credential types of an agent *)

Lemma find_matching_app wanted l1 l2 :
  AgentCfg.find_matching wanted (l1 ++ l2)
  = match AgentCfg.find_matching wanted l1 with
    | Some ct => Some ct
    | None => AgentCfg.find_matching wanted l2
    end.
Proof.
  induction l1 as [|ct l1 IH]; [done|]. simpl.
  by destruct (SchemaCfg.compare _ _).
Qed.

Lemma find_matching_some wanted l ct :
  AgentCfg.find_matching wanted l = Some ct →
  ct ∈ l ∧ SchemaCfg.compare (CredType.definition ct) wanted = true.
Proof.
  induction l as [|x l IH]; [done|]. simpl.
  destruct (SchemaCfg.compare (CredType.definition x) wanted) eqn:Hx.
  - intros [= <-]. split; [apply list_elem_of_here|done].
  - intros [? ?]%IH. split; [by apply list_elem_of_further|done].
Qed.

(** Insert, then look up: only an issuer takes a credential type; once it
    is added, looking up the name, version and origin DID of its schema
    finds a credential type, the new one unless an earlier one already
    answered to them. *)
Theorem add_credential_type_then_find (self self' : AgentCfg.t) schema params :
  AgentCfg.add_credential_type self schema params = Ok self' →
  AgentCfg.agent_type self = issuer
  ∧ AgentCfg.cred_types self' = AgentCfg.cred_types self ++ [new_cred_type schema params]
  ∧ AgentCfg.find_credential_type self' (SchemaCfg.name schema) (SchemaCfg.version schema)
                                  (SchemaCfg.origin_did schema)
    = match AgentCfg.find_credential_type self (SchemaCfg.name schema)
              (SchemaCfg.version schema) (SchemaCfg.origin_did schema) with
      | Some earlier => Some earlier
      | None => Some (new_cred_type schema params)
      end.
Proof.
  unfold AgentCfg.add_credential_type. case_bool_decide as Htype; [done|].
  intros [= <-]. split; [by destruct (decide (AgentCfg.agent_type self = issuer))|].
  split; [done|]. unfold AgentCfg.find_credential_type. simpl.
  rewrite find_matching_app. destruct (AgentCfg.find_matching _ _); [done|]. simpl.
  assert (SchemaCfg.compare schema
            (SchemaCfg.Build (SchemaCfg.name schema) (SchemaCfg.version schema) []
                             (SchemaCfg.origin_did schema)) = true) as ->; [|done].
  apply compare_spec. simpl. unfold absent_attrs. naive_solver.
Qed.

Lemma add_credential_type_then_find_witness :
  AgentCfg.agent_type (new_agent "issuer-1" issuer) = issuer
  ∧ AgentCfg.cred_types
      (AgentCfg.set_cred_types [new_cred_type degree []] (new_agent "issuer-1" issuer))
    = AgentCfg.cred_types (new_agent "issuer-1" issuer) ++ [new_cred_type degree []]
  ∧ AgentCfg.find_credential_type
      (AgentCfg.set_cred_types [new_cred_type degree []] (new_agent "issuer-1" issuer))
      (SchemaCfg.name degree) (SchemaCfg.version degree) (SchemaCfg.origin_did degree)
    = match AgentCfg.find_credential_type (new_agent "issuer-1" issuer)
              (SchemaCfg.name degree) (SchemaCfg.version degree)
              (SchemaCfg.origin_did degree) with
      | Some earlier => Some earlier
      | None => Some (new_cred_type degree [])
      end.
Proof.
  apply (add_credential_type_then_find (new_agent "issuer-1" issuer)
           (AgentCfg.set_cred_types [new_cred_type degree []] (new_agent "issuer-1" issuer))
           degree []).
  reflexivity.
Defined.

(** ** Proof specifications *)

Lemma remove_dups_filter {A} `{EqDecision A} (P : A → Prop) `{∀ x, Decision (P x)}
    (l : list A) :
  remove_dups (filter P l) = filter P (remove_dups l).
Proof.
  induction l as [|x l IH]; [done|]. rewrite filter_cons. simpl.
  destruct (decide (P x)) as [HP|HP].
  - simpl. destruct (decide_rel elem_of x (filter P l)) as [Hin|Hin];
      destruct (decide_rel elem_of x l) as [Hin'|Hin'].
    + done.
    + by apply list_elem_of_filter in Hin as [_ ?].
    + exfalso. apply Hin. by apply list_elem_of_filter.
    + by rewrite filter_cons, decide_True, IH.
  - destruct (decide_rel elem_of x l); [done|]. by rewrite filter_cons, decide_False.
Qed.

(** The keys still lacking a definition, entry by entry. *)
Lemma populate_lacking found_schema : ∀ schemas schemas',
  ProofSpecCfg.populate found_schema schemas = (Ok (), schemas') →
  omap (λ r, match ProofSpecCfg.definition r with
             | None => Some (ProofSpecCfg.key r)
             | Some _ => None
             end) schemas'
  = filter (λ k, key_matches found_schema k = false)
      (omap (λ r, match ProofSpecCfg.definition r with
                  | None => Some (ProofSpecCfg.key r)
                  | Some _ => None
                  end) schemas)
  ∧ ProofSpecCfg.key <$> schemas' = ProofSpecCfg.key <$> schemas.
Proof.
  unfold omap, fmap.
  induction schemas as [|r schemas IH]; intros schemas'; [by intros [= <-]|].
  cbn [ProofSpecCfg.populate list_omap list_fmap].
  destruct (ProofSpecCfg.populate found_schema schemas) as [res rest] eqn:Hrest.
  assert (∀ r1, ProofSpecCfg.key r1 = ProofSpecCfg.key r →
                (res, r1 :: rest) = (Ok (), schemas') →
                res = Ok ()
                ∧ schemas' = r1 :: rest
                ∧ list_fmap _ _ ProofSpecCfg.key schemas'
                  = ProofSpecCfg.key r :: list_fmap _ _ ProofSpecCfg.key schemas)
    as Hstep.
  { intros r1 Hk1 [= -> <-]. destruct (IH _ eq_refl) as [_ IH2].
    split_and!; [done..|]. cbn [list_fmap]. by rewrite Hk1, IH2. }
  destruct (ProofSpecCfg.definition r) as [d|] eqn:Hd.
  { intros (-> & -> & Hkeys)%Hstep; [|done]. split; [|done].
    destruct (IH _ eq_refl) as [IH1 _]. cbn [list_omap]. by rewrite Hd. }
  fold (key_matches found_schema (ProofSpecCfg.key r)).
  rewrite filter_cons.
  destruct (key_matches found_schema (ProofSpecCfg.key r)) eqn:Hm.
  - rewrite decide_False by done.
    lazymatch goal with
    | |- _ → ?G =>
        assert (∀ r1, ProofSpecCfg.definition r1 = Some (SchemaCfg.copy found_schema) →
                      ProofSpecCfg.key r1 = ProofSpecCfg.key r →
                      (res, r1 :: rest) = (Ok (), schemas') → G) as Hdone
    end.
    { intros r1 Hd1 Hk1 (-> & -> & Hkeys)%Hstep; [|done]. split; [|exact Hkeys].
      destruct (IH _ eq_refl) as [IH1 _]. cbn [list_omap]. rewrite Hd1. exact IH1. }
    destruct (ProofSpecCfg.attributes r) as [[|a l]|].
    + destruct (SchemaCfg.attr_names found_schema); [|done]. by apply Hdone.
    + by apply Hdone.
    + destruct (SchemaCfg.attr_names found_schema); [|done]. by apply Hdone.
  - rewrite decide_True by done.
    intros (-> & -> & Hkeys)%Hstep; [|done]. split; [|done].
    destruct (IH _ eq_refl) as [IH1 _]. cbn [list_omap]. by rewrite Hd, IH1.
Qed.

(** After [populate_schema] returned, the incomplete keys are those that
    were incomplete before and that the schema does not match: every entry
    whose key the schema matches is resolved, no other entry is, and the
    keys of the entries are untouched. *)
Theorem populate_schema_resolves_matching (self self' : ProofSpecCfg.t) found_schema :
  ProofSpecCfg.populate_schema self found_schema = (Ok (), self') →
  ProofSpecCfg.get_incomplete_schemas self'
  = filter (λ k, key_matches found_schema k = false)
           (ProofSpecCfg.get_incomplete_schemas self)
  ∧ ProofSpecCfg.key <$> ProofSpecCfg.schemas self'
    = ProofSpecCfg.key <$> ProofSpecCfg.schemas self
  ∧ ProofSpecCfg.synced self' = ProofSpecCfg.synced self.
Proof.
  unfold ProofSpecCfg.populate_schema, ProofSpecCfg.get_incomplete_schemas.
  destruct (ProofSpecCfg.populate _ _) as [r schemas'] eqn:Hp. intros [= -> <-].
  destruct (populate_lacking _ _ _ Hp) as [Hlack Hkeys]. simpl.
  by rewrite Hlack, remove_dups_filter.
Qed.

Lemma populate_schema_resolves_matching_witness :
  ProofSpecCfg.get_incomplete_schemas
    (ProofSpecCfg.populate_schema open_spec degree_resolved).2
  = filter (λ k, key_matches degree_resolved k = false)
           (ProofSpecCfg.get_incomplete_schemas open_spec)
  ∧ ProofSpecCfg.key <$> ProofSpecCfg.schemas
                           (ProofSpecCfg.populate_schema open_spec degree_resolved).2
    = ProofSpecCfg.key <$> ProofSpecCfg.schemas open_spec
  ∧ ProofSpecCfg.synced (ProofSpecCfg.populate_schema open_spec degree_resolved).2
    = ProofSpecCfg.synced open_spec.
Proof.
  apply (populate_schema_resolves_matching open_spec
           (ProofSpecCfg.populate_schema open_spec degree_resolved).2 degree_resolved).
  vm_compute. reflexivity.
Defined.

(* ================================================================== *)
(** * Further properties of the service *)

(** ** What a coroutine sends out *)

Section Logging.

Context {W : Type}.

Lemma logs_from_quiet {A} (m : @M W A) P st :
  trace (m st).2 = trace st → logs_from st P m.
Proof. intros H. exists []. by rewrite app_nil_r. Qed.

Lemma logs_from_bind {A B} (m : @M W A) (k : A → M B) P st :
  logs_from st P m →
  (∀ a st1, m st = (Ok a, st1) → logs_from st1 P (k a)) →
  logs_from st P (m ≫= k).
Proof.
  intros (new & Hm & Hnew) Hk. unfold logs_from. rewrite bind_run.
  destruct (m st) as [[a|e] st1] eqn:Hrun; simpl in *; [|by exists new].
  destruct (Hk a st1 eq_refl) as (new' & Hk' & Hnew').
  exists (new ++ new'). rewrite Hk', Hm, app_assoc. split; [done|].
  by apply Forall_app.
Qed.

Section Logs.

Context (P : call → Prop).

Lemma logs_ret {A} (a : A) : logs P (mret a : @M W A).
Proof. intros st. by apply logs_from_quiet. Qed.

Lemma logs_raise {A} e : logs P (raise e : @M W A).
Proof. intros st. by apply logs_from_quiet. Qed.

Lemma logs_lift {A} (r : result A) : logs P (lift r : @M W A).
Proof. intros st. by apply logs_from_quiet. Qed.

Lemma logs_gets {A} (f : IndyService.t → A) : logs P (gets f : @M W A).
Proof. intros st. by apply logs_from_quiet. Qed.

Lemma logs_modify f : logs P (modify f : @M W unit).
Proof. intros st. by apply logs_from_quiet. Qed.

Lemma logs_ext (E : Env W) c : P c → logs P (ext E c).
Proof.
  intros Hc st. exists [c]. unfold ext. destruct (handle E c (world st)).
  split; [done|]. by repeat constructor.
Qed.

Lemma logs_bind {A B} (m : @M W A) (k : A → M B) :
  logs P m → (∀ a, logs P (k a)) → logs P (m ≫= k).
Proof. intros Hm Hk st. apply logs_from_bind; [apply Hm|]. intros a st1 _. apply Hk. Qed.

(** The value that a lifted result or a read of the service hands to the
    rest of the coroutine is known. *)
Lemma logs_bind_lift {A B} (r : result A) (k : A → @M W B) :
  (∀ a, r = Ok a → logs P (k a)) → logs P (lift r ≫= k).
Proof.
  intros Hk st. apply logs_from_bind; [by apply logs_from_quiet|].
  intros a st1 [= -> <-]. by apply Hk.
Qed.

Lemma logs_catch {A} (m : @M W A) h :
  logs P m → (∀ e k, h e = Some k → logs P k) → logs P (catch m h).
Proof.
  intros Hm Hh st. destruct (Hm st) as (new & Hrun & Hnew).
  unfold logs_from, catch. destruct (m st) as [[a|e] st1]; simpl in *; [by exists new|].
  destruct (h e) as [k|] eqn:He; [|by exists new].
  destruct (Hh e k He st1) as (new' & Hk & Hnew').
  exists (new ++ new'). rewrite Hk, Hrun, app_assoc. split; [done|].
  by apply Forall_app.
Qed.

Lemma logs_for_each {A} (body : A → @M W unit) xs :
  (∀ x, logs P (body x)) → logs P (for_each body xs).
Proof.
  intros Hb. induction xs as [|x xs IH]; simpl; [apply logs_ret|].
  apply logs_bind; auto.
Qed.

Lemma logs_sync_each (body : nat → @M W bool) xs :
  (∀ x, logs P (body x)) → ∀ b, logs P (sync_each body xs b).
Proof.
  intros Hb. induction xs as [|x xs IH]; intros b; simpl; [apply logs_ret|].
  apply logs_bind; auto.
Qed.

End Logs.

End Logging.

(** One step of a proof about the log; [tac] shows that a call made is
    allowed. *)
Ltac logs_step tac :=
  lazymatch goal with
  | |- logs _ (mret _) => apply logs_ret
  | |- logs _ (raise _) => apply logs_raise
  | |- logs _ (lift _ ≫= _) => apply logs_bind_lift; intros ? ?
  | |- logs _ (lift _) => apply logs_lift
  | |- logs _ (gets _) => apply logs_gets
  | |- logs _ (modify _) => apply logs_modify
  | |- logs _ (ext _ _) => apply logs_ext; tac
  | |- logs _ (_ ≫= _) => apply logs_bind; [|intros ?]
  | |- logs _ (catch _ _) => apply logs_catch; [|intros [] ? ?; simplify_eq/=]
  | |- logs _ (for_each _ _) => apply logs_for_each; intros ?
  | |- logs _ (sync_each _ _ _) => apply logs_sync_each; intros ?
  | |- logs _ (match ?x with _ => _ end) => destruct x eqn:?
  | |- logs _ (let '(_, _) := ?x in _) => destruct x
  end.

Ltac logs_steps tac :=
  repeat first [logs_step tac | progress autounfold with svc].

(** ** The genesis file and the pool *)

Section Genesis.

Context {W : Type} (E : Env W).

(** Whatever the ledger server answers and however the step ends, setting
    up the pool writes a genesis file only with downloaded data whose first
    line [json.loads] accepts and turns into a true value; data that fails
    the check is never written. *)
Theorem genesis_written_only_if_valid : logs (valid_write E) (_setup_pool E).
Proof.
  logs_steps ltac:(try done).
  simpl. eexists _, _. split_and!; [done..|].
  by apply negb_false_iff.
Qed.

End Genesis.

(** ** Registration of the DID *)

Section Registration.

Context {W : Type} (E : Env W).

(** With auto-registration switched off, checking the registration of an
    agent never posts anything: whatever the ledger says of the DID, the
    only call made is the look-up. *)
Theorem no_registration_without_auto_register i auto_register role :
  truthy auto_register = false →
  logs (λ c, is_post c = false) (_check_registration E i auto_register role).
Proof.
  intros Hauto. unfold _check_registration. rewrite Hauto. simpl.
  logs_steps ltac:(try done).
Qed.

End Registration.

Lemma no_registration_without_auto_register_witness :
  logs (λ c, is_post c = false)
       (_check_registration stub 0 (JBool false) "TRUST_ANCHOR").
Proof. apply (no_registration_without_auto_register stub 0 (JBool false)). reflexivity. Defined.

(** ** Resolving a schema *)

Lemma resolve_in_found agents name version origin_did found :
  resolve_in agents name version origin_did = Ok found →
  ∃ l1 agent l2 ct,
    agents = l1 ++ agent :: l2
    ∧ Forall (λ a, ¬ answers_for name version origin_did a) l1
    ∧ AgentCfg.synced agent = true
    ∧ AgentCfg.find_credential_type agent name version origin_did = Some ct
    ∧ rs_agent_id found = AgentCfg.agent_id agent
    ∧ rs_schema_name found = name
    ∧ rs_schema_version found = SchemaCfg.version (CredType.definition ct)
    ∧ SchemaCfg.attr_names (CredType.definition ct) = Ok (rs_attr_names found)
    ∧ rs_schema_id found
      = schema_id (rs_origin_did found) name (rs_schema_version found).
Proof.
  induction agents as [|a agents IH]; [done|]. simpl.
  destruct (AgentCfg.synced a) eqn:Hs.
  - destruct (AgentCfg.find_credential_type a name version origin_did) as [ct|] eqn:Hct.
    + destruct (SchemaCfg.attr_names (CredType.definition ct)) as [names|] eqn:Hn;
        [|done].
      intros [= <-]. exists [], a, agents, ct. simpl.
      apply find_matching_some in Hct as Hcmp. destruct Hcmp as [_ Hcmp].
      apply compare_spec in Hcmp as [Hname _]. simpl in Hname.
      split_and!; try done. by rewrite Hname.
    + intros (l1 & agent & l2 & ct & -> & Hl1 & Hrest)%IH.
      exists (a :: l1), agent, l2, ct. split; [done|]. split; [|exact Hrest].
      constructor; [|done]. intros [_ [? ?]]. congruence.
  - intros (l1 & agent & l2 & ct & -> & Hl1 & Hrest)%IH.
    exists (a :: l1), agent, l2, ct. split; [done|]. split; [|exact Hrest].
    constructor; [|done]. intros [? _]. congruence.
Qed.

Lemma resolve_in_not_found agents name version origin_did :
  resolve_in agents name version origin_did
  = Raise (IndyConfigError "Issuer schema not found")
  ↔ Forall (λ a, ¬ answers_for name version origin_did a) agents.
Proof.
  induction agents as [|a agents IH]; [by split|]. simpl.
  rewrite Forall_cons, <- IH. unfold answers_for.
  destruct (AgentCfg.synced a); [|naive_solver].
  destruct (AgentCfg.find_credential_type a name version origin_did) as [ct|];
    [|naive_solver].
  destruct (SchemaCfg.attr_names (CredType.definition ct)) as [names|e] eqn:Hn.
  - split; [done|]. intros [Hno _]. destruct Hno. by split.
  - split; [|intros [Hno _]; destruct Hno; by split].
    intros [= ->]. unfold SchemaCfg.attr_names in Hn.
    induction (SchemaCfg._attributes (CredType.definition ct)) as [|x l IHl]; [done|].
    simpl in Hn. destruct (x !! "name"); [|done].
    destruct (SchemaCfg.attr_names_of l); [done|]. injection Hn as ->. by apply IHl.
Qed.

Section Resolving.

Context {W : Type}.

(** [_resolve_schema] answers from the first agent, in registration order,
    that is synced and has a credential type matching the name, version and
    origin DID asked for: the answer names that agent and carries the name
    asked for and the attribute names of the matching definition.  It
    raises "Issuer schema not found" exactly when no agent can answer; an
    agent that is not synced is never consulted.  Either way the service is
    left as it was and nothing is sent out. *)
Theorem resolve_schema_from_first_synced_issuer (st st' : @State W) name version
    origin_did r :
  _resolve_schema name version origin_did st = (r, st') →
  st' = st
  ∧ (∀ found, r = Ok found →
       ∃ l1 agent l2 ct,
         IndyService._agents (svc st) = l1 ++ agent :: l2
         ∧ Forall (λ a, ¬ answers_for name version origin_did a) l1
         ∧ AgentCfg.synced agent = true
         ∧ AgentCfg.find_credential_type agent name version origin_did = Some ct
         ∧ rs_agent_id found = AgentCfg.agent_id agent
         ∧ rs_schema_name found = name
         ∧ rs_schema_version found = SchemaCfg.version (CredType.definition ct)
         ∧ SchemaCfg.attr_names (CredType.definition ct) = Ok (rs_attr_names found)
         ∧ rs_schema_id found
           = schema_id (rs_origin_did found) name (rs_schema_version found))
  ∧ (r = Raise (IndyConfigError "Issuer schema not found")
     ↔ Forall (λ a, ¬ answers_for name version origin_did a)
              (IndyService._agents (svc st))).
Proof.
  unfold _resolve_schema. rewrite bind_run. cbn [gets]. unfold lift.
  intros [= <- <-]. split; [done|]. split.
  - intros found. apply resolve_in_found.
  - rewrite <- resolve_in_not_found. done.
Qed.

End Resolving.

Lemma resolve_schema_from_first_synced_issuer_witness :
  issuing = issuing
  ∧ (∀ found,
       (_resolve_schema "degree" None None issuing).1 = Ok found →
       ∃ l1 agent l2 ct,
         IndyService._agents (svc issuing) = l1 ++ agent :: l2
         ∧ Forall (λ a, ¬ answers_for "degree" None None a) l1
         ∧ AgentCfg.synced agent = true
         ∧ AgentCfg.find_credential_type agent "degree" None None = Some ct
         ∧ rs_agent_id found = AgentCfg.agent_id agent
         ∧ rs_schema_name found = "degree"
         ∧ rs_schema_version found = SchemaCfg.version (CredType.definition ct)
         ∧ SchemaCfg.attr_names (CredType.definition ct) = Ok (rs_attr_names found)
         ∧ rs_schema_id found
           = schema_id (rs_origin_did found) "degree" (rs_schema_version found))
  ∧ ((_resolve_schema "degree" None None issuing).1
     = Raise (IndyConfigError "Issuer schema not found")
     ↔ Forall (λ a, ¬ answers_for "degree" None None a)
              (IndyService._agents (svc issuing))).
Proof.
  apply (resolve_schema_from_first_synced_issuer issuing issuing "degree" None None
           (_resolve_schema "degree" None None issuing).1).
  reflexivity.
Defined.

(** ** What a sync step returns *)

Section Returns.

Context {W : Type} (E : Env W).

Lemma bind_last {A B} (m : @M W A) (k : A → M B) st b st' :
  (m ≫= k) st = (Ok b, st') → ∃ a st1, k a st1 = (Ok b, st').
Proof. intros (a & st1 & _ & ?)%bind_Ok_inv. eauto. Qed.

Lemma nth_entry_run {A} what (f : IndyService.t → list A) i (st : @State W) :
  nth_entry what f i st =
    (match f (svc st) !! i with
     | Some x => Ok x
     | None => Raise (KeyError what)
     end, st).
Proof. unfold nth_entry. rewrite bind_run. simpl. by destruct (_ !! i). Qed.

Lemma read_flag {A B} what (f : IndyService.t → list A) (g : A → B) i
    (st st' : @State W) b :
  (x ← nth_entry what f i; mret (g x)) st = (Ok b, st') →
  st' = st ∧ g <$> f (svc st) !! i = Some b.
Proof.
  rewrite bind_run, nth_entry_run. destruct (f (svc st) !! i); [|done].
  by intros [= <- <-].
Qed.

(** [_sync_agent] returns the [synced] flag that it leaves on the agent. *)
Lemma _sync_agent_returns i (st st' : @State W) b :
  _sync_agent E i st = (Ok b, st') → synced_at i (svc st') = Some b.
Proof.
  unfold _sync_agent, synced_at. rewrite bind_run, nth_agent_run.
  destruct (IndyService._agents (svc st) !! i) as [a|] eqn:Hi; [|done].
  destruct (AgentCfg.synced a) eqn:Hs.
  { intros [= <- <-]. by rewrite Hi, <- Hs. }
  intros (ready & st1 & Hready & H)%bind_Ok_inv.
  destruct ready; simpl in H.
  - do 6 apply bind_last in H as (? & ? & H).
    by apply (read_flag "agent" IndyService._agents AgentCfg.synced) in H as [-> ?].
  - injection H as <- <-. assert (st1 = st) as ->; [|by rewrite Hi; simpl; rewrite Hs].
    destruct (AgentCfg.created a); [done|]. rewrite bind_run in Hready. simpl in Hready.
    destruct (lookup_by _ _ _) as [wallet|]; [|done].
    destruct (WalletCfg.created wallet); simpl in Hready; [|by injection Hready].
    by apply bind_last in Hready as (? & ? & [=]).
Qed.

(** [_sync_connection] returns the [synced] flag that it leaves on the
    connection. *)
Lemma _sync_connection_returns c (st st' : @State W) b :
  _sync_connection E c st = (Ok b, st') → connection_synced_at c (svc st') = Some b.
Proof.
  unfold _sync_connection, connection_synced_at.
  rewrite bind_run. unfold nth_connection at 1. rewrite nth_entry_run.
  destruct (IndyService._connections (svc st) !! c) as [conn|] eqn:Hc; [|done].
  rewrite bind_run. cbn [gets]. destruct (lookup_by _ _ _) as [agent|]; [|done].
  destruct (ConnectionCfg.synced conn) eqn:Hs.
  { intros [= <- <-]. by rewrite Hc, <- Hs. }
  intros (ready & st1 & Hready & H)%bind_Ok_inv.
  destruct ready; simpl in H.
  - apply bind_last in H as (? & ? & H).
    by apply (read_flag "connection" IndyService._connections ConnectionCfg.synced)
      in H as [-> ?].
  - injection H as <- <-. assert (st1 = st) as ->; [|by rewrite Hc; simpl; rewrite Hs].
    destruct (ConnectionCfg.created conn); [done|].
    destruct (AgentCfg.synced agent); simpl in Hready; [|by injection Hready].
    by apply bind_last in Hready as (? & ? & [=]).
Qed.

End Returns.

(** ** Synchronising a proof specification *)

Lemma attr_names_of_raise attrs e :
  SchemaCfg.attr_names_of attrs = Raise e → e = KeyError "name".
Proof.
  induction attrs as [|a attrs IH]; [done|]. simpl.
  destruct (a !! "name"); [|by intros [= <-]].
  destruct (SchemaCfg.attr_names_of attrs); [done|]. intros [= <-]. by apply IH.
Qed.

Lemma populate_raise found_schema schemas e schemas' :
  ProofSpecCfg.populate found_schema schemas = (Raise e, schemas') → e = KeyError "name".
Proof.
  revert schemas'. induction schemas as [|r schemas IH]; intros schemas'; [done|].
  cbn [ProofSpecCfg.populate].
  destruct (ProofSpecCfg.populate found_schema schemas) as [res rest].
  assert (∀ r1, (res, r1 :: rest) = (Raise e, schemas') → e = KeyError "name") as Hgo.
  { intros r1 [= -> <-]. by eapply IH. }
  destruct (ProofSpecCfg.definition r); [apply Hgo|].
  destruct (SchemaCfg.compare _ _); [|apply Hgo].
  destruct (ProofSpecCfg.attributes r) as [[|? ?]|]; [|apply Hgo|].
  - destruct (SchemaCfg.attr_names found_schema) eqn:Hn; [apply Hgo|].
    intros [= <- _]. by eapply attr_names_of_raise.
  - destruct (SchemaCfg.attr_names found_schema) eqn:Hn; [apply Hgo|].
    intros [= <- _]. by eapply attr_names_of_raise.
Qed.

Section SyncProofSpec.

Context {W : Type}.

Lemma resolve_missing_silent p missing :
  ∀ check, logs (λ _, False) (resolve_missing (W:=W) p missing check).
Proof.
  induction missing as [|s_key rest IH]; intros check; simpl.
  - logs_steps idtac.
  - logs_steps idtac; apply IH.
Qed.

Lemma _sync_proof_spec_silent p : logs (λ _, False) (_sync_proof_spec (W:=W) p).
Proof. unfold _sync_proof_spec. logs_steps idtac; apply resolve_missing_silent. Qed.

Lemma logs_nothing {A} (m : @M W A) st : logs (λ _, False) m → trace (m st).2 = trace st.
Proof.
  intros Hm. destruct (Hm st) as (new & -> & Hnew).
  destruct new as [|c new]; [by rewrite app_nil_r|]. by apply Forall_cons in Hnew as [[] _].
Qed.

(** One round of the loop of [_sync_proof_spec]: when the attempt to
    resolve a key ends in a configuration error, the service is as it
    was. *)
Lemma resolve_attempt_refused p s_key (st st' : @State W) e :
  (found ← _resolve_schema (ProofSpecCfg.key_name s_key) (ProofSpecCfg.key_version s_key)
                           (ProofSpecCfg.key_did s_key);
   cfg ← lift (new_SchemaCfg (rs_schema_name found) (rs_schema_version found)
                 (AttrsSequence (AttrStr <$> rs_attr_names found)) (rs_origin_did found));
   populate_schema_at p cfg;; mret true) st = (Raise e, st') →
  is_IndyConfigError e = true → svc st' = svc st.
Proof.
  intros H He.
  apply bind_inv in H as [(found & st1 & Hfound & H)|(e' & Hfound & _)].
  2:{ unfold _resolve_schema in Hfound. rewrite bind_run in Hfound. by injection Hfound as _ <-. }
  assert (st1 = st) as ->.
  { unfold _resolve_schema in Hfound. rewrite bind_run in Hfound. by injection Hfound as _ <-. }
  apply bind_inv in H as [(cfg & st1 & Hcfg & H)|(e' & Hcfg & _)];
    [|by injection Hcfg as _ <-].
  injection Hcfg as _ <-.
  apply bind_inv in H as [(u & st1 & _ & [=])|(e' & H & [= <-])].
  unfold populate_schema_at in H. rewrite bind_run in H. unfold nth_proof_spec in H.
  rewrite nth_entry_run in H.
  destruct (IndyService._proof_specs (svc st) !! p) as [spec|]; [|by injection H as <- _].
  unfold ProofSpecCfg.populate_schema in H.
  destruct (ProofSpecCfg.populate cfg (ProofSpecCfg.schemas spec)) as [r schemas'] eqn:Hp.
  rewrite bind_run in H. simpl in H. destruct r as [[]|e']; [done|].
  injection H as <- _. by rewrite (populate_raise _ _ _ _ Hp) in He.
Qed.

Lemma resolve_missing_unchecked p missing : ∀ check (st st' : @State W),
  resolve_missing p missing check st = (Ok false, st') →
  check = false ∧ svc st' = svc st.
Proof.
  induction missing as [|s_key rest IH]; intros check st st'; simpl.
  { by intros [= -> <-]. }
  intros (check1 & st1 & Hround & Hrest)%bind_Ok_inv.
  destruct (IH _ _ _ Hrest) as [-> Hsvc]. rewrite Hsvc. clear Hrest Hsvc IH.
  apply catch_Ok_inv in Hround as [Hok|(e & st2 & k & Hraise & Hk & Hrun)].
  - by do 3 apply bind_last in Hok as (? & ? & Hok).
  - destruct (is_IndyConfigError e) eqn:He; [|done]. injection Hk as <-.
    injection Hrun as -> <-. split; [done|]. by eapply resolve_attempt_refused.
Qed.

Lemma _sync_proof_spec_returns p (st st' : @State W) b :
  _sync_proof_spec p st = (Ok b, st') →
  ∃ spec', IndyService._proof_specs (svc st') !! p = Some spec'
     ∧ ProofSpecCfg.synced spec' = b
     ∧ (b = true ↔ ProofSpecCfg.get_incomplete_schemas spec' = []).
Proof.
  unfold _sync_proof_spec. rewrite bind_run. unfold nth_proof_spec at 1.
  rewrite nth_entry_run.
  destruct (IndyService._proof_specs (svc st) !! p) as [spec0|] eqn:H0; [|done].
  intros (check & st1 & Hloop & H)%bind_Ok_inv.
  rewrite bind_run in H. unfold nth_proof_spec at 1 in H. rewrite nth_entry_run in H.
  destruct (IndyService._proof_specs (svc st1) !! p) as [spec1|] eqn:H1; [|done].
  assert ((if check then ProofSpecCfg.get_incomplete_schemas spec1
           else ProofSpecCfg.get_incomplete_schemas spec0)
          = ProofSpecCfg.get_incomplete_schemas spec1) as Hmissing.
  { destruct check; [done|]. apply resolve_missing_unchecked in Hloop as [_ Hsvc].
    rewrite Hsvc in H1. congruence. }
  rewrite Hmissing in H. unfold update_proof_spec, modify in H.
  rewrite bind_run in H. cbn [svc world trace] in H.
  apply (read_flag "proof spec" IndyService._proof_specs ProofSpecCfg.synced) in H
    as [-> Hflag].
  cbn [svc IndyService._proof_specs IndyService.set_proof_specs] in *.
  rewrite list_lookup_alter, decide_True, H1 in Hflag |- * by done.
  simpl in Hflag. injection Hflag as <-.
  eexists. split; [done|]. split; [done|]. simpl.
  unfold ProofSpecCfg.get_incomplete_schemas. simpl.
  by rewrite bool_decide_eq_true.
Qed.

(** [_sync_proof_spec] sends nothing out, and when it returns, its result
    is the [synced] flag it leaves on the specification, which is set
    exactly when no schema of the specification is left without a
    definition. *)
Theorem sync_proof_spec_synced_iff_complete p (st st' : @State W) b :
  _sync_proof_spec p st = (Ok b, st') →
  trace st' = trace st
  ∧ ∃ spec', IndyService._proof_specs (svc st') !! p = Some spec'
       ∧ ProofSpecCfg.synced spec' = b
       ∧ (b = true ↔ ProofSpecCfg.get_incomplete_schemas spec' = []).
Proof.
  intros H. split; [|by eapply _sync_proof_spec_returns].
  pose proof (logs_nothing _ st (_sync_proof_spec_silent p)) as Hq.
  by rewrite H in Hq.
Qed.

End SyncProofSpec.

Lemma sync_proof_spec_synced_iff_complete_witness :
  trace (_sync_proof_spec 0 proving).2 = trace proving
  ∧ ∃ spec', IndyService._proof_specs (svc (_sync_proof_spec 0 proving).2) !! 0 = Some spec'
       ∧ ProofSpecCfg.synced spec' = false
       ∧ (false = true ↔ ProofSpecCfg.get_incomplete_schemas spec' = []).
Proof.
  apply (sync_proof_spec_synced_iff_complete 0 proving (_sync_proof_spec 0 proving).2 false).
  vm_compute. reflexivity.
Defined.

(** ** What a pass returns *)

Section Sweeps.

Context {W : Type} {A : Type} (cat : IndyService.t → list A) (flag : A → bool)
        (body : nat → @M W bool).

Hypothesis body_frame : ∀ i, keeps (others_at cat i) (body i).
Hypothesis body_returns : ∀ i st b st',
  body i st = (Ok b, st') → flag <$> cat (svc st') !! i = Some b.

(** A sweep over the first [k] entries of a catalogue returns the
    conjunction of what it started with and of the flags that it leaves on
    these entries. *)
Lemma sweep_flags : ∀ k b0 st b st',
  sync_each body (seq 0 k) b0 st = (Ok b, st') →
  b = b0 && forallb flag (take k (cat (svc st'))) ∧ (k ≤ length (cat (svc st')))%nat.
Proof.
  induction k as [|k IH]; intros b0 st b st'.
  { simpl. intros [= <- <-]. rewrite andb_true_r. split; [done|lia]. }
  rewrite seq_S, sync_each_run. simpl.
  destruct (sync_each body (seq 0 k) b0 st) as [[b1|e] st1] eqn:Hprefix; [|done].
  destruct (IH _ _ _ _ Hprefix) as [-> Hlen].
  intros (ok & st2 & Hbody & [= <- <-])%bind_Ok_inv.
  pose proof (body_frame k st1) as [Hlen' Hother]. rewrite Hbody in Hlen', Hother.
  simpl in Hlen', Hother. pose proof (body_returns _ _ _ _ Hbody) as Hflag.
  destruct (cat (svc st2) !! k) as [x|] eqn:Hk; [|done]. injection Hflag as <-.
  split; [|by apply lookup_lt_Some in Hk].
  assert (take k (cat (svc st2)) = take k (cat (svc st1))) as Htake.
  { apply list_eq. intros j. destruct (decide (j < k)%nat) as [Hj|Hj].
    - rewrite !lookup_take_lt by done. apply Hother. lia.
    - by rewrite !lookup_take_ge by lia. }
  rewrite (take_S_r _ _ _ Hk), forallb_app, Htake. simpl.
  destruct (flag x), b0, (forallb flag (take k (cat (svc st1)))); done.
Qed.

Lemma sweep_all_flags b0 st b st' :
  sync_each body (seq 0 (length (cat (svc st)))) b0 st = (Ok b, st') →
  b = b0 && forallb flag (cat (svc st')).
Proof.
  intros H. destruct (sweep_flags _ _ _ _ _ H) as [-> _]. f_equal.
  assert (length (cat (svc st')) = length (cat (svc st))) as Hlen.
  { assert (keeps (same (λ s, length (cat s)))
                  (sync_each body (seq 0 (length (cat (svc st)))) b0)) as Hkeep.
    { apply keeps_sync_each; [apply _|]. intros i.
      eapply keeps_weaken; [|apply body_frame]. by intros s s' [? _]. }
    specialize (Hkeep st). by rewrite H in Hkeep. }
  by rewrite <- Hlen, take_ge.
Qed.

End Sweeps.

Section PassResult.

Context {W : Type} (E : Env W).

Lemma agents_sweep_flags b0 (st st' : @State W) b :
  sync_each (_sync_agent E) (seq 0 (length (IndyService._agents (svc st)))) b0 st
    = (Ok b, st') →
  b = b0 && forallb AgentCfg.synced (IndyService._agents (svc st')).
Proof.
  apply (sweep_all_flags IndyService._agents AgentCfg.synced).
  - intros i. eapply keeps_weaken; [|apply _sync_agent_frame]. by intros s s' [_ ?].
  - intros i s b' s'. apply _sync_agent_returns.
Qed.

Lemma connections_sweep_flags b0 (st st' : @State W) b :
  sync_each (_sync_connection E) (seq 0 (length (IndyService._connections (svc st)))) b0 st
    = (Ok b, st') →
  b = b0 && forallb ConnectionCfg.synced (IndyService._connections (svc st'))
  ∧ IndyService._agents (svc st') = IndyService._agents (svc st).
Proof.
  intros H. split.
  - revert H. apply (sweep_all_flags IndyService._connections ConnectionCfg.synced).
    + intros i. eapply keeps_weaken; [|apply _sync_connection_frame]. by intros s s' [_ ?].
    + intros i s b' s'. apply _sync_connection_returns.
  - pose proof (sweep_connections E (length (IndyService._connections (svc st))) b0 st)
      as [_ Hbeside].
    rewrite H in Hbeside. unfold beside_connections in Hbeside. simpl in Hbeside.
    congruence.
Qed.

Lemma proof_specs_sweep_flags b0 (st st' : @State W) b :
  sync_each _sync_proof_spec (seq 0 (length (IndyService._proof_specs (svc st)))) b0 st
    = (Ok b, st') →
  b = b0 && forallb ProofSpecCfg.synced (IndyService._proof_specs (svc st'))
  ∧ beside_proof_specs (svc st') = beside_proof_specs (svc st).
Proof.
  intros H. split.
  - revert H. apply (sweep_all_flags IndyService._proof_specs ProofSpecCfg.synced).
    + intros i. eapply keeps_weaken; [|apply _sync_proof_spec_frame]. by intros s s' [_ ?].
    + intros i s b' s' Hrun.
      apply _sync_proof_spec_returns in Hrun as (spec' & Hspec & <- & _).
      by rewrite Hspec.
  - assert (keeps (same beside_proof_specs)
              (sync_each (_sync_proof_spec (W:=W))
                         (seq 0 (length (IndyService._proof_specs (svc st)))) b0)) as Hkeep.
    { apply keeps_sync_each; [apply _|]. intros i.
      eapply keeps_weaken; [|apply _sync_proof_spec_frame]. by intros s s' [? _]. }
    specialize (Hkeep st). by rewrite H in Hkeep.
Qed.

Lemma service_sync_all_flags (st st' : @State W) b :
  _service_sync E st = (Ok b, st') → b = all_synced (svc st').
Proof.
  unfold _service_sync.
  intros ([] & sa & _ & H)%bind_Ok_inv. apply bind_Ok_inv in H as ([] & sb & _ & H).
  rewrite bind_run in H. cbn [gets] in H.
  apply bind_Ok_inv in H as (b1 & sc & Hagents & H).
  rewrite bind_run in H. cbn [gets] in H.
  apply bind_Ok_inv in H as (b2 & sd & Hconns & H).
  rewrite bind_run in H. cbn [gets] in H.
  apply bind_Ok_inv in H as (b3 & se & Hspecs & H). injection H as <- <-.
  apply agents_sweep_flags in Hagents as ->.
  apply connections_sweep_flags in Hconns as [-> Hsame].
  apply proof_specs_sweep_flags in Hspecs as [-> Hbeside].
  unfold beside_proof_specs in Hbeside. unfold all_synced.
  assert (IndyService._agents (svc se) = IndyService._agents (svc sc)) as -> by congruence.
  assert (IndyService._connections (svc se) = IndyService._connections (svc sd)) as ->
    by congruence.
  done.
Qed.

(** What [_service_sync] returns, when it returns, is the state it leaves:
    [True] exactly when every agent, every connection and every proof
    specification is synced at the end of the pass, [False] as soon as one
    of them is not. *)
Theorem service_sync_returns_all_synced (st st' : @State W) b :
  _service_sync E st = (Ok b, st') → b = all_synced (svc st').
Proof. apply service_sync_all_flags. Qed.

End PassResult.

Lemma service_sync_returns_all_synced_witness :
  true = all_synced (svc (_service_sync stub good_issuer).2).
Proof.
  apply (service_sync_returns_all_synced stub good_issuer (_service_sync stub good_issuer).2).
  vm_compute. reflexivity.
Defined.

(** ** A converged service *)

Section Converged.

Context {W : Type} (E : Env W).

Lemma for_each_fixed {A} (body : A → @M W unit) xs st :
  (∀ x, x ∈ xs → body x st = (Ok (), st)) → for_each body xs st = (Ok (), st).
Proof.
  induction xs as [|x xs IH]; intros Hb; simpl; [done|].
  rewrite bind_run, Hb by set_solver. apply IH. intros y Hy. apply Hb. set_solver.
Qed.

Lemma sync_each_fixed (body : nat → @M W bool) xs b st :
  (∀ x, x ∈ xs → body x st = (Ok true, st)) → sync_each body xs b st = (Ok b, st).
Proof.
  induction xs as [|x xs IH]; intros Hb; simpl; [done|].
  rewrite bind_run, Hb by set_solver. apply IH. intros y Hy. apply Hb. set_solver.
Qed.

Lemma alter_fixed {A} (f : A → A) i (l : list A) :
  (∀ x, l !! i = Some x → f x = x) → alter f i l = l.
Proof.
  intros Hf. apply list_eq. intros j. rewrite list_lookup_alter.
  case_decide as Hj; [|done]. subst j.
  destruct (l !! i) as [x|] eqn:Hi; [|done]. simpl. by rewrite Hf.
Qed.

Lemma _sync_proof_spec_fixed p spec (st : @State W) :
  IndyService._proof_specs (svc st) !! p = Some spec →
  ProofSpecCfg.synced spec = true →
  ProofSpecCfg.get_incomplete_schemas spec = [] →
  _sync_proof_spec p st = (Ok true, st).
Proof.
  intros Hp Hs Hnone. unfold _sync_proof_spec.
  rewrite bind_run. unfold nth_proof_spec at 1. rewrite nth_entry_run, Hp, Hnone.
  cbn [resolve_missing]. rewrite bind_run. cbn [mret M_ret].
  rewrite bind_run. unfold nth_proof_spec at 1. rewrite nth_entry_run, Hp.
  rewrite bool_decide_eq_true_2 by done.
  unfold update_proof_spec, modify. rewrite bind_run.
  assert (BuildState
            (IndyService.set_proof_specs
               (alter (ProofSpecCfg.set_synced true) p (IndyService._proof_specs (svc st)))
               (svc st)) (world st) (trace st) = st) as ->.
  { rewrite alter_fixed.
    - destruct st as [[] ? ?]. done.
    - intros x Hx. rewrite Hp in Hx. injection Hx as <-. by destruct spec; simpl in *; subst. }
  rewrite bind_run. unfold nth_proof_spec. by rewrite nth_entry_run, Hp, Hs.
Qed.

(** On a converged service a pass is a no-op. *)
Lemma converged_fixed (st : @State W) :
  converged (svc st) → _service_sync E st = (Ok true, st).
Proof.
  intros (Hopen & Hwallets & Hagents & Hconns & Hspecs). unfold _service_sync.
  assert (_setup_pool E st = (Ok (), st)) as Hpool.
  { unfold _setup_pool. rewrite bind_run. cbn [gets]. by rewrite Hopen. }
  rewrite (bind_Ok _ _ _ _ _ Hpool).
  assert (create_wallets E st = (Ok (), st)) as Hcreate.
  { unfold create_wallets. rewrite bind_run. cbn [gets]. apply for_each_fixed.
    intros i [_ Hi]%elem_of_seq. unfold create_wallet.
    rewrite bind_run. unfold nth_wallet. rewrite nth_entry_run.
    destruct (lookup_lt_is_Some_2 (IndyService._wallets (svc st)) i ltac:(lia)) as [w Hw].
    rewrite Hw. rewrite Forall_forall in Hwallets.
    by rewrite (Hwallets w) by by eapply list_elem_of_lookup_2. }
  rewrite (bind_Ok _ _ _ _ _ Hcreate). rewrite bind_run. cbn [gets].
  rewrite bind_run, sync_each_fixed.
  2:{ intros i [_ Hi]%elem_of_seq. unfold _sync_agent. rewrite bind_run, nth_agent_run.
      destruct (lookup_lt_is_Some_2 (IndyService._agents (svc st)) i ltac:(lia)) as [a Ha].
      rewrite Ha. rewrite Forall_forall in Hagents.
      by rewrite (Hagents a) by by eapply list_elem_of_lookup_2. }
  rewrite bind_run. cbn [gets]. rewrite bind_run, sync_each_fixed.
  2:{ intros c [_ Hc]%elem_of_seq. unfold _sync_connection.
      rewrite bind_run. unfold nth_connection. rewrite nth_entry_run.
      destruct (lookup_lt_is_Some_2 (IndyService._connections (svc st)) c ltac:(lia))
        as [conn Hconn].
      rewrite Hconn. rewrite Forall_forall in Hconns.
      destruct (Hconns conn) as [Hs [agent Hagent]]; [by eapply list_elem_of_lookup_2|].
      rewrite bind_run. cbn [gets]. by rewrite Hagent, Hs. }
  rewrite bind_run. cbn [gets]. rewrite bind_run, sync_each_fixed; [done|].
  intros p [_ Hp]%elem_of_seq.
  destruct (lookup_lt_is_Some_2 (IndyService._proof_specs (svc st)) p ltac:(lia))
    as [spec Hspec].
  rewrite Forall_forall in Hspecs.
  destruct (Hspecs spec) as [Hs Hnone]; [by eapply list_elem_of_lookup_2|].
  by eapply _sync_proof_spec_fixed.
Qed.

End Converged.

Section SweepInvariant.

Context {W : Type} {A : Type} (cat : IndyService.t → list A)
        (Q : IndyService.t → A → Prop) (body : nat → @M W bool).

Hypothesis body_frame : ∀ i, keeps (others_at cat i) (body i).
Hypothesis body_establishes : ∀ i st b st',
  body i st = (Ok b, st') → ∃ x, cat (svc st') !! i = Some x ∧ Q (svc st') x.
Hypothesis body_stable : ∀ i st x, Q (svc st) x → Q (svc (body i st).2) x.

(** What every step of a sweep establishes for its own entry, and no step
    undoes, holds of all the entries swept. *)
Lemma sweep_invariant : ∀ k b0 st b st',
  sync_each body (seq 0 k) b0 st = (Ok b, st') →
  Forall (Q (svc st')) (take k (cat (svc st'))).
Proof.
  induction k as [|k IH]; intros b0 st b st'; [by rewrite take_0|].
  rewrite seq_S, sync_each_run. simpl.
  destruct (sync_each body (seq 0 k) b0 st) as [[b1|e] st1] eqn:Hprefix; [|done].
  specialize (IH _ _ _ _ Hprefix).
  intros (ok & st2 & Hbody & [= <- <-])%bind_Ok_inv.
  pose proof (body_frame k st1) as [Hlen' Hother]. rewrite Hbody in Hlen', Hother.
  simpl in Hlen', Hother.
  destruct (body_establishes _ _ _ _ Hbody) as (x & Hk & HQ).
  assert (take k (cat (svc st2)) = take k (cat (svc st1))) as Htake.
  { apply list_eq. intros j. destruct (decide (j < k)%nat) as [Hj|Hj].
    - rewrite !lookup_take_lt by done. apply Hother. lia.
    - by rewrite !lookup_take_ge by lia. }
  rewrite (take_S_r _ _ _ Hk), Htake. apply Forall_app. split; [|by repeat constructor].
  eapply Forall_impl; [exact IH|]. intros y Hy. simpl.
  pose proof (body_stable k st1 y Hy) as Hs. by rewrite Hbody in Hs.
Qed.

End SweepInvariant.

Section Idempotence.

Context {W : Type} (E : Env W).

Lemma _setup_pool_opened (st st' : @State W) :
  _setup_pool E st = (Ok (), st') → IndyService._opened (svc st') = true.
Proof.
  unfold _setup_pool. rewrite bind_run. cbn [gets].
  destruct (IndyService._opened (svc st)) eqn:Hopen; [by intros [= <-]|].
  intros H. do 5 apply bind_last in H as (? & ? & H). by injection H as <-.
Qed.

Lemma create_wallets_opened : keeps (same IndyService._opened) (create_wallets E).
Proof. keeps_steps same_refl. Qed.

Lemma _sync_connection_agent c (st st' : @State W) b :
  _sync_connection E c st = (Ok b, st') →
  ∃ conn, IndyService._connections (svc st') !! c = Some conn
    ∧ is_Some (lookup_by AgentCfg.agent_id (ConnectionCfg.agent_id conn)
                         (IndyService._agents (svc st'))).
Proof.
  intros H.
  assert (keeps (same (λ s, ConnectionCfg.agent_id <$> IndyService._connections s !! c))
                (_sync_connection E c)) as Hid.
  { unfold _sync_connection.
    keeps_steps ltac:(unfold same; simpl; rewrite list_lookup_alter, decide_True by done;
                      by destruct (_ !! c)). }
  specialize (Hid st). pose proof (_sync_connection_frame E c st) as [Hbeside _].
  rewrite H in Hid, Hbeside. unfold same in Hid. simpl in Hid, Hbeside.
  assert (IndyService._agents (svc st') = IndyService._agents (svc st)) as ->
    by (unfold beside_connections in Hbeside; congruence).
  unfold _sync_connection in H. rewrite bind_run in H. unfold nth_connection at 1 in H.
  rewrite nth_entry_run in H.
  destruct (IndyService._connections (svc st) !! c) as [conn|] eqn:Hc; [|done].
  rewrite bind_run in H. cbn [gets] in H.
  destruct (lookup_by _ _ _) as [agent|] eqn:Hagent; [|done].
  destruct (IndyService._connections (svc st') !! c) as [conn'|]; [|done].
  simpl in Hid. injection Hid as Hid. exists conn'. split; [done|]. rewrite Hid. eauto.
Qed.

(** The state that a pass returning [True] leaves has nothing left to
    do, provided its wallets report that they are created. *)
Lemma pass_converges (st st' : @State W) :
  _service_sync E st = (Ok true, st') →
  Forall (λ w, WalletCfg.created w = true) (IndyService._wallets (svc st')) →
  converged (svc st').
Proof.
  intros Hpass Hwallets.
  pose proof (service_sync_all_flags E _ _ _ Hpass) as Hflags.
  revert Hpass. unfold _service_sync.
  intros ([] & sa & Hpool & H)%bind_Ok_inv. apply bind_Ok_inv in H as ([] & sb & Hcreate & H).
  rewrite bind_run in H. cbn [gets] in H.
  apply bind_Ok_inv in H as (b1 & sc & Hagents & H).
  rewrite bind_run in H. cbn [gets] in H.
  apply bind_Ok_inv in H as (b2 & sd & Hconns & H).
  rewrite bind_run in H. cbn [gets] in H.
  apply bind_Ok_inv in H as (b3 & se & Hspecs & H). injection H as -> <-.
  pose proof (create_wallets_opened sa) as Ho1. rewrite Hcreate in Ho1.
  pose proof (sweep_agents E (length (IndyService._agents (svc sb))) true sb) as [_ Ho2].
  rewrite Hagents in Ho2.
  pose proof (connections_sweep_flags E _ _ _ _ Hconns) as [_ Hsame_agents].
  pose proof (sweep_connections E (length (IndyService._connections (svc sc))) b1 sc)
    as [_ Ho3].
  rewrite Hconns in Ho3.
  pose proof (proof_specs_sweep_flags _ _ _ _ Hspecs) as [_ Ho4].
  unfold same, beside_agents, beside_connections, beside_proof_specs in *.
  simpl in Ho1, Ho2, Ho3, Ho4.
  symmetry in Hflags. unfold all_synced in Hflags.
  apply andb_true_iff in Hflags as [[Hfa Hfc]%andb_true_iff Hfp].
  rewrite forallb_forall in Hfa, Hfc, Hfp.
  split_and!.
  - apply _setup_pool_opened in Hpool. congruence.
  - done.
  - apply Forall_forall. intros a Ha. apply Hfa. by apply list_elem_of_In.
  - assert (Forall (λ conn, is_Some (lookup_by AgentCfg.agent_id
                                       (ConnectionCfg.agent_id conn)
                                       (IndyService._agents (svc sd))))
                   (IndyService._connections (svc sd))) as Hok.
    { pose proof (sweep_invariant IndyService._connections
                    (λ s conn, is_Some (lookup_by AgentCfg.agent_id
                                          (ConnectionCfg.agent_id conn)
                                          (IndyService._agents s)))
                    (_sync_connection E)) as Hsweep.
      assert (length (IndyService._connections (svc sd))
              = length (IndyService._connections (svc sc))) as Hlen.
      { pose proof (sweep_connections E (length (IndyService._connections (svc sc))) b1 sc)
          as [[Hlen _] _]. by rewrite Hconns in Hlen. }
      rewrite <- (take_ge (IndyService._connections (svc sd))
                          (length (IndyService._connections (svc sc)))) by lia.
      eapply Hsweep; [| | |exact Hconns].
      - intros i. eapply keeps_weaken; [|apply _sync_connection_frame]. by intros s s' [_ ?].
      - intros i s b' s'. apply _sync_connection_agent.
      - intros i s x Hx. pose proof (_sync_connection_frame E i s) as [Hb _].
        unfold beside_connections in Hb.
        assert (IndyService._agents (svc (_sync_connection E i s).2)
                = IndyService._agents (svc s)) as -> by congruence.
        done. }
    assert (IndyService._connections (svc se) = IndyService._connections (svc sd)) as Hc
      by congruence.
    assert (IndyService._agents (svc se) = IndyService._agents (svc sd)) as Ha
      by congruence.
    rewrite Hc, Ha. apply Forall_forall. intros conn Hconn. split.
    + apply Hfc. rewrite Hc. by apply list_elem_of_In.
    + rewrite Forall_forall in Hok. by apply Hok.
  - assert (Forall (λ spec, ProofSpecCfg.synced spec = true →
                            ProofSpecCfg.get_incomplete_schemas spec = [])
                   (IndyService._proof_specs (svc se))) as Hok.
    { pose proof (sweep_invariant IndyService._proof_specs
                    (λ _ spec, ProofSpecCfg.synced spec = true →
                               ProofSpecCfg.get_incomplete_schemas spec = [])
                    (_sync_proof_spec (W:=W))) as Hsweep.
      assert (length (IndyService._proof_specs (svc se))
              = length (IndyService._proof_specs (svc sd))) as Hlen.
      { pose proof (sweep_proof_specs (length (IndyService._proof_specs (svc sd))) b2 sd)
          as [Hlen _]. by rewrite Hspecs in Hlen. }
      rewrite <- (take_ge (IndyService._proof_specs (svc se))
                          (length (IndyService._proof_specs (svc sd)))) by lia.
      eapply Hsweep; [| | |exact Hspecs].
      - intros i. eapply keeps_weaken; [|apply _sync_proof_spec_frame]. by intros s s' [_ ?].
      - intros i s b' s' Hrun.
        apply _sync_proof_spec_returns in Hrun as (spec' & Hspec & <- & Hiff).
        exists spec'. split; [done|]. apply Hiff.
      - done. }
    apply Forall_forall. intros spec Hspec. rewrite Forall_forall in Hok.
    assert (ProofSpecCfg.synced spec = true) as Hs by (apply Hfp; by apply list_elem_of_In).
    split; [done|]. by apply Hok.
Qed.

End Idempotence.

Section IdempotentPass.

Context {W : Type} (E : Env W).

(** The pass is idempotent once it has returned [True]: the service it
    leaves is converged (pool open, agents, connections and proof
    specifications synced, every connection's agent registered, every proof
    specification resolved), given that the wallets report they are
    created; and a second pass on it returns [True] again, sends nothing
    out and changes nothing. *)
Theorem service_sync_idempotent (st st' : @State W) :
  _service_sync E st = (Ok true, st') →
  Forall (λ w, WalletCfg.created w = true) (IndyService._wallets (svc st')) →
  converged (svc st') ∧ _service_sync E st' = (Ok true, st').
Proof.
  intros Hpass Hwallets.
  pose proof (pass_converges E _ _ Hpass Hwallets) as Hconv.
  split; [done|]. by apply converged_fixed.
Qed.

End IdempotentPass.

Lemma service_sync_idempotent_witness :
  converged (svc (_service_sync stub good_issuer).2)
  ∧ _service_sync stub (_service_sync stub good_issuer).2
    = (Ok true, (_service_sync stub good_issuer).2).
Proof.
  apply (service_sync_idempotent stub good_issuer (_service_sync stub good_issuer).2).
  - vm_compute. reflexivity.
  - vm_compute. repeat constructor.
Defined.

(** ** Exactly-once publication *)

Section Resubmission.

Context {W : Type} (E : Env W).

Lemma logs_at {A} (m : @M W A) P st : logs P m → logs_from st P m.
Proof. intros H. apply H. Qed.

(** A ledger schema that is recorded on a credential type is never looked
    up nor submitted again, however the rest of the publication goes; and a
    credential type with both its ledger schema and its credential
    definition recorded is left alone: publishing it returns at once, with
    no call and no change. *)
Theorem recorded_schema_never_resubmitted i k (st : @State W) ct :
  cred_type_at i k (svc st) = Some ct →
  truthy (CredType.ledger_schema ct) = true →
  logs_from st (λ c, is_schema_call c = false) (_publish_schema E i k)
  ∧ (truthy (CredType.cred_def ct) = true → _publish_schema E i k st = (Ok (), st)).
Proof.
  intros Hct Hls. unfold cred_type_at in Hct.
  destruct (IndyService._agents (svc st) !! i) as [a|] eqn:Hi; [|done]. simpl in Hct.
  split.
  - unfold _publish_schema.
    apply logs_from_bind; [apply logs_at; logs_steps idtac|]. intros issuer st1 Hrun.
    rewrite nth_agent_run in Hrun. injection Hrun as _ <-.
    apply logs_from_bind; [apply logs_at; logs_steps idtac|]. intros cred_type st1 Hrun.
    rewrite nth_cred_type_run, Hi, Hct in Hrun. injection Hrun as <- <-.
    cbv zeta. rewrite Hls. apply logs_at. logs_steps ltac:(done).
  - intros Hcd. unfold _publish_schema.
    rewrite bind_run, nth_agent_run, Hi. rewrite bind_run, nth_cred_type_run, Hi, Hct.
    cbv zeta. rewrite Hls. rewrite bind_run. cbn [mret M_ret].
    rewrite bind_run, nth_cred_type_run, Hi, Hct. by rewrite Hcd.
Qed.

End Resubmission.

Lemma recorded_schema_never_resubmitted_witness :
  logs_from issuing (λ c, is_schema_call c = false) (_publish_schema stub 0 0)
  ∧ (truthy (CredType.cred_def published_degree) = true →
     _publish_schema stub 0 0 issuing = (Ok (), issuing)).
Proof.
  apply (recorded_schema_never_resubmitted stub 0 0 issuing published_degree);
    reflexivity.
Defined.

(** ** Connectors *)

Section Connectors.

Context {W : Type} (E : Env W).

(** Syncing a connection makes a connector at most for that connection,
    only while it has none, only once its agent is synced, and with the
    parameters of that agent; every other call it makes opens or syncs the
    connector. *)
Theorem connector_made_only_for_synced_agent c (st : @State W) conn agent :
  IndyService._connections (svc st) !! c = Some conn →
  lookup_by AgentCfg.agent_id (ConnectionCfg.agent_id conn) (IndyService._agents (svc st))
    = Some agent →
  logs_from st (connector_for conn agent) (_sync_connection E c).
Proof.
  intros Hc Hagent. unfold _sync_connection.
  apply logs_from_bind; [apply logs_at; logs_steps idtac|]. intros conn' st1 Hrun.
  unfold nth_connection in Hrun. rewrite nth_entry_run, Hc in Hrun.
  injection Hrun as <- <-.
  apply logs_from_bind; [apply logs_at; logs_steps idtac|]. intros agents st1 [= <- <-].
  rewrite Hagent. destruct (ConnectionCfg.synced conn); [by apply logs_from_quiet|].
  apply logs_from_bind.
  - destruct (ConnectionCfg.created conn) eqn:Hcreated; [by apply logs_from_quiet|].
    destruct (AgentCfg.synced agent) eqn:Hsynced; [|by apply logs_from_quiet].
    simpl. unfold ConnectionCfg_create.
    apply logs_from_bind.
    + apply logs_from_bind; [apply logs_at; logs_steps idtac|]. intros conn' st1 Hrun.
      unfold nth_connection in Hrun. rewrite nth_entry_run, Hc in Hrun.
      injection Hrun as <- <-. apply logs_at.
      logs_steps ltac:(by intros ? ? [= <- <-]).
    + intros ? ? _. by apply logs_from_quiet.
  - intros ready st1 _. apply logs_at.
    logs_steps ltac:(by intros ? ? [=]).
Qed.

End Connectors.

Lemma connector_made_only_for_synced_agent_witness :
  logs_from issuing
    (connector_for holder_conn (synced_agent_cfg "issuer-1" issuer [published_degree]))
    (_sync_connection stub 0).
Proof.
  apply (connector_made_only_for_synced_agent stub 0 issuing holder_conn
           (synced_agent_cfg "issuer-1" issuer [published_degree])); reflexivity.
Defined.

(** ** The guards of issuing and proving *)

Create HintDb exchange.
#[export] Hint Unfold _issue_credential issue_steps _create_cred_offer _create_cred
  with_instance with_instance_of generate_credential_request store_credential
  tob_generate_credential_request tob_store_credential post_json
  _generate_credential_request _store_credential synced_agent _construct_proof
  get_found_creds create_proof : exchange.

Ltac exchange_keeps :=
  repeat first [keeps_step idtac | progress autounfold with exchange].

Section Guards.

Context {W : Type} (E : Env W).

(** Issuing a credential never changes the service, and it sends nothing
    out unless the connection is registered and synced, its agent is a
    synced issuer, and that issuer has a credential type answering to the
    name, version and origin DID asked for: when one of these guards fails,
    the error is raised before any call. *)
Theorem issue_credential_guards_precede_calls (st st' : @State W) connection_id
    schema_name schema_version origin_did cred_data r :
  _issue_credential E connection_id schema_name schema_version origin_did cred_data st
    = (r, st') →
  svc st' = svc st
  ∧ (trace st' ≠ trace st →
     ∃ conn issuer_cfg cred_type,
       lookup_by ConnectionCfg.connection_id connection_id
                 (IndyService._connections (svc st)) = Some conn
       ∧ ConnectionCfg.synced conn = true
       ∧ lookup_by AgentCfg.agent_id (ConnectionCfg.agent_id conn)
                   (IndyService._agents (svc st)) = Some issuer_cfg
       ∧ AgentCfg.agent_type issuer_cfg = issuer
       ∧ AgentCfg.synced issuer_cfg = true
       ∧ AgentCfg.find_credential_type issuer_cfg schema_name schema_version origin_did
         = Some cred_type).
Proof.
  intros H. split.
  - assert (keeps (same (λ s, s))
              (_issue_credential E connection_id schema_name schema_version origin_did
                                 cred_data)) as Hkeep by exchange_keeps.
    specialize (Hkeep st). by rewrite H in Hkeep.
  - intros Hsent. unfold _issue_credential in H. rewrite bind_run in H. cbn [gets] in H.
    destruct (lookup_by ConnectionCfg.connection_id _ _) as [conn|] eqn:Hconn;
      [|by injection H as _ <-].
    destruct (ConnectionCfg.synced conn) eqn:Hcs; [|by injection H as _ <-].
    simpl in H. rewrite bind_run in H. cbn [gets] in H.
    destruct (lookup_by AgentCfg.agent_id _ _) as [issuer_cfg|] eqn:Hissuer;
      [|by injection H as _ <-].
    case_bool_decide as Htype; [by injection H as _ <-|].
    destruct (AgentCfg.synced issuer_cfg) eqn:His; [|by injection H as _ <-].
    simpl in H.
    destruct (AgentCfg.find_credential_type _ _ _ _) as [cred_type|] eqn:Hct;
      [|by injection H as _ <-].
    by exists conn, issuer_cfg, cred_type.
Qed.

(** Constructing a proof never changes the service; it asks a proof only
    of the holder named, for the request given, and only with parameters
    for which the credentials found passed the one-per-attribute checks: a
    proof is never created from credentials that failed them. *)
Theorem construct_proof_creates_only_checked (st st' : @State W) holder_id proof_req
    cred_ids r :
  _construct_proof E holder_id proof_req cred_ids st = (r, st') →
  svc st' = svc st
  ∧ logs_from st (checked_proof holder_id proof_req)
              (_construct_proof E holder_id proof_req cred_ids).
Proof.
  intros H. split.
  - assert (keeps (same (λ s, s)) (_construct_proof E holder_id proof_req cred_ids))
      as Hkeep by exchange_keeps.
    specialize (Hkeep st). by rewrite H in Hkeep.
  - apply logs_at. unfold _construct_proof, synced_agent, with_instance, get_found_creds,
      create_proof.
    logs_steps ltac:(try by intros ? ? ? ? [=]).
    all: by intros ? ? ? ? [= <- <- <- <-].
Qed.

End Guards.

(* ================================================================== *)
(** * Properties of the registrations *)

Lemma lookup_by_none {A} (id_of : A → string) id (l : list A) :
  lookup_by id_of id l = None ↔ id ∉ id_of <$> l.
Proof.
  induction l as [|x l IH]; simpl; [split; [intros _; apply not_elem_of_nil|done]|].
  destruct (String.eqb (id_of x) id) eqn:Hx.
  - apply String.eqb_eq in Hx. split; [done|]. intros Hnot. destruct Hnot. set_solver.
  - apply String.eqb_neq in Hx. rewrite IH. set_solver.
Qed.

Lemma lookup_by_snoc {A} (id_of : A → string) (l : list A) x :
  lookup_by id_of (id_of x) l = None → lookup_by id_of (id_of x) (l ++ [x]) = Some x.
Proof.
  induction l as [|y l IH]; simpl.
  - by rewrite String.eqb_refl.
  - destruct (String.eqb (id_of y) (id_of x)); [done|]. apply IH.
Qed.

Lemma registered_id_false {A} (id_of : A → string) id (l : list A) :
  registered_id id_of id l = false ↔ lookup_by id_of id l = None.
Proof.
  unfold registered_id. rewrite bool_decide_eq_false.
  destruct (lookup_by id_of id l); split; try done.
  intros Hno. destruct Hno. eauto.
Qed.

Lemma ids_snoc {A} (id_of : A → string) (l : list A) x :
  NoDup (id_of <$> l) → lookup_by id_of (id_of x) l = None → NoDup (id_of <$> l ++ [x]).
Proof.
  intros Hl Hx%lookup_by_none. rewrite fmap_app, NoDup_app.
  split_and!; [done| |apply NoDup_singleton].
  intros id Hid ->%list_elem_of_singleton. done.
Qed.

Section Registrations.

Context {W : Type}.

(** A wallet is registered only with a name and with a seed of exactly 32
    characters, under the id given or else a drawn one, and never under an
    id already taken; it is appended to the catalogue of wallets, not yet
    created, and is then what that id looks up.  Ids that were distinct
    stay distinct.  A refused registration leaves the service as it was,
    and in either case nothing is sent out. *)
Theorem add_wallet_registers draw params (st st' : @State W) r :
  _add_wallet draw params st = (r, st') →
  match r with
  | Ok id =>
      ∃ w, st' = with_service
                   (IndyService.set_wallets (IndyService._wallets (svc st) ++ [w]) (svc st))
                   st
           ∧ id = id_for (wp_id params) draw "wallet-"
           ∧ WalletCfg.wallet_id w = id
           ∧ valid_wallet w
           ∧ WalletCfg.created w = false
           ∧ lookup_by WalletCfg.wallet_id id (IndyService._wallets (svc st)) = None
           ∧ lookup_by WalletCfg.wallet_id id (IndyService._wallets (svc st')) = Some w
           ∧ (NoDup (WalletCfg.wallet_id <$> IndyService._wallets (svc st)) →
              NoDup (WalletCfg.wallet_id <$> IndyService._wallets (svc st')))
  | Raise e => st' = st
  end.
Proof.
  unfold _add_wallet. rewrite bind_run. unfold lift.
  destruct (new_WalletCfg params) as [[cfg settings]|e] eqn:Hnew; [|by intros [= <- <-]].
  rewrite bind_run. cbn [gets].
  set (w := if negb (truthy_str (wp_id params))
            then set_wallet_id (_make_id draw "wallet-") cfg else cfg).
  destruct (registered_id _ _ _) eqn:Hreg; [by intros [= <- <-]|].
  apply registered_id_false in Hreg. rewrite bind_run. intros [= <- <-].
  assert (WalletCfg.wallet_id w = id_for (wp_id params) draw "wallet-"
          ∧ valid_wallet w ∧ WalletCfg.created w = false) as (Hid & Hvalid & Hnew').
  { unfold new_WalletCfg in Hnew.
    destruct (truthy_str (wp_name params)) eqn:Hname; [|done].
    destruct (truthy_str (wp_seed params)) eqn:Hseed; [|done]. simpl in Hnew.
    destruct (String.length (default "" (wp_seed params)) =? 32)%nat eqn:Hlen; [|done].
    injection Hnew as <- _. apply Nat.eqb_eq in Hlen.
    assert (default "" (wp_name params) ≠ "") as Hn.
    { destruct (wp_name params) as [n|]; [|done]. simpl in *.
      by apply negb_true_iff, String.eqb_neq in Hname. }
    unfold w, id_for, valid_wallet. by destruct (truthy_str (wp_id params)). }
  exists w. split_and!; try done.
  - simpl. by apply lookup_by_snoc.
  - simpl. intros Hids. by apply ids_snoc.
Qed.

End Registrations.

Lemma add_wallet_registers_witness :
  ∃ w, (_add_wallet "abcdefghijkl" wallet_1 empty_service).2
       = with_service
           (IndyService.set_wallets (IndyService._wallets (svc empty_service) ++ [w])
                                    (svc empty_service))
           empty_service
       ∧ "wallet-1" = id_for (wp_id wallet_1) "abcdefghijkl" "wallet-"
       ∧ WalletCfg.wallet_id w = "wallet-1"
       ∧ valid_wallet w
       ∧ WalletCfg.created w = false
       ∧ lookup_by WalletCfg.wallet_id "wallet-1" (IndyService._wallets (svc empty_service))
         = None
       ∧ lookup_by WalletCfg.wallet_id "wallet-1"
           (IndyService._wallets (svc (_add_wallet "abcdefghijkl" wallet_1 empty_service).2))
         = Some w
       ∧ (NoDup (WalletCfg.wallet_id <$> IndyService._wallets (svc empty_service)) →
          NoDup (WalletCfg.wallet_id <$>
                   IndyService._wallets
                     (svc (_add_wallet "abcdefghijkl" wallet_1 empty_service).2))).
Proof.
  apply (add_wallet_registers "abcdefghijkl" wallet_1 empty_service
           (_add_wallet "abcdefghijkl" wallet_1 empty_service).2 (Ok "wallet-1")).
  vm_compute. reflexivity.
Defined.

Lemma AgentType_of_value_raise v e : AgentType_of_value v = Raise e → e = ValueError.
Proof.
  unfold AgentType_of_value.
  repeat (destruct (String.eqb v _); [done|]). by intros [= <-].
Qed.

Lemma position_of_lookup {A} (id_of : A → string) id (l : list A) i :
  position_of id_of id l = Some i →
  ∃ x, l !! i = Some x ∧ id_of x = id ∧ lookup_by id_of id l = Some x.
Proof.
  revert i. induction l as [|y l IH]; intros i; simpl; [done|].
  destruct (String.eqb (id_of y) id) eqn:Hy.
  - intros [= <-]. exists y. by apply String.eqb_eq in Hy.
  - destruct (position_of id_of id l) as [j|]; [|done]. intros [= <-].
    destruct (IH j eq_refl) as (x & ? & ? & ?). by exists x.
Qed.

Section AgentRegistrations.

Context {W : Type}.

(** An agent is registered only for a wallet that is registered, with one
    of the three agent types, and never under an id already taken.  It is
    appended to the catalogue of agents with no credential type, no
    instance and every status flag down, and is then what its id looks up.
    A refused registration leaves the service as it was; the error is then
    one of the two configuration errors or, for an agent type that is not
    supported, the [ValueError] of the enum lookup. *)
Theorem add_agent_registers draw agent_type wallet_id params (st st' : @State W) r :
  _add_agent draw agent_type wallet_id params st = (r, st') →
  match r with
  | Ok id =>
      ∃ type,
        let cfg := AgentCfg.Build id type [] None false false false wallet_id
                     (ap_abbreviation params) (ap_email params) (ap_endpoint params)
                     (ap_name params) (ap_url params) in
        AgentType_of_value agent_type = Ok type
        ∧ id = id_for (ap_id params) draw "agent-"
        ∧ st' = with_service
                  (IndyService.set_agents (IndyService._agents (svc st) ++ [cfg]) (svc st))
                  st
        ∧ is_Some (lookup_by WalletCfg.wallet_id wallet_id (IndyService._wallets (svc st)))
        ∧ lookup_by AgentCfg.agent_id id (IndyService._agents (svc st)) = None
        ∧ lookup_by AgentCfg.agent_id id (IndyService._agents (svc st')) = Some cfg
        ∧ (NoDup (AgentCfg.agent_id <$> IndyService._agents (svc st)) →
           NoDup (AgentCfg.agent_id <$> IndyService._agents (svc st')))
  | Raise e =>
      st' = st
      ∧ (e = IndyConfigError "Wallet ID not registered"
         ∨ e = ValueError
         ∨ e = IndyConfigError "Duplicate agent ID")
  end.
Proof.
  unfold _add_agent. rewrite bind_run. cbn [gets].
  destruct (registered_id WalletCfg.wallet_id _ _) eqn:Hwallet;
    [|intros [= <- <-]; split; [done|by left]].
  simpl. rewrite bind_run. unfold lift, new_AgentCfg.
  destruct (AgentType_of_value agent_type) as [type|e] eqn:Htype.
  2:{ rewrite (AgentType_of_value_raise _ _ Htype). intros [= <- <-].
      split; [done|]. right. by left. }
  rewrite bind_run. cbn [gets].
  set (cfg := if negb (truthy_str (ap_id params)) then _ else _).
  assert (cfg = AgentCfg.Build (id_for (ap_id params) draw "agent-") type [] None false
                  false false wallet_id (ap_abbreviation params) (ap_email params)
                  (ap_endpoint params) (ap_name params) (ap_url params)) as ->.
  { unfold cfg, id_for. by destruct (truthy_str (ap_id params)). }
  destruct (registered_id AgentCfg.agent_id _ _) eqn:Hreg.
  { intros [= <- <-]. split; [done|]. right. by right. }
  apply registered_id_false in Hreg. simpl in Hreg.
  rewrite bind_run. intros [= <- <-]. exists type. cbv zeta. split_and!; try done.
  - unfold registered_id in Hwallet. by apply bool_decide_eq_true in Hwallet.
  - simpl. lazymatch goal with
    | |- lookup_by _ _ (_ ++ [?x]) = _ => by apply (lookup_by_snoc AgentCfg.agent_id _ x)
    end.
  - simpl. intros Hids. lazymatch goal with
    | |- NoDup (_ <$> _ ++ [?x]) => by apply (ids_snoc AgentCfg.agent_id _ x)
    end.
Qed.

(** A proof specification is registered only with a version and at least
    one schema requirement, and never under an id already taken; it is
    appended to the catalogue with its requirements as given, and its
    [synced] flag up exactly when none of them lacks a definition.  A
    refused registration leaves the service as it was. *)
Theorem add_proof_spec_registers draw params (st st' : @State W) r :
  _add_proof_spec draw params st = (r, st') →
  match r with
  | Ok id =>
      ∃ spec,
        st' = with_service
                (IndyService.set_proof_specs (IndyService._proof_specs (svc st) ++ [spec])
                                             (svc st))
                st
        ∧ id = id_for (pp_id params) draw "proof-"
        ∧ ProofSpecCfg.spec_id spec = id
        ∧ pp_version params = Some (ProofSpecCfg.version spec)
        ∧ ProofSpecCfg.version spec ≠ ""
        ∧ pp_schemas params = Some (ProofSpecCfg.schemas spec)
        ∧ ProofSpecCfg.schemas spec ≠ []
        ∧ (ProofSpecCfg.synced spec = true
           ↔ ProofSpecCfg.get_incomplete_schemas spec = [])
        ∧ lookup_by ProofSpecCfg.spec_id id (IndyService._proof_specs (svc st)) = None
        ∧ lookup_by ProofSpecCfg.spec_id id (IndyService._proof_specs (svc st')) = Some spec
  | Raise e => st' = st
  end.
Proof.
  unfold _add_proof_spec. rewrite bind_run. unfold lift, new_ProofSpecCfg.
  destruct (truthy_str (pp_version params)) eqn:Hv; [|by intros [= <- <-]]. simpl.
  destruct (pp_schemas params) as [[|schema schemas]|] eqn:Hs; [by intros [= <- <-]| |
    by intros [= <- <-]].
  rewrite bind_run. cbn [gets].
  set (spec := if negb (truthy_str (pp_id params)) then _ else _).
  destruct (registered_id _ _ _) eqn:Hreg; [by intros [= <- <-]|].
  apply registered_id_false in Hreg. rewrite bind_run. intros [= <- <-].
  destruct (pp_version params) as [v|] eqn:Hpv; [|done]. simpl in Hv.
  apply negb_true_iff, String.eqb_neq in Hv.
  assert (ProofSpecCfg.spec_id spec = id_for (pp_id params) draw "proof-"
          ∧ ProofSpecCfg.version spec = v
          ∧ ProofSpecCfg.schemas spec = schema :: schemas
          ∧ ProofSpecCfg.synced spec
            = bool_decide (ProofSpecCfg.get_incomplete_schemas spec = []))
    as (Hid & Hver & Hsch & Hsyn).
  { unfold spec, id_for. by destruct (truthy_str (pp_id params)). }
  exists spec. rewrite Hid in *. split_and!; try done.
  - by rewrite Hver.
  - by rewrite Hver.
  - by rewrite Hsch.
  - by rewrite Hsch.
  - rewrite Hsyn. apply bool_decide_eq_true.
  - simpl. rewrite <- Hid. by apply lookup_by_snoc; rewrite Hid.
Qed.

End AgentRegistrations.

Lemma add_agent_registers_witness :
  ∃ type,
    let cfg := AgentCfg.Build "agent-abcdefghijkl" type [] None false false false "wallet-1"
                 (ap_abbreviation issuer_1) (ap_email issuer_1) (ap_endpoint issuer_1)
                 (ap_name issuer_1) (ap_url issuer_1) in
    AgentType_of_value "issuer" = Ok type
    ∧ "agent-abcdefghijkl" = id_for (ap_id issuer_1) "abcdefghijkl" "agent-"
    ∧ (_add_agent "abcdefghijkl" "issuer" "wallet-1" issuer_1 good_issuer).2
      = with_service
          (IndyService.set_agents (IndyService._agents (svc good_issuer) ++ [cfg])
                                  (svc good_issuer))
          good_issuer
    ∧ is_Some (lookup_by WalletCfg.wallet_id "wallet-1"
                         (IndyService._wallets (svc good_issuer)))
    ∧ lookup_by AgentCfg.agent_id "agent-abcdefghijkl"
                (IndyService._agents (svc good_issuer)) = None
    ∧ lookup_by AgentCfg.agent_id "agent-abcdefghijkl"
        (IndyService._agents
           (svc (_add_agent "abcdefghijkl" "issuer" "wallet-1" issuer_1 good_issuer).2))
      = Some cfg
    ∧ (NoDup (AgentCfg.agent_id <$> IndyService._agents (svc good_issuer)) →
       NoDup (AgentCfg.agent_id <$>
                IndyService._agents
                  (svc (_add_agent "abcdefghijkl" "issuer" "wallet-1" issuer_1
                                   good_issuer).2))).
Proof.
  apply (add_agent_registers "abcdefghijkl" "issuer" "wallet-1" issuer_1 good_issuer
           (_add_agent "abcdefghijkl" "issuer" "wallet-1" issuer_1 good_issuer).2
           (Ok "agent-abcdefghijkl")).
  vm_compute. reflexivity.
Defined.

Lemma add_proof_spec_registers_witness :
  ∃ spec,
    (_add_proof_spec "abcdefghijkl" spec_1 issuing).2
    = with_service
        (IndyService.set_proof_specs (IndyService._proof_specs (svc issuing) ++ [spec])
                                     (svc issuing))
        issuing
    ∧ "spec-1" = id_for (pp_id spec_1) "abcdefghijkl" "proof-"
    ∧ ProofSpecCfg.spec_id spec = "spec-1"
    ∧ pp_version spec_1 = Some (ProofSpecCfg.version spec)
    ∧ ProofSpecCfg.version spec ≠ ""
    ∧ pp_schemas spec_1 = Some (ProofSpecCfg.schemas spec)
    ∧ ProofSpecCfg.schemas spec ≠ []
    ∧ (ProofSpecCfg.synced spec = true ↔ ProofSpecCfg.get_incomplete_schemas spec = [])
    ∧ lookup_by ProofSpecCfg.spec_id "spec-1" (IndyService._proof_specs (svc issuing)) = None
    ∧ lookup_by ProofSpecCfg.spec_id "spec-1"
        (IndyService._proof_specs (svc (_add_proof_spec "abcdefghijkl" spec_1 issuing).2))
      = Some spec.
Proof.
  apply (add_proof_spec_registers "abcdefghijkl" spec_1 issuing
           (_add_proof_spec "abcdefghijkl" spec_1 issuing).2 (Ok "spec-1")).
  vm_compute. reflexivity.
Defined.

Section CredentialTypeRegistration.

Context {W : Type} (E : Env W).

(** A credential type is added only to a registered agent that is an
    issuer, for a schema that the constructor accepts: it is appended to
    the credential types of that agent, unpublished, and nothing else in
    the service changes; an id that is not registered raises [KeyError].
    A refused addition leaves the service as it was.  The [synced] flag of
    the agent is not touched: on an issuer that is already synced, the next
    sync of the agent returns [True] at once, and the new credential type
    stays unpublished. *)
Theorem add_credential_type_registers issuer_id schema_name schema_version origin_did
    attr_names config (st st' : @State W) r :
  _add_credential_type issuer_id schema_name schema_version origin_did attr_names config st
    = (r, st') →
  match r with
  | Ok _ =>
      ∃ i agent schema,
        IndyService._agents (svc st) !! i = Some agent
        ∧ AgentCfg.agent_id agent = issuer_id
        ∧ AgentCfg.agent_type agent = issuer
        ∧ new_SchemaCfg schema_name schema_version attr_names origin_did = Ok schema
        ∧ st' = with_service (svc st') st
        ∧ frame_agent i (svc st) (svc st')
        ∧ IndyService._agents (svc st') !! i
          = Some (AgentCfg.set_cred_types
                    (AgentCfg.cred_types agent ++ [new_cred_type schema config]) agent)
        ∧ (AgentCfg.synced agent = true →
           _sync_agent E i st' = (Ok true, st')
           ∧ cred_type_at i (length (AgentCfg.cred_types agent)) (svc st')
             = Some (new_cred_type schema config))
  | Raise e =>
      st' = st
      ∧ (lookup_by AgentCfg.agent_id issuer_id (IndyService._agents (svc st)) = None →
         e = KeyError issuer_id)
  end.
Proof.
  unfold _add_credential_type. rewrite bind_run. cbn [gets].
  destruct (position_of _ _ _) as [i|] eqn:Hpos.
  2:{ intros [= <- <-]. done. }
  destruct (position_of_lookup _ _ _ _ Hpos) as (agent & Hi & Hid & Hlook).
  rewrite bind_run, nth_agent_run, Hi. rewrite bind_run. unfold lift.
  destruct (new_SchemaCfg _ _ _ _) as [schema|e] eqn:Hschema.
  2:{ intros [= <- <-]. split; [done|]. by rewrite Hlook. }
  rewrite bind_run.
  destruct (AgentCfg.add_credential_type agent schema config) as [agent'|e] eqn:Hadd.
  2:{ intros [= <- <-]. split; [done|]. by rewrite Hlook. }
  unfold AgentCfg.add_credential_type in Hadd. case_bool_decide as Htype; [done|].
  injection Hadd as <-. unfold update_agent, modify. intros [= <- <-].
  exists i, agent, schema. split_and!; try done.
  - apply frame_agent_update.
  - simpl. by rewrite list_lookup_alter, decide_True, Hi.
  - intros Hsynced. split.
    + unfold _sync_agent. rewrite bind_run, nth_agent_run. simpl.
      rewrite list_lookup_alter, decide_True, Hi by done. simpl. by rewrite Hsynced.
    + unfold cred_type_at. simpl. rewrite list_lookup_alter, decide_True, Hi by done.
      simpl. by rewrite lookup_app_r, Nat.sub_diag by lia.
Qed.

End CredentialTypeRegistration.

Lemma add_credential_type_registers_witness :
  ∃ i agent schema,
    IndyService._agents (svc issuing) !! i = Some agent
    ∧ AgentCfg.agent_id agent = "issuer-1"
    ∧ AgentCfg.agent_type agent = issuer
    ∧ new_SchemaCfg "licence" (Some "2.0") (AttrsSequence [AttrStr "number"]) None
      = Ok schema
    ∧ (_add_credential_type "issuer-1" "licence" (Some "2.0") None
         (AttrsSequence [AttrStr "number"]) [] issuing).2
      = with_service
          (svc (_add_credential_type "issuer-1" "licence" (Some "2.0") None
                  (AttrsSequence [AttrStr "number"]) [] issuing).2)
          issuing
    ∧ frame_agent i (svc issuing)
        (svc (_add_credential_type "issuer-1" "licence" (Some "2.0") None
                (AttrsSequence [AttrStr "number"]) [] issuing).2)
    ∧ IndyService._agents
        (svc (_add_credential_type "issuer-1" "licence" (Some "2.0") None
                (AttrsSequence [AttrStr "number"]) [] issuing).2) !! i
      = Some (AgentCfg.set_cred_types
                (AgentCfg.cred_types agent ++ [new_cred_type schema []]) agent)
    ∧ (AgentCfg.synced agent = true →
       _sync_agent stub i
         (_add_credential_type "issuer-1" "licence" (Some "2.0") None
            (AttrsSequence [AttrStr "number"]) [] issuing).2
       = (Ok true,
          (_add_credential_type "issuer-1" "licence" (Some "2.0") None
             (AttrsSequence [AttrStr "number"]) [] issuing).2)
       ∧ cred_type_at i (length (AgentCfg.cred_types agent))
           (svc (_add_credential_type "issuer-1" "licence" (Some "2.0") None
                   (AttrsSequence [AttrStr "number"]) [] issuing).2)
         = Some (new_cred_type schema [])).
Proof.
  apply (add_credential_type_registers stub "issuer-1" "licence" (Some "2.0") None
           (AttrsSequence [AttrStr "number"]) [] issuing
           (_add_credential_type "issuer-1" "licence" (Some "2.0") None
              (AttrsSequence [AttrStr "number"]) [] issuing).2 (Ok ())).
  vm_compute. reflexivity.
Defined.

(* ================================================================== *)
(** * Properties of the connector to TheOrgBook *)

Lemma type_spec_refused issuer_url ct :
  assemble_ctype issuer_url (type_spec ct)
  = if truthy (default JNull (assoc "source_claim" (CredType.params ct)))
    then Raise (KeyError "topic")
    else Raise (IndyConfigError "Missing 'source_claim' for credential type").
Proof.
  unfold assemble_ctype, type_spec, optional_entry.
  destruct (assoc "description" (CredType.params ct)) as [description|];
    destruct (assoc "issuer_url" (CredType.params ct));
    destruct (assoc "mapping" (CredType.params ct)); simpl;
    destruct (truthy (default JNull (assoc "source_claim" (CredType.params ct))));
    simpl; try done; by destruct (truthy description).
Qed.

Lemma type_specs_refused issuer_url ct rest :
  assemble_ctypes issuer_url (type_spec ct :: rest)
  = if truthy (default JNull (assoc "source_claim" (CredType.params ct)))
    then Raise (KeyError "topic")
    else Raise (IndyConfigError "Missing 'source_claim' for credential type").
Proof.
  cbn [assemble_ctypes]. rewrite type_spec_refused.
  by destruct (truthy _).
Qed.

(** The parameters that [get_connection_params] assembles for an agent are
    never turned into an issuer specification.  For an agent that is no
    issuer there are none, and reading them raises [AttributeError]; for
    an issuer, either a configuration error reports what is missing (email,
    DID, name, credential types, the source claim of the first credential
    type), or the first credential-type specification is read for its
    [topic], an entry that [get_connection_params] never sets, and
    [KeyError] is raised. *)
Theorem connection_params_never_assemble (agent : AgentCfg.t) :
  is_ok (assemble_issuer_spec (get_connection_params agent)) = false
  ∧ (AgentCfg.agent_type agent ≠ issuer →
     assemble_issuer_spec (get_connection_params agent) = Raise (AttributeError "get"))
  ∧ (∀ ct rest,
       AgentCfg.agent_type agent = issuer →
       truthy_str (AgentCfg.email agent) = true →
       truthy_str (AgentCfg.did agent) = true →
       truthy_str (AgentCfg.name agent) = true →
       AgentCfg.cred_types agent = ct :: rest →
       truthy (default JNull (assoc "source_claim" (CredType.params ct))) = true →
       assemble_issuer_spec (get_connection_params agent) = Raise (KeyError "topic")).
Proof.
  assert (∀ o, truthy (json_of_option o) = truthy_str o) as Htruth by (by intros [?|]).
  assert (∀ x, truthy (jor x (JStr "")) = truthy x) as Hor
    by (intros x; unfold jor; by destruct (truthy x) eqn:Hx).
  unfold get_connection_params. case_bool_decide as Htype; [|done].
  unfold assemble_issuer_spec. cbn [jget assoc String.eqb Ascii.eqb Bool.eqb default
    from_option id mbind result_bind].
  rewrite Hor, !Htruth. split_and!.
  - destruct (truthy_str (AgentCfg.email agent)); [|done].
    destruct (truthy_str (AgentCfg.did agent)); [|done].
    destruct (truthy_str (AgentCfg.name agent)); [|done].
    cbn [negb]. destruct (AgentCfg.cred_types agent) as [|ct rest]; [done|].
    cbn [truthy fmap list_fmap negb jiter mbind result_bind].
    rewrite type_specs_refused. by destruct (truthy _).
  - done.
  - intros ct rest _ -> -> -> -> Hsource.
    cbn [truthy fmap list_fmap negb jiter mbind result_bind].
    by rewrite type_specs_refused, Hsource.
Qed.

Section TobSync.

Context {W : Type} (E : Env W).

(** Syncing a connection to TheOrgBook sends at most one request: the
    issuer specification assembled from the agent parameters, posted to the
    registration path.  Nothing is sent for an agent that is no issuer, nor
    when the parameters are refused or the API address is unusable; and it
    returns only if the reply reports success. *)
Theorem tob_sync_posts_assembled_spec connection agent_params (st st' : @State W) r :
  tob_sync E connection agent_params st = (r, st') →
  svc st' = svc st
  ∧ (∃ new, trace st' = trace st ++ new ∧ (length new ≤ 1)%nat
            ∧ Forall (issuer_registration connection agent_params) new)
  ∧ (r = Ok () → ConnectionCfg.agent_type connection = issuer →
     ∃ spec url response w w',
       assemble_issuer_spec agent_params = Ok spec
       ∧ handle E (HttpPostJson url spec) w = (Ok response, w')
       ∧ (∃ success, jget response "success" = Ok success ∧ truthy success = true)).
Proof.
  unfold tob_sync. case_bool_decide as Htype.
  2:{ intros [= <- <-]. split; [done|]. split; [|done]. exists []. rewrite app_nil_r.
      split_and!; [done|simpl; lia|constructor]. }
  rewrite bind_run. unfold lift at 1.
  destruct (assemble_issuer_spec agent_params) as [spec|e] eqn:Hspec.
  2:{ intros [= <- <-]. split; [done|]. split; [|done]. exists []. rewrite app_nil_r.
      split_and!; [done|simpl; lia|constructor]. }
  rewrite bind_run. unfold post_json. rewrite bind_run. unfold lift at 1.
  destruct (get_api_url connection "indy/register-issuer") as [url|e] eqn:Hurl.
  2:{ intros [= <- <-]. split; [done|]. split; [|done]. exists []. rewrite app_nil_r.
      split_and!; [done|simpl; lia|constructor]. }
  unfold ext. destruct (handle E (HttpPostJson url spec) (world st)) as [reply w'] eqn:Hh.
  assert (Forall (issuer_registration connection agent_params) [HttpPostJson url spec])
    as Hposted by (by repeat constructor).
  destruct reply as [response|e].
  2:{ intros [= <- <-]. split; [done|]. split; [|done]. by exists [HttpPostJson url spec]. }
  rewrite bind_run. unfold lift at 1.
  destruct (jget response "result") as [result|e].
  2:{ intros [= <- <-]. split; [done|]. split; [|done]. by exists [HttpPostJson url spec]. }
  rewrite bind_run. unfold lift at 1.
  destruct (jget response "success") as [success|e] eqn:Hsuccess.
  2:{ intros [= <- <-]. split; [done|]. split; [|done]. by exists [HttpPostJson url spec]. }
  destruct (truthy success) eqn:Hok; intros [= <- <-].
  - split; [done|]. split; [by exists [HttpPostJson url spec]|]. intros _ _.
    exists spec, url, response, (world st), w'. split_and!; [done..|]. by exists success.
  - split; [done|]. split; [by exists [HttpPostJson url spec]|]. done.
Qed.

End TobSync.

Lemma tob_sync_posts_assembled_spec_witness :
  svc (tob_sync stub tob_conn tob_params issuing).2 = svc issuing
  ∧ (∃ new, trace (tob_sync stub tob_conn tob_params issuing).2 = trace issuing ++ new
            ∧ (length new ≤ 1)%nat
            ∧ Forall (issuer_registration tob_conn tob_params) new)
  ∧ ((tob_sync stub tob_conn tob_params issuing).1 = Ok () →
     ConnectionCfg.agent_type tob_conn = issuer →
     ∃ spec url response w w',
       assemble_issuer_spec tob_params = Ok spec
       ∧ handle stub (HttpPostJson url spec) w = (Ok response, w')
       ∧ (∃ success, jget response "success" = Ok success ∧ truthy success = true)).
Proof.
  apply (tob_sync_posts_assembled_spec stub tob_conn tob_params issuing
           (tob_sync stub tob_conn tob_params issuing).2
           (tob_sync stub tob_conn tob_params issuing).1).
  vm_compute. reflexivity.
Defined.

Lemma issue_credential_guards_precede_calls_witness :
  svc (_issue_credential stub "conn-1" "degree" (Some "1.0") None alice issuing).2
  = svc issuing
  ∧ (trace (_issue_credential stub "conn-1" "degree" (Some "1.0") None alice issuing).2
     ≠ trace issuing →
     ∃ conn issuer_cfg cred_type,
       lookup_by ConnectionCfg.connection_id "conn-1"
                 (IndyService._connections (svc issuing)) = Some conn
       ∧ ConnectionCfg.synced conn = true
       ∧ lookup_by AgentCfg.agent_id (ConnectionCfg.agent_id conn)
                   (IndyService._agents (svc issuing)) = Some issuer_cfg
       ∧ AgentCfg.agent_type issuer_cfg = issuer
       ∧ AgentCfg.synced issuer_cfg = true
       ∧ AgentCfg.find_credential_type issuer_cfg "degree" (Some "1.0") None
         = Some cred_type).
Proof.
  apply (issue_credential_guards_precede_calls stub issuing
           (_issue_credential stub "conn-1" "degree" (Some "1.0") None alice issuing).2
           "conn-1" "degree" (Some "1.0") None alice
           (_issue_credential stub "conn-1" "degree" (Some "1.0") None alice issuing).1).
  vm_compute. reflexivity.
Defined.

Lemma construct_proof_creates_only_checked_witness :
  svc (_construct_proof stub "holder-1" name_request [] issuing).2 = svc issuing
  ∧ logs_from issuing (checked_proof "holder-1" name_request)
              (_construct_proof stub "holder-1" name_request []).
Proof.
  apply (construct_proof_creates_only_checked stub issuing
           (_construct_proof stub "holder-1" name_request [] issuing).2
           "holder-1" name_request []
           (_construct_proof stub "holder-1" name_request [] issuing).1).
  vm_compute. reflexivity.
Defined.
